(** * Ternary Mesh Tree (tmt-js): a shallow embedding of [src/index.ts]

    The development follows the source file top-down: hash utilities,
    node and proof records, configuration, errors, and then the methods
    of the class [TernaryMeshTree].  JavaScript features the code relies
    on are written out:

    - a [Uint8Array] is a [list byte]; a JS array that may have holes
      (an out-of-range write extends it) is a list of options;
    - a method that can throw returns a [completion]; a method that
      mutates [this] maps a tree to the tree it leaves behind, paired
      with its completion;
    - [while (true)] loops carry fuel, and running out of it is the
      completion [Diverge];
    - the external primitive BLAKE3 is a parameter, bundled with the one
      fact the code uses about it (32-byte digests);
    - an index a caller passes is an integer ([Z]), a node id is a
      position in the node array ([nat]); what the indexed methods do
      at a [number] that is no integer (NaN, an infinity, a fraction)
      is written out in [AnyNumber]. *)

From Stdlib Require Import ZArith Strings.Byte Strings.Ascii.
From stdpp Require Import base decidable option list strings pretty gmap.

Local Open Scope Z_scope.
Local Open Scope nat_scope.

(** ** Numbers

    A JavaScript [number] as an index can be: an integer, a finite
    number that is no integer, NaN, or an infinity.  [Frac m e] is the
    number [(2m + 1) / 2^e], so that every finite number that is no
    integer is written exactly once.  [-0] is [0] as an array index, as
    a [Map] key and in a message, and is not told apart from it. *)
Inductive number :=
| Int (z : Z)
| Frac (m : Z) (e : positive)
| NaN
| Infinity
| NegInfinity.

(** [x < n] and [x >= n] against an integer [n]; every comparison with
    NaN is false. *)
Definition number_lt (x : number) (n : Z) : bool :=
  match x with
  | Int z => bool_decide (z < n)%Z
  | Frac m e => bool_decide (2 * m + 1 < n * 2 ^ Z.pos e)%Z
  | NaN => false
  | Infinity => false
  | NegInfinity => true
  end.

Definition number_ge (x : number) (n : Z) : bool :=
  match x with
  | Int z => bool_decide (n ≤ z)%Z
  | Frac m e => bool_decide (n * 2 ^ Z.pos e ≤ 2 * m + 1)%Z
  | NaN => false
  | Infinity => true
  | NegInfinity => false
  end.

(** The element of an array that the property key [x] names: only a
    non-negative integer is an array index.  Under any other number
    [a[x]] reads [undefined], and [a[x] = v] makes a property of the
    array object that is no element and leaves [length] alone; no code
    of the file reads such a property. *)
Definition arrayIndex (x : number) : option nat :=
  match x with
  | Int z => if decide (0 ≤ z)%Z then Some (Z.to_nat z) else None
  | _ => None
  end.

(** ** Completions: normal return, a thrown exception, or divergence *)

Inductive ErrorMessage :=
| EMPTY_DATA | INVALID_INDEX | UNINITIALIZED
| SERIALIZATION | INVALID_PROOF | MISSING_PARENT.

(** [TMTError m d]: a [TMTError] whose message is [ErrorMessages.m],
    followed by [": " + d] when the code interpolates an index. *)
Inductive exn :=
| TMTError (m : ErrorMessage) (detail : option number)
| TypeError
| RangeError.

Inductive completion (A : Type) :=
| Return (a : A)
| Throw (e : exn)
| Diverge.
Arguments Return {A} a.
Arguments Throw {A} e.
Arguments Diverge {A}.

#[global] Instance completion_ret : MRet completion := @Return.
#[global] Instance completion_bind : MBind completion := λ A B f m,
  match m with
  | Return a => f a
  | Throw e => Throw e
  | Diverge => Diverge
  end.

(** [a[i]] on an array of objects followed by a property access:
    [undefined.x] throws a [TypeError]. *)
Definition deref {A} (o : option A) : completion A :=
  match o with
  | Some a => Return a
  | None => Throw TypeError
  end.

(** ** Hash utilities *)

Abbreviation bytes := (list byte).
Abbreviation Hash := (list byte).
Abbreviation NodeID := nat.

(** The external hash primitive: [hash] of the package [blake3], whose
    default digest is 32 bytes long. *)
Class HashPrimitive := {
  blake3 : bytes → bytes;
  blake3_length : ∀ data, length (blake3 data) = 32
}.

Section hash_utilities.
Context `{HP : HashPrimitive}.

Definition computeHash (data : bytes) : Hash := blake3 data.

(** [target.set(source, offset)] on typed arrays: a source that does
    not fit throws a [RangeError]. *)
Definition typedArraySet (target source : bytes) (offset : nat)
  : completion bytes :=
  if decide (offset + length source ≤ length target)
  then Return (take offset target ++ source
               ++ drop (offset + length source) target)
  else Throw RangeError.

(** The loop of [combineHashes]; a hole in [hashes] reaches [set] as
    [undefined], which throws a [TypeError]. *)
Fixpoint combineLoop (hashes : list (option Hash)) (i : nat)
    (combined : bytes) : completion bytes :=
  match hashes with
  | [] => Return combined
  | h :: rest =>
      src ← deref h;
      combined' ← typedArraySet combined src (i * 32);
      combineLoop rest (S i) combined'
  end.

Definition combineHashes (hashes : list (option Hash)) : completion Hash :=
  combined ← combineLoop hashes 0 (replicate (length hashes * 32) x00%byte);
  Return (blake3 combined).

(** [b.toString(16)] for a byte: its hexadecimal digits, most
    significant first and without a leading zero. *)
Definition hexDigit (d : N) : ascii :=
  default "0"%char (String.get (N.to_nat d) "0123456789abcdef").

Definition toString16 (b : byte) : string :=
  let n := Byte.to_N b in
  if decide (n < 16)%N then String (hexDigit n) ""
  else String (hexDigit (n / 16)) (String (hexDigit (n mod 16)) "").

(** [s.padStart(len, c)] for a one-character [c]. *)
Definition padStart (len : nat) (c : ascii) (s : string) : string :=
  Nat.iter (len - String.length s) (String c) s.

Definition hashToHex (h : Hash) : string :=
  String.concat "" (map (λ b, padStart 2 "0" (toString16 b)) h).

Fixpoint bytesEqualFrom (a b : bytes) : bool :=
  match a, b with
  | x :: a', y :: b' => if Byte.eqb x y then bytesEqualFrom a' b' else false
  | _, _ => true
  end.

Definition hashesEqual (a b : Hash) : bool :=
  if decide (length a ≠ length b) then false else bytesEqualFrom a b.
End hash_utilities.

(** ** State-passing methods

    [M S A] is a computation on a mutable state [S]: it returns the state
    it leaves behind together with its completion, so that what a call
    has already written when it throws stays observable. *)

Definition M (S A : Type) : Type := S → S * completion A.

#[global] Instance M_ret {S} : MRet (M S) := λ A a s, (s, Return a).
#[global] Instance M_bind {S} : MBind (M S) := λ A B f m s,
  match m s with
  | (s', Return a) => f a s'
  | (s', Throw e) => (s', Throw e)
  | (s', Diverge) => (s', Diverge)
  end.

Definition lift {S A} (c : completion A) : M S A := λ s, (s, c).
Definition throw {S A} (e : exn) : M S A := lift (Throw e).
Definition gets {S A} (f : S → A) : M S A := λ s, (s, Return (f s)).
Definition modify {S} (f : S → S) : M S unit := λ s, (f s, Return ()).

(** ** Serializable and internal nodes *)

Record SerializableNode := {
  sn_id : NodeID;
  sn_hash : list Z;
  sn_children : list NodeID;
  sn_isLeaf : bool;
  sn_parent : option NodeID
}.

Record InternalNode := {
  hash : Hash;
  children : list NodeID;
  isLeaf : bool;
  parent : option NodeID
}.

Record SerializedBlob := {
  sb_nodes : list SerializableNode;
  sb_leafData : list (list Z);
  sb_rootID : option NodeID;
  sb_leafCount : Z
}.

(** ** Verification proof *)

Record SiblingHash := { sh_pos : Z; sh_hash : Hash }.

Record VerificationProof := {
  leafIndex : Z;
  siblingHashes : list SiblingHash;
  pathLength : nat
}.

(** ** Metrics and configuration

    The three timing fields of [Metrics] are differences of
    [performance.now()] and are left out; the counters and the memory
    estimate are kept. *)

Record Metrics := {
  totalVerifications : nat;
  totalUpdates : nat;
  memoryUsageBytes : nat
}.

Record Config := {
  enableCaching : bool;
  maxCacheSize : Z;
  enableMetrics : bool;
  parallelThreshold : Z
}.

Definition defaultConfig : Config :=
  {| enableCaching := true; maxCacheSize := 10000;
     enableMetrics := true; parallelThreshold := 1000 |}.

(** ** The class [TernaryMeshTree] *)

Record TernaryMeshTree := {
  nodes : list InternalNode;
  leafData : list (option bytes);
  rootID : option NodeID;
  leafCount : Z;
  cfg : Config;
  metrics : Metrics;
  hashCache : gmap string Hash
}.

Definition newTree (c : Config) : TernaryMeshTree :=
  {| nodes := []; leafData := []; rootID := None; leafCount := 0;
     cfg := c;
     metrics := {| totalVerifications := 0; totalUpdates := 0;
                   memoryUsageBytes := 0 |};
     hashCache := ∅ |}.

Definition set_nodes (f : list InternalNode → list InternalNode)
    (t : TernaryMeshTree) : TernaryMeshTree :=
  {| nodes := f (nodes t); leafData := leafData t; rootID := rootID t;
     leafCount := leafCount t; cfg := cfg t; metrics := metrics t;
     hashCache := hashCache t |}.

Definition set_leafData (f : list (option bytes) → list (option bytes))
    (t : TernaryMeshTree) : TernaryMeshTree :=
  {| nodes := nodes t; leafData := f (leafData t); rootID := rootID t;
     leafCount := leafCount t; cfg := cfg t; metrics := metrics t;
     hashCache := hashCache t |}.

Definition set_rootID (r : option NodeID) (t : TernaryMeshTree)
  : TernaryMeshTree :=
  {| nodes := nodes t; leafData := leafData t; rootID := r;
     leafCount := leafCount t; cfg := cfg t; metrics := metrics t;
     hashCache := hashCache t |}.

Definition set_leafCount (n : Z) (t : TernaryMeshTree) : TernaryMeshTree :=
  {| nodes := nodes t; leafData := leafData t; rootID := rootID t;
     leafCount := n; cfg := cfg t; metrics := metrics t;
     hashCache := hashCache t |}.

Definition set_metrics (f : Metrics → Metrics) (t : TernaryMeshTree)
  : TernaryMeshTree :=
  {| nodes := nodes t; leafData := leafData t; rootID := rootID t;
     leafCount := leafCount t; cfg := cfg t; metrics := f (metrics t);
     hashCache := hashCache t |}.

Definition set_hashCache (f : gmap string Hash → gmap string Hash)
    (t : TernaryMeshTree) : TernaryMeshTree :=
  {| nodes := nodes t; leafData := leafData t; rootID := rootID t;
     leafCount := leafCount t; cfg := cfg t; metrics := metrics t;
     hashCache := f (hashCache t) |}.

Definition set_hash (h : Hash) (n : InternalNode) : InternalNode :=
  {| hash := h; children := children n; isLeaf := isLeaf n;
     parent := parent n |}.

Definition set_parent (p : option NodeID) (n : InternalNode) : InternalNode :=
  {| hash := hash n; children := children n; isLeaf := isLeaf n;
     parent := p |}.

(** A method that only touches [this.nodes]. *)
Definition onNodes {A} (m : M (list InternalNode) A) : M TernaryMeshTree A :=
  λ t, let '(ns, r) := m (nodes t) in (set_nodes (λ _, ns) t, r).

(** [a[i] = x] on a JS array: an index past the end extends the array,
    leaving holes in between. *)
Definition arraySet {A} (a : list (option A)) (i : nat) (x : A)
  : list (option A) :=
  if decide (i < length a) then <[i := Some x]> a
  else a ++ replicate (i - length a) None ++ [Some x].

(** ** Helpers *)

Fixpoint chunkLoop {T} (fuel k : nat) (arr : list T) : list (list T) :=
  match fuel with
  | 0 => []
  | S fuel' =>
      match arr with
      | [] => []
      | _ => take k arr :: chunkLoop fuel' k (drop k arr)
      end
  end.

(** [chunkBy]: the loop advances by [k ≥ 1] and so runs at most
    [arr.length] times. *)
Definition chunkBy {T} (arr : list T) (k : nat) : list (list T) :=
  if decide (k ≤ 0) then [arr] else chunkLoop (length arr) k arr.

Section TernaryMeshTree.
Context `{HP : HashPrimitive}.

(** *** Internals used by [build] *)

(** [Array.from(data).join(',')] *)
Definition cacheKey (data : bytes) : string :=
  String.concat "," (map (λ b, pretty (Byte.to_N b)) data).

Definition getCachedHash (data : bytes) : M TernaryMeshTree Hash := λ t,
  if enableCaching (cfg t) then
    let key := cacheKey data in
    match hashCache t !! key with
    | Some h => (t, Return h)
    | None =>
        let h := computeHash data in
        if decide (Z.of_nat (size (hashCache t)) < maxCacheSize (cfg t))%Z
        then (set_hashCache <[key := h]> t, Return h)
        else (t, Return h)
    end
  else (t, Return (computeHash data)).

Definition leafNode (h : Hash) : InternalNode :=
  {| hash := h; children := []; isLeaf := true; parent := None |}.

(** The loop over [dataBlocks]; [i] is the loop index. *)
Fixpoint buildLeaves (dataBlocks : list bytes) (i : nat)
    (current : list NodeID) : M TernaryMeshTree (list NodeID) :=
  match dataBlocks with
  | [] => mret current
  | d :: rest =>
      h ← getCachedHash d;
      modify (set_nodes (λ ns, ns ++ [leafNode h]));;
      modify (set_leafData (λ ld, ld ++ [Some d]));;
      buildLeaves rest (S i) (current ++ [i])
  end.

(** [while (current.length % 3 !== 0)] *)
Fixpoint padLeaves (fuel : nat) (current : list NodeID)
  : M TernaryMeshTree (list NodeID) :=
  match fuel with
  | 0 => lift Diverge
  | S fuel' =>
      if decide (length current mod 3 ≠ 0) then
        modify (set_nodes (λ ns, ns ++ [leafNode (computeHash [])]));;
        modify (set_leafData (λ ld, ld ++ [Some []]));;
        n ← gets (λ t, length (nodes t));
        padLeaves fuel' (current ++ [n - 1])
      else mret current
  end.

(** [for (const cid of chunk) this.nodes[cid].parent = pid] *)
Fixpoint setParents (chunk : list NodeID) (pid : NodeID)
  : M (list InternalNode) unit :=
  match chunk with
  | [] => mret ()
  | cid :: rest =>
      n ← (λ ns, (ns, deref (ns !! cid)));
      modify (λ ns, <[cid := set_parent (Some pid) n]> ns);;
      setParents rest pid
  end.

Definition appendParent (chunk : list NodeID) (parentHash : Hash)
  : M (list InternalNode) NodeID :=
  let p := {| hash := parentHash; children := chunk; isLeaf := false;
              parent := None |} in
  pid ← gets length;
  modify (λ ns, ns ++ [p]);;
  setParents chunk pid;;
  mret pid.

(** [for (const id of ids) childHashes.push(this.nodes[id].hash)] *)
Fixpoint childHashesOf (ns : list InternalNode) (ids : list NodeID)
  : completion (list (option Hash)) :=
  match ids with
  | [] => Return []
  | id :: rest =>
      n ← deref (ns !! id);
      hs ← childHashesOf ns rest;
      Return (Some (hash n) :: hs)
  end.

Definition hashChunk (ns : list InternalNode) (chunk : list NodeID)
  : completion Hash :=
  childHashes ← childHashesOf ns chunk;
  combineHashes childHashes.

(** The serial branch: [chunk] runs over
    [current.slice(i, Math.min(i + 3, current.length))] for
    [i = 0, 3, 6, ...], which are the chunks of [chunkBy current 3]. *)
Fixpoint serialLayer (chunks : list (list NodeID)) (next : list NodeID)
  : M (list InternalNode) (list NodeID) :=
  match chunks with
  | [] => mret next
  | chunk :: rest =>
      h ← (λ ns, (ns, hashChunk ns chunk));
      pid ← appendParent chunk h;
      serialLayer rest (next ++ [pid])
  end.

(** The parallel branch.  The async callbacks have no [await], so they
    run to completion in index order while [map] builds [promises];
    [Promise.all] rejects with the first rejection; [precomp] arrives
    ordered by [i], so the sort leaves it as it is. *)
Fixpoint precompute (ns : list InternalNode) (chunks : list (list NodeID))
  : completion (list (list NodeID * Hash)) :=
  match chunks with
  | [] => Return []
  | chunk :: rest =>
      h ← hashChunk ns chunk;
      ps ← precompute ns rest;
      Return ((chunk, h) :: ps)
  end.

Fixpoint appendPrecomputed (precomp : list (list NodeID * Hash))
    (next : list NodeID) : M (list InternalNode) (list NodeID) :=
  match precomp with
  | [] => mret next
  | p :: rest =>
      pid ← appendParent p.1 p.2;
      appendPrecomputed rest (next ++ [pid])
  end.

Definition parallelLayer (current : list NodeID)
  : M (list InternalNode) (list NodeID) :=
  precomp ← (λ ns, (ns, precompute ns (chunkBy current 3)));
  appendPrecomputed precomp [].

(** [while (current.length > 1)] *)
Fixpoint bottomUp (fuel : nat) (c : Config) (current : list NodeID)
  : M (list InternalNode) (list NodeID) :=
  match fuel with
  | 0 => lift Diverge
  | S fuel' =>
      if decide (1 < length current) then
        next ← (if decide ((0 < parallelThreshold c)%Z
                          ∧ (parallelThreshold c ≤ Z.of_nat (length current))%Z)
                then parallelLayer current
                else serialLayer (chunkBy current 3) []);
        bottomUp fuel' c next
      else mret current
  end.

Fixpoint sumLengths (ld : list (option bytes)) (total : nat)
  : completion nat :=
  match ld with
  | [] => Return total
  | d :: rest => b ← deref d; sumLengths rest (total + length b)
  end.

Definition estimateMemoryUsage (t : TernaryMeshTree) : completion nat :=
  sumLengths (leafData t) (80 * length (nodes t)).

(** *** Build *)

(** The two [while] loops get the fuel they can use up: padding stops
    within two rounds, and every round of the bottom-up loop shortens
    [current].  [current[0]] of an empty array would be [undefined];
    it is read as "no root". *)
Definition build (dataBlocks : list bytes) : M TernaryMeshTree unit :=
  if decide (length dataBlocks = 0) then throw (TMTError EMPTY_DATA None)
  else
    modify (set_nodes (λ _, []));;
    modify (set_leafData (λ _, []));;
    modify (set_leafCount (Z.of_nat (length dataBlocks)));;
    modify (set_rootID None);;
    current ← buildLeaves dataBlocks 0 [];
    current ← padLeaves 3 current;
    c ← gets cfg;
    current ← onNodes (bottomUp (length current) c current);
    modify (set_rootID (head current));;
    if enableMetrics c then
      m ← (λ t, (t, estimateMemoryUsage t));
      modify (set_metrics (λ ms,
        {| totalVerifications := totalVerifications ms;
           totalUpdates := totalUpdates ms;
           memoryUsageBytes := m |}))
    else mret ().

(** *** Proofs *)

(** [this.nodes[cur]] for a number [cur]: [undefined] unless [cur] is
    an index of the array. *)
Definition nodeAt (ns : list InternalNode) (cur : Z) : option InternalNode :=
  if decide (0 ≤ cur)%Z then ns !! Z.to_nat cur else None.

(** The search for [pos]; [None] stands for [pos = -1]. *)
Fixpoint findPos (cs : list NodeID) (cur : Z) (i : nat) : option nat :=
  match cs with
  | [] => None
  | c :: rest =>
      if decide (Z.of_nat c = cur) then Some i else findPos rest cur (S i)
  end.

Fixpoint siblingsOf (ns : list InternalNode) (cs : list NodeID)
    (pos i : nat) : completion (list SiblingHash) :=
  match cs with
  | [] => Return []
  | cid :: rest =>
      if decide (i = pos) then siblingsOf ns rest pos (S i)
      else
        cn ← deref (ns !! cid);
        sibs ← siblingsOf ns rest pos (S i);
        Return ({| sh_pos := Z.of_nat i; sh_hash := hash cn |} :: sibs)
  end.

Fixpoint proofLoop (fuel : nat) (ns : list InternalNode) (cur : Z)
    (sibs : list SiblingHash) (path : nat)
  : completion (list SiblingHash * nat) :=
  match fuel with
  | 0 => Diverge
  | S fuel' =>
      n ← deref (nodeAt ns cur);
      match parent n with
      | None => Return (sibs, path)
      | Some pid =>
          pn ← deref (ns !! pid);
          match findPos (children pn) cur 0 with
          | None => Throw (TMTError MISSING_PARENT None)
          | Some pos =>
              level ← siblingsOf ns (children pn) pos 0;
              proofLoop fuel' ns (Z.of_nat pid) (sibs ++ level) (S path)
          end
      end
  end.

(** A walk that has not reached a parentless node after visiting more
    nodes than the array holds is on a cycle and never returns. *)
Definition generateProofInternal (t : TernaryMeshTree) (leafIndex : Z)
  : completion VerificationProof :=
  r ← proofLoop (S (length (nodes t))) (nodes t) leafIndex [] 0;
  Return {| leafIndex := leafIndex; siblingHashes := r.1;
            pathLength := r.2 |}.

Definition generateProof (t : TernaryMeshTree) (leafIndex : Z)
  : completion VerificationProof :=
  if decide (leafIndex < 0 ∨ leafCount t ≤ leafIndex)%Z
  then Throw (TMTError INVALID_INDEX (Some (Int leafIndex)))
  else generateProofInternal t leafIndex.

(** The inner loop of [verifyProofInternal].  The counter [si] is kept
    as the part of [proof.siblingHashes] not read yet; [None] stands
    for [return false]. *)
Fixpoint fillSiblings (need pos : nat) (childHashes : list (option Hash))
    (sibs : list SiblingHash)
  : option (list (option Hash) * list SiblingHash) :=
  match need with
  | 0 => Some (childHashes, sibs)
  | S need' =>
      match sibs with
      | [] => None
      | sh :: rest =>
          if decide (sh_pos sh = Z.of_nat pos ∨ sh_pos sh < 0
                     ∨ Z.of_nat (length childHashes) ≤ sh_pos sh)%Z
          then None
          else fillSiblings need' pos
                 (<[Z.to_nat (sh_pos sh) := Some (sh_hash sh)]> childHashes)
                 rest
      end
  end.

Fixpoint verifyLoop (steps : nat) (ns : list InternalNode) (root : NodeID)
    (curID : Z) (curHash : Hash) (sibs : list SiblingHash)
  : completion bool :=
  match steps with
  | 0 =>
      match sibs with
      | [] => rn ← deref (ns !! root); Return (hashesEqual curHash (hash rn))
      | _ :: _ => Return false
      end
  | S steps' =>
      n ← deref (nodeAt ns curID);
      match parent n with
      | None => Return false
      | Some pid =>
          pn ← deref (ns !! pid);
          match findPos (children pn) curID 0 with
          | None => Return false
          | Some pos =>
              let len := length (children pn) in
              let childHashes := <[pos := Some curHash]> (replicate len None) in
              match fillSiblings (len - 1) pos childHashes sibs with
              | None => Return false
              | Some (childHashes', sibs') =>
                  h ← combineHashes childHashes';
                  verifyLoop steps' ns root (Z.of_nat pid) h sibs'
              end
          end
      end
  end.

Definition verifyProofInternal (t : TernaryMeshTree)
    (proof : VerificationProof) (leafHash : Hash) (root : NodeID)
  : completion bool :=
  verifyLoop (pathLength proof) (nodes t) root (leafIndex proof) leafHash
    (siblingHashes proof).

Definition verifyProof (t : TernaryMeshTree) (proof : VerificationProof)
    (data : bytes) : completion (bool * option exn) :=
  match rootID t with
  | None => Return (false, Some (TMTError UNINITIALIZED None))
  | Some root =>
      ok ← verifyProofInternal t proof (computeHash data) root;
      Return (ok, None)
  end.

(** *** Verify *)

Definition countVerification : M TernaryMeshTree unit := λ t,
  if enableMetrics (cfg t) then
    (set_metrics (λ ms,
       {| totalVerifications := S (totalVerifications ms);
          totalUpdates := totalUpdates ms;
          memoryUsageBytes := memoryUsageBytes ms |}) t, Return ())
  else (t, Return ()).

(** The result pair is [[ok, err]].  The read of
    [this.nodes[leafIndex].hash] stands before the [try] block. *)
Definition verify (leafIndex : Z) (data : bytes)
  : M TernaryMeshTree (bool * option exn) := λ t,
  if decide (leafIndex < 0 ∨ leafCount t ≤ leafIndex)%Z
  then (t, Return (false,
              Some (TMTError INVALID_INDEX (Some (Int leafIndex)))))
  else
    match rootID t with
    | None => (t, Return (false, Some (TMTError UNINITIALIZED None)))
    | Some root =>
        let exp := computeHash data in
        match nodeAt (nodes t) leafIndex with
        | None => (t, Throw TypeError)
        | Some n =>
            if negb (hashesEqual (hash n) exp)
            then (countVerification;; mret (false, None)) t
            else
              match (proof ← generateProofInternal t leafIndex;
                     verifyProofInternal t proof exp root) with
              | Return ok => (countVerification;; mret (ok, None)) t
              | Throw e => (t, Return (false, Some e))
              | Diverge => (t, Diverge)
              end
        end
    end.

(** *** Update and BatchUpdate *)

Definition recomputeNodeHash (id : NodeID) : M (list InternalNode) unit :=
  λ ns,
  if decide (length ns ≤ id)
  then (ns, Throw (TMTError INVALID_INDEX (Some (Int (Z.of_nat id)))))
  else
    match ns !! id with
    | None => (ns, Throw TypeError)
    | Some n =>
        if isLeaf n then (ns, Return ())
        else
          match hashChunk ns (children n) with
          | Return h => (<[id := set_hash h n]> ns, Return ())
          | Throw e => (ns, Throw e)
          | Diverge => (ns, Diverge)
          end
    end.

Fixpoint ancestorsLoop (fuel : nat) (ns : list InternalNode)
    (current : NodeID) (anc : list NodeID) : completion (list NodeID) :=
  match fuel with
  | 0 => Diverge
  | S fuel' =>
      n ← deref (ns !! current);
      match parent n with
      | None => Return anc
      | Some p => ancestorsLoop fuel' ns p (anc ++ [p])
      end
  end.

(** [for (let i = anc.length - 1; i >= 0; i--)]; the argument [k] is
    [i + 1]. *)
Fixpoint recomputeDownFrom (anc : list NodeID) (k : nat)
  : M (list InternalNode) unit :=
  match k with
  | 0 => mret ()
  | S i =>
      id ← lift (deref (anc !! i));
      recomputeNodeHash id;;
      recomputeDownFrom anc i
  end.

Definition updateAncestors (cur : NodeID) : M (list InternalNode) unit :=
  anc ← (λ ns, (ns, ancestorsLoop (S (length ns)) ns cur []));
  recomputeDownFrom anc (length anc).

(** [this.nodes[idx].hash = h] *)
Definition setLeafHash (idx : nat) (h : Hash) : M (list InternalNode) unit :=
  n ← (λ ns, (ns, deref (ns !! idx)));
  modify (λ ns, <[idx := set_hash h n]> ns).

Definition countUpdates (k : nat) : M TernaryMeshTree unit := λ t,
  if enableMetrics (cfg t) then
    (set_metrics (λ ms,
       {| totalVerifications := totalVerifications ms;
          totalUpdates := totalUpdates ms + k;
          memoryUsageBytes := memoryUsageBytes ms |}) t, Return ())
  else (t, Return ()).

Definition update (leafIndex : Z) (newData : bytes)
  : M TernaryMeshTree unit :=
  n ← gets leafCount;
  if decide (leafIndex < 0 ∨ n ≤ leafIndex)%Z
  then throw (TMTError INVALID_INDEX (Some (Int leafIndex)))
  else
    let idx := Z.to_nat leafIndex in
    modify (set_leafData (λ ld, arraySet ld idx newData));;
    onNodes (setLeafHash idx (computeHash newData));;
    onNodes (updateAncestors idx);;
    countUpdates 1.

(** A [Set<NodeID>] iterates in insertion order: a list without
    repetitions, new members at its end. *)
Definition setAdd (x : NodeID) (s : list NodeID) : list NodeID :=
  if decide (x ∈ s) then s else s ++ [x].

Fixpoint collectAncestors (fuel : nat) (ns : list InternalNode)
    (current : NodeID) (set : list NodeID) : completion (list NodeID) :=
  match fuel with
  | 0 => Diverge
  | S fuel' =>
      n ← deref (ns !! current);
      match parent n with
      | None => Return set
      | Some p => collectAncestors fuel' ns p (setAdd p set)
      end
  end.

(** The [Map] argument of [batchUpdate] is given by its entries, in
    the map's iteration order; [updates.size] is their number.  The
    keys are integers here; [AnyNumber.batchUpdate] takes the keys as
    any number. *)
Fixpoint validateIndices (entries : list (Z * bytes)) (n : Z)
  : completion unit :=
  match entries with
  | [] => Return ()
  | (idx, _) :: rest =>
      if decide (idx < 0 ∨ n ≤ idx)%Z
      then Throw (TMTError INVALID_INDEX (Some (Int idx)))
      else validateIndices rest n
  end.

Fixpoint applyUpdates (entries : list (Z * bytes))
  : M TernaryMeshTree unit :=
  match entries with
  | [] => mret ()
  | (idx, data) :: rest =>
      modify (set_leafData (λ ld, arraySet ld (Z.to_nat idx) data));;
      onNodes (setLeafHash (Z.to_nat idx) (computeHash data));;
      applyUpdates rest
  end.

Fixpoint collectAffected (entries : list (Z * bytes))
    (ns : list InternalNode) (affected : list NodeID)
  : completion (list NodeID) :=
  match entries with
  | [] => Return affected
  | (idx, _) :: rest =>
      affected' ← collectAncestors (S (length ns)) ns (Z.to_nat idx) affected;
      collectAffected rest ns affected'
  end.

(** [while (queue.length > 0)] *)
Fixpoint sweep (fuel : nat) (queue seen : list NodeID)
  : M (list InternalNode) unit :=
  match fuel with
  | 0 => lift Diverge
  | S fuel' =>
      match queue with
      | [] => mret ()
      | id :: queue' =>
          if decide (id ∈ seen) then sweep fuel' queue' seen
          else
            recomputeNodeHash id;;
            n ← (λ ns, (ns, deref (ns !! id)));
            match parent n with
            | Some p => sweep fuel' (queue' ++ [p]) (id :: seen)
            | None => sweep fuel' queue' (id :: seen)
            end
      end
  end.

(** Every round of the sweep either drops a queue entry or recomputes
    a node for the first time, after which at most one entry is added:
    the queue's length plus the number of nodes bounds the rounds. *)
Definition batchUpdate (updates : list (Z * bytes))
  : M TernaryMeshTree unit :=
  n ← gets leafCount;
  lift (validateIndices updates n);;
  applyUpdates updates;;
  affected ← (λ t, (t, collectAffected updates (nodes t) []));
  fuel ← gets (λ t, S (length affected + length (nodes t)));
  onNodes (sweep fuel affected []);;
  countUpdates (length updates).

(** *** Getters *)

Definition getRootHash (t : TernaryMeshTree)
  : completion (option Hash * bool) :=
  match rootID t with
  | None => Return (None, false)
  | Some r => n ← deref (nodes t !! r); Return (Some (hash n), true)
  end.

Definition getLeafCount (t : TernaryMeshTree) : Z := leafCount t.

(** [getMetrics]: a copy of the counters, or zeros when metrics are
    switched off. *)
Definition getMetrics (t : TernaryMeshTree) : Metrics :=
  if negb (enableMetrics (cfg t)) then
    {| totalVerifications := 0; totalUpdates := 0; memoryUsageBytes := 0 |}
  else metrics t.

(** [calculateHeight] recurses without a bound; on a node array with a
    cycle among the children the recursion ends when the engine's call
    stack is used up, with a [RangeError].  A chain of more calls than
    the array has nodes visits a node twice, so that much fuel is the
    stack an acyclic array needs. *)
Fixpoint calculateHeight (fuel : nat) (ns : list InternalNode) (id : NodeID)
  : completion nat :=
  match fuel with
  | 0 => Throw RangeError
  | S fuel' =>
      n ← deref (ns !! id);
      if isLeaf n then Return 1
      else
        maxH ← (fix loop (cs : list NodeID) (maxH : nat) : completion nat :=
                  match cs with
                  | [] => Return maxH
                  | cid :: rest =>
                      h ← calculateHeight fuel' ns cid;
                      loop rest (if decide (maxH < h) then h else maxH)
                  end) (children n) 0;
        Return (maxH + 1)
  end.

Definition getHeight (t : TernaryMeshTree) : completion nat :=
  match rootID t with
  | None => Return 0
  | Some r => calculateHeight (S (length (nodes t))) (nodes t) r
  end.
End TernaryMeshTree.

(** ** The indexed methods at any number

    [verify], [update], [batchUpdate] and [generateProof] declare their
    index as a [number], and above it is an integer.  Here they are
    written for every number.  The range test
    [idx < 0 || idx >= this.leafCount] is false at NaN and at a fraction
    between [0] and [leafCount]; such an index goes on to the array
    accesses, where [this.nodes[idx]] is [undefined]. *)

Module AnyNumber.
Section AnyNumber.
Context `{HP : HashPrimitive}.

(** [idx < 0 || idx >= this.leafCount] *)
Definition outOfRange (idx : number) (n : Z) : bool :=
  number_lt idx 0 || number_ge idx n.

(** [generateProofInternal] starts by reading
    [this.nodes[leafIndex].parent]. *)
Definition generateProof (t : TernaryMeshTree) (leafIndex : number)
  : completion VerificationProof :=
  if outOfRange leafIndex (leafCount t)
  then Throw (TMTError INVALID_INDEX (Some leafIndex))
  else
    match leafIndex with
    | Int z => generateProofInternal t z
    | _ => Throw TypeError
    end.

(** The read of [this.nodes[leafIndex].hash] stands before the [try]
    block. *)
Definition verify (leafIndex : number) (data : bytes)
  : M TernaryMeshTree (bool * option exn) := λ t,
  if outOfRange leafIndex (leafCount t)
  then (t, Return (false, Some (TMTError INVALID_INDEX (Some leafIndex))))
  else
    match rootID t with
    | None => (t, Return (false, Some (TMTError UNINITIALIZED None)))
    | Some root =>
        let exp := computeHash data in
        match leafIndex with
        | Int z =>
            match nodeAt (nodes t) z with
            | None => (t, Throw TypeError)
            | Some n =>
                if negb (hashesEqual (hash n) exp)
                then (countVerification;; mret (false, None)) t
                else
                  match (proof ← generateProofInternal t z;
                         verifyProofInternal t proof exp root) with
                  | Return ok => (countVerification;; mret (ok, None)) t
                  | Throw e => (t, Return (false, Some e))
                  | Diverge => (t, Diverge)
                  end
            end
        | _ => (t, Throw TypeError)
        end
    end.

(** [this.leafData[idx] = data; this.nodes[idx].hash = h]: under an
    index that is no array index the first assignment changes no
    element, and the second throws. *)
Definition writeLeaf (idx : number) (data : bytes)
  : M TernaryMeshTree unit :=
  match arrayIndex idx with
  | Some i =>
      modify (set_leafData (λ ld, arraySet ld i data));;
      onNodes (setLeafHash i (computeHash data))
  | None => throw TypeError
  end.

Definition update (leafIndex : number) (newData : bytes)
  : M TernaryMeshTree unit :=
  n ← gets leafCount;
  if outOfRange leafIndex n
  then throw (TMTError INVALID_INDEX (Some leafIndex))
  else
    writeLeaf leafIndex newData;;
    cur ← lift (deref (arrayIndex leafIndex));
    onNodes (updateAncestors cur);;
    countUpdates 1.

Fixpoint validateIndices (entries : list (number * bytes)) (n : Z)
  : completion unit :=
  match entries with
  | [] => Return ()
  | (idx, _) :: rest =>
      if outOfRange idx n
      then Throw (TMTError INVALID_INDEX (Some idx))
      else validateIndices rest n
  end.

Fixpoint applyUpdates (entries : list (number * bytes))
  : M TernaryMeshTree unit :=
  match entries with
  | [] => mret ()
  | (idx, data) :: rest => writeLeaf idx data;; applyUpdates rest
  end.

(** [collectAncestors] starts by reading [this.nodes[idx].parent]. *)
Fixpoint collectAffected (entries : list (number * bytes))
    (ns : list InternalNode) (affected : list NodeID)
  : completion (list NodeID) :=
  match entries with
  | [] => Return affected
  | (idx, _) :: rest =>
      cur ← deref (arrayIndex idx);
      affected' ← collectAncestors (S (length ns)) ns cur affected;
      collectAffected rest ns affected'
  end.

Definition batchUpdate (updates : list (number * bytes))
  : M TernaryMeshTree unit :=
  n ← gets leafCount;
  lift (validateIndices updates n);;
  applyUpdates updates;;
  affected ← (λ t, (t, collectAffected updates (nodes t) []));
  fuel ← gets (λ t, S (length affected + length (nodes t)));
  onNodes (sweep fuel affected []);;
  countUpdates (length updates).
End AnyNumber.
End AnyNumber.

(** ** Serialization

    [JSON.stringify] and [JSON.parse] are the platform's; what the code
    relies on is that parsing the text of a blob gives the blob back.
    A text that does not parse makes [JSON.parse] throw. *)

Class JSONCodec := {
  JSONText : Type;
  JSON_stringify : SerializedBlob → JSONText;
  JSON_parse : JSONText → option SerializedBlob;
  JSON_parse_stringify : ∀ blob, JSON_parse (JSON_stringify blob) = Some blob
}.

(** [Array.from(u8)] lists the bytes as numbers; [new Uint8Array(numbers)]
    stores each number modulo 256. *)
Definition byteToNumber (b : byte) : Z := Z.of_N (Byte.to_N b).

Definition numberToByte (z : Z) : byte :=
  default x00%byte (Byte.of_N (Z.to_N (z mod 256))).

Section Serialization.
Context `{JC : JSONCodec}.

Fixpoint serializeNodes (ns : list InternalNode) (id : nat)
  : list SerializableNode :=
  match ns with
  | [] => []
  | n :: rest =>
      {| sn_id := id; sn_hash := map byteToNumber (hash n);
         sn_children := children n; sn_isLeaf := isLeaf n;
         sn_parent := parent n |} :: serializeNodes rest (S id)
  end.

(** [Array.from(leaf)] on a hole throws a [TypeError]. *)
Fixpoint copyLeaves (ld : list (option bytes)) : completion (list (list Z)) :=
  match ld with
  | [] => Return []
  | leaf :: rest =>
      l ← deref leaf;
      ls ← copyLeaves rest;
      Return (map byteToNumber l :: ls)
  end.

Definition serialize (t : TernaryMeshTree) : completion JSONText :=
  let snodes := serializeNodes (nodes t) 0 in
  cpLeaves ← copyLeaves (leafData t);
  Return (JSON_stringify
    {| sb_nodes := snodes; sb_leafData := cpLeaves;
       sb_rootID := rootID t; sb_leafCount := leafCount t |}).

Definition deserializeNode (n : SerializableNode) : InternalNode :=
  {| hash := map numberToByte (sn_hash n); children := sn_children n;
     isLeaf := sn_isLeaf n; parent := sn_parent n |}.

(** The tree [deserialize] makes of a parsed blob. *)
Definition fromBlob (blob : SerializedBlob) (c : Config) : TernaryMeshTree :=
  let tree := newTree c in
  set_leafCount (sb_leafCount blob)
    (set_rootID (sb_rootID blob)
      (set_leafData (λ _, map (λ leaf, Some (map numberToByte leaf))
                             (sb_leafData blob))
        (set_nodes (λ _, map deserializeNode (sb_nodes blob)) tree))).

Definition deserialize (data : JSONText) (c : Config)
  : completion TernaryMeshTree :=
  match JSON_parse data with
  | None => Throw (TMTError SERIALIZATION None)
  | Some blob => Return (fromBlob blob c)
  end.
End Serialization.

(** ** Self-test

    [selfTest] throws three [TMTError]s with messages of its own; they
    are its results [Some _] here, [None] is the run that resolves, and
    a [Throw] is an exception of one of the methods it calls.
    [new TextEncoder().encode(s)] of an ASCII string is its characters
    as bytes. *)

Inductive SelfTestError :=
| VERIFY_BEFORE_UPDATE_FAILED
| VERIFY_AFTER_UPDATE_FAILED
| ROOT_HASH_MISMATCH.

Definition encode (s : string) : bytes :=
  map (λ a : Ascii.ascii, default x00%byte (Byte.of_N (Ascii.N_of_ascii a)))
      (String.list_ascii_of_string s).

Section SelfTest.
Context `{HP : HashPrimitive} `{JC : JSONCodec}.

Definition selfTestRun : M TernaryMeshTree (option SelfTestError) :=
  build [encode "block1"; encode "block2"; encode "block3"];;
  r1 ← verify 0 (encode "block1");
  if bool_decide (r1.2 ≠ None) || negb r1.1
  then mret (Some VERIFY_BEFORE_UPDATE_FAILED)
  else
    update 0 (encode "new_block1");;
    r2 ← verify 0 (encode "new_block1");
    if bool_decide (r2.2 ≠ None) || negb r2.1
    then mret (Some VERIFY_AFTER_UPDATE_FAILED)
    else
      blob ← (λ t, (t, serialize t));
      t2 ← lift (deserialize blob defaultConfig);
      h1 ← (λ t, (t, getRootHash t));
      h2 ← lift (getRootHash t2);
      match h1.1, h2.1 with
      | Some a, Some b =>
          if hashesEqual a b then mret None
          else mret (Some ROOT_HASH_MISMATCH)
      | _, _ => mret (Some ROOT_HASH_MISMATCH)
      end.

Definition selfTest : completion (option SelfTestError) :=
  (selfTestRun (newTree defaultConfig)).2.
End SelfTest.

(** ** A stand-in primitive for running the code

    Any function with 32-byte digests instantiates [HashPrimitive]; this
    one folds the input into each of the 32 output bytes with a
    different seed.  It is only used to run the methods on examples. *)

Definition mixByte (seed : N) (data : bytes) : byte :=
  default x00%byte
    (Byte.of_N (fold_left (λ acc b, (acc * 31 + Byte.to_N b + 1) mod 65521)%N
                          data seed mod 256)%N).

Definition mixHash (data : bytes) : bytes :=
  map (λ j, mixByte (7 + 13 * N.of_nat j) data) (seq 0 32).

#[local] Program Instance mixPrimitive : HashPrimitive := {| blake3 := mixHash |}.
Next Obligation. intros. reflexivity. Qed.

(** The codec that keeps the blob as its own text. *)
#[local] Program Instance plainCodec : JSONCodec :=
  {| JSONText := SerializedBlob; JSON_stringify := λ b, b; JSON_parse := Some |}.
Next Obligation. reflexivity. Qed.

Definition block (s : string) : bytes :=
  map (λ a : Ascii.ascii, default x00%byte (Byte.of_N (Ascii.N_of_ascii a)))
      (String.list_ascii_of_string s).

(** * The vocabulary of the properties

    The predicates and functions the lemmas and theorems below are stated
    with. *)

Section vocabulary.
Context `{HP : HashPrimitive}.

(** The digest a parent gets from child digests of the right size. *)
Definition digest (hs : list Hash) : Hash := blake3 (concat hs).

Fixpoint commaFree (s : string) : bool :=
  match s with
  | EmptyString => true
  | String a s' => if decide (a = ","%char) then false else commaFree s'
  end.

Definition decimal (b : byte) : string := pretty (Byte.to_N b).

(** What follows the first element in a joined string. *)
Definition joinTail (l : list string) : string :=
  match l with
  | [] => ""
  | _ => "," +:+ String.concat "," l
  end.

Definition commaLed (t : string) : Prop := t = "" ∨ ∃ u, t = String "," u.

(** Every entry stores the digest of the content its key stands for. *)
Definition cache_ok (c : gmap string Hash) : Prop :=
  ∀ data h, c !! cacheKey data = Some h → h = computeHash data.

(** The number of padding leaves after [n] data leaves. *)
Definition padCount (n : nat) : nat := (3 - n mod 3) mod 3.

Definition pushPad (t : TernaryMeshTree) : TernaryMeshTree :=
  set_leafData (λ ld, ld ++ [Some []])
    (set_nodes (λ ns, ns ++ [leafNode (computeHash [])]) t).

(** The digests of the nodes [ids] name, in the order of [ids]. *)
Fixpoint nodeHashes (ns : list InternalNode) (ids : list NodeID)
  : list Hash :=
  match ids with
  | [] => []
  | id :: rest =>
      match ns !! id with
      | Some n => hash n :: nodeHashes ns rest
      | None => nodeHashes ns rest
      end
  end.

Definition newParent (chunk : list NodeID) (h : Hash) : InternalNode :=
  {| hash := h; children := chunk; isLeaf := false; parent := None |}.

(** The node array after the nodes of [chunk] got [pid] as parent. *)
Definition adopt (chunk : list NodeID) (pid : NodeID)
    (ns : list InternalNode) : list InternalNode :=
  imap (λ i n, if decide (i ∈ chunk) then set_parent (Some pid) n else n) ns.

Definition withParent (chunk : list NodeID) (h : Hash)
    (ns : list InternalNode) : list InternalNode :=
  adopt chunk (length ns) (ns ++ [newParent chunk h]).

(** [roots] are the nodes without a parent; every other node names a
    later node as its parent and is among that node's children. *)
Record shape_ok (ns : list InternalNode) (roots : list NodeID) : Prop := {
  roots_NoDup : NoDup roots;
  roots_valid : ∀ r, r ∈ roots → r < length ns;
  hash_size : ∀ i n, ns !! i = Some n → length (hash n) = 32;
  parent_ok : ∀ i n, ns !! i = Some n →
    match parent n with
    | None => i ∈ roots
    | Some p => i < p ∧ (i ∉ roots)
                ∧ ∃ pn, ns !! p = Some pn ∧ isLeaf pn = false
                        ∧ i ∈ children pn
    end;
  children_ok : ∀ i n c, ns !! i = Some n → isLeaf n = false →
    c ∈ children n → ∃ cn, ns !! c = Some cn ∧ parent cn = Some i
}.

(** Invariant (b) of the data model. *)
Definition hash_ok (ns : list InternalNode) : Prop :=
  ∀ i n, ns !! i = Some n → isLeaf n = false →
    hash n = digest (nodeHashes ns (children n)).

(** [ns'] keeps the nodes of [ns] up to their parent field, and what it
    adds are internal nodes. *)
Definition frame (ns ns' : list InternalNode) : Prop :=
  length ns ≤ length ns'
  ∧ (∀ i n, ns !! i = Some n →
       ∃ n', ns' !! i = Some n' ∧ hash n' = hash n
             ∧ children n' = children n ∧ isLeaf n' = isLeaf n)
  ∧ (∀ i n', length ns ≤ i → ns' !! i = Some n' → isLeaf n' = false).

(** The contents of the leaf layer: the blocks, then the padding. *)
Definition padded (blocks : list bytes) : list bytes :=
  blocks ++ replicate (padCount (length blocks)) [].

Definition leafLayer (blocks : list bytes) : list InternalNode :=
  leafNode ∘ computeHash <$> padded blocks.

Record built (blocks : list bytes) (t : TernaryMeshTree) : Prop := {
  built_leafCount : leafCount t = Z.of_nat (length blocks);
  built_root : ∃ root, rootID t = Some root ∧ shape_ok (nodes t) [root];
  built_hash : hash_ok (nodes t);
  built_leaves : frame (leafLayer blocks) (nodes t);
  built_data : leafData t = Some <$> padded blocks
}.

(** [preserves R m]: whatever its completion, [m] leaves a state related
    by [R] to the one it started in. *)
Definition preserves {S A} (R : relation S) (m : M S A) : Prop :=
  ∀ s, R s (m s).1.

(** What identifies a node apart from its digest. *)
Definition skeleton (n : InternalNode) : list NodeID * bool * option NodeID :=
  (children n, isLeaf n, parent n).

Definition same_skeleton (ns ns' : list InternalNode) : Prop :=
  skeleton <$> ns' = skeleton <$> ns.

(** The part of a tree that [update] and [batchUpdate] never write. *)
Definition same_shape (t t' : TernaryMeshTree) : Prop :=
  same_skeleton (nodes t) (nodes t')
  ∧ rootID t' = rootID t ∧ leafCount t' = leafCount t
  ∧ cfg t' = cfg t ∧ hashCache t' = hashCache t.

(** What the claim compares between the two trees. *)
Definition same_snapshot (t t' : TernaryMeshTree) : Prop :=
  nodes t' = nodes t ∧ leafData t' = leafData t
  ∧ rootID t' = rootID t ∧ leafCount t' = leafCount t
  ∧ getRootHash t' = getRootHash t.

(** A method keeps the entries the cache holds, and keeps it sound. *)
Definition cache_grows (t t' : TernaryMeshTree) : Prop :=
  hashCache t ⊆ hashCache t'
  ∧ (cache_ok (hashCache t) → cache_ok (hashCache t')).

(** The fields of the class are private: an instance comes from the
    constructor or from [deserialize], and changes through the public
    methods only. *)
Inductive reachable : TernaryMeshTree → Prop :=
| reach_new c : reachable (newTree c)
| reach_deserialize blob c : reachable (fromBlob blob c)
| reach_build blocks t : reachable t → reachable (build blocks t).1
| reach_verify i data t : reachable t → reachable (verify i data t).1
| reach_update i data t : reachable t → reachable (update i data t).1
| reach_batchUpdate updates t :
    reachable t → reachable (batchUpdate updates t).1.

(** What the claim says of [verify] on a tree built from [blocks]. *)
Definition verify_sound (blocks : list bytes) (t : TernaryMeshTree) : Prop :=
  ∀ (i : nat) (d : bytes), blocks !! i = Some d →
    (verify (Z.of_nat i) d t).2 = Return (true, None)
    ∧ ∀ d', computeHash d' ≠ computeHash d →
        (verify (Z.of_nat i) d' t).2 = Return (false, None).

(** What the claim says of the leaf layer of a tree built from
    [blocks]: [n] data leaves, [m] leaves in all. *)
Definition leaf_layer_ok (blocks : list bytes) (t : TernaryMeshTree) : Prop :=
  let n := length blocks in
  let m := length (leafData t) in
  m mod 3 = 0 ∧ n ≤ m < n + 3
  ∧ leafCount t = Z.of_nat n
  ∧ (∀ i, i < m → ∃ nd, nodes t !! i = Some nd ∧ isLeaf nd = true)
  ∧ (∀ i nd, m ≤ i → nodes t !! i = Some nd → isLeaf nd = false)
  ∧ (∀ i, n ≤ i < m →
       leafData t !! i = Some (Some [])
       ∧ ∃ nd, nodes t !! i = Some nd ∧ hash nd = computeHash []).

(** What the claim lists as unchanged. *)
Definition keeps_shape (t t' : TernaryMeshTree) : Prop :=
  length (nodes t') = length (nodes t)
  ∧ (∀ id n, nodes t !! id = Some n →
       ∃ n', nodes t' !! id = Some n' ∧ children n' = children n
             ∧ isLeaf n' = isLeaf n ∧ parent n' = parent n)
  ∧ rootID t' = rootID t ∧ leafCount t' = leafCount t.

(** A hash as [combineHashes] lays it out in its 32-byte slot when it
    is not longer than the slot. *)
Definition pad32 (h : Hash) : Hash := h ++ replicate (32 - length h) x00%byte.

(** The node array after one round of the bottom-up loop over
    [chunks]. *)
Definition addLayer (ns : list InternalNode) (chunks : list (list NodeID))
  : list InternalNode :=
  foldl (λ ns chunk, withParent chunk (digest (nodeHashes ns chunk)) ns)
    ns chunks.

(** The node array and the last layer the bottom-up loop ends with. *)
Fixpoint layers (fuel : nat) (current : list NodeID)
    (ns : list InternalNode) : list InternalNode * list NodeID :=
  match fuel with
  | 0 => (ns, current)
  | S fuel' =>
      if decide (1 < length current) then
        layers fuel' (seq (length ns) (length (chunkBy current 3)))
          (addLayer ns (chunkBy current 3))
      else (ns, current)
  end.

(** The node array and root [build] makes of [blocks]. *)
Definition builtNodes (blocks : list bytes)
  : list InternalNode * list NodeID :=
  layers (length (padded blocks)) (seq 0 (length (padded blocks)))
    (leafLayer blocks).

(** The two characters [hashToHex] writes for a byte. *)
Definition hexPair (b : byte) : string := padStart 2 "0" (toString16 b).

(** The loop of [calculateHeight] over the children, given the height
    the recursive call finds for each child. *)
Definition heightLoop (height : NodeID → completion nat)
  : list NodeID → nat → completion nat :=
  fix loop (cs : list NodeID) (maxH : nat) : completion nat :=
    match cs with
    | [] => Return maxH
    | cid :: rest =>
        h ← height cid;
        loop rest (if decide (maxH < h) then h else maxH)
    end.

(** [calculateHeight] finds height [k] at node [id], given stack for
    [k] nested calls. *)
Definition height_is (ns : list InternalNode) (id : NodeID) (k : nat) : Prop :=
  ∀ fuel, k ≤ fuel → calculateHeight fuel ns id = Return k.

(** Leaves have no children, internal nodes one to three. *)
Definition arity_ok (ns : list InternalNode) : Prop :=
  ∀ i n, ns !! i = Some n →
    if isLeaf n then children n = [] else 1 ≤ length (children n) ≤ 3.

(** The rounds of the bottom-up loop over a layer of [m] nodes. *)
Fixpoint rounds (fuel m : nat) : nat :=
  match fuel with
  | 0 => 0
  | S fuel' => if decide (1 < m) then S (rounds fuel' ((m + 2) / 3)) else 0
  end.

(** The structure [build] leaves behind: the root is the last node and
    the only one without a parent; parent and children fields agree;
    every digest has 32 bytes and every internal node holds the digest
    of its children's digests. *)
Definition tree_ok (t : TernaryMeshTree) (root : NodeID) : Prop :=
  rootID t = Some root
  ∧ length (nodes t) = S root
  ∧ ∀ i n, nodes t !! i = Some n →
      length (hash n) = 32
      ∧ (parent n = None ↔ i = root)
      ∧ (∀ p, parent n = Some p →
           i < p ∧ ∃ pn, nodes t !! p = Some pn ∧ isLeaf pn = false
                         ∧ i ∈ children pn)
      ∧ if isLeaf n then children n = []
        else 1 ≤ length (children n) ≤ 3
             ∧ hash n = digest (nodeHashes (nodes t) (children n))
             ∧ ∀ c, c ∈ children n →
                 ∃ cn, nodes t !! c = Some cn ∧ parent cn = Some i.

(** What two trees must share to answer every query alike. *)
Definition same_tree (t t' : TernaryMeshTree) : Prop :=
  nodes t' = nodes t ∧ leafData t' = leafData t
  ∧ rootID t' = rootID t ∧ leafCount t' = leafCount t.

(** The node array of a tree over three leaves and their root. *)
Definition oneLevel (h0 h1 h2 r : Hash) : list InternalNode :=
  [ {| hash := h0; children := []; isLeaf := true; parent := Some 3 |};
    {| hash := h1; children := []; isLeaf := true; parent := Some 3 |};
    {| hash := h2; children := []; isLeaf := true; parent := Some 3 |};
    {| hash := r; children := [0; 1; 2]; isLeaf := false; parent := None |} ].

(** The counters after [k] more updates, and after one more
    verification. *)
Definition countedUpdates (k : nat) (ms : Metrics) : Metrics :=
  {| totalVerifications := totalVerifications ms;
     totalUpdates := totalUpdates ms + k;
     memoryUsageBytes := memoryUsageBytes ms |}.

Definition countedVerification (ms : Metrics) : Metrics :=
  {| totalVerifications := S (totalVerifications ms);
     totalUpdates := totalUpdates ms;
     memoryUsageBytes := memoryUsageBytes ms |}.

Definition returns {A} (c : completion A) : bool :=
  match c with Return _ => true | _ => false end.

(** A step that leaves configuration and metrics alone. *)
Definition same_metrics (t t' : TernaryMeshTree) : Prop :=
  cfg t' = cfg t ∧ metrics t' = metrics t.

(** A method that counts [k] updates when it returns, and nothing
    otherwise. *)
Definition counts_updates {A} (k : nat) (m : M TernaryMeshTree A) : Prop :=
  ∀ t, cfg (m t).1 = cfg t
       ∧ metrics (m t).1
         = if returns (m t).2 && enableMetrics (cfg t)
           then countedUpdates k (metrics t) else metrics t.

(** The hash cache holds at most [maxCacheSize] entries, and none when
    caching is switched off. *)
Definition cache_within (t : TernaryMeshTree) : Prop :=
  (Z.of_nat (size (hashCache t)) ≤ Z.max 0 (maxCacheSize (cfg t)))%Z
  ∧ (enableCaching (cfg t) = false → hashCache t = ∅).

Definition keeps_cache_within (t t' : TernaryMeshTree) : Prop :=
  cfg t' = cfg t ∧ (cache_within t → cache_within t').

(** Every leaf of [ns] is in [ns'] as it is in [ns]. *)
Definition leaves_kept (ns ns' : list InternalNode) : Prop :=
  ∀ x nx, ns !! x = Some nx → isLeaf nx = true → ns' !! x = Some nx.

(** The blocks after the entries of an update mapping were written, in
    the mapping's order. *)
Definition applied (updates : list (Z * bytes)) (blocks : list bytes)
  : list bytes :=
  foldl (λ bs e, <[Z.to_nat e.1 := e.2]> bs) blocks updates.

(** A node that is in the array and is not a leaf. *)
Definition internal (ns : list InternalNode) (x : NodeID) : Prop :=
  isLeaf <$> ns !! x = Some false.

(** Below every internal node the children have one height, and the
    node is one higher. *)
Definition level_ok (ns : list InternalNode) : Prop :=
  ∀ i n, ns !! i = Some n → isLeaf n = false →
    ∃ k, height_is ns i (S k) ∧ Forall (λ c, height_is ns c k) (children n).

(** The node array of a tree over at most three blocks, with [r] at
    the root. *)
Definition oneLevelOf (blocks : list bytes) (r : Hash)
  : list InternalNode :=
  oneLevel (computeHash (default [] (blocks !! 0)))
    (computeHash (default [] (blocks !! 1)))
    (computeHash (default [] (blocks !! 2))) r.

(** The digest at the root of a tree over at most three blocks. *)
Definition oneLevelRoot (blocks : list bytes) : Hash :=
  digest [computeHash (default [] (blocks !! 0));
          computeHash (default [] (blocks !! 1));
          computeHash (default [] (blocks !! 2))].

End vocabulary.

Definition sampleBlocks : list bytes :=
  [block "a"; block "b"; block "c"; block "d"].

Definition sampleBuild (blocks : list bytes) : TernaryMeshTree :=
  (build (HP:=mixPrimitive) blocks (newTree defaultConfig)).1.

Definition sampleTree : TernaryMeshTree := sampleBuild sampleBlocks.

(** * Properties *)

(** ** Hash utilities *)

Section hash_facts.
  Context `{HP : HashPrimitive}.

Lemma bytesEqualFrom_refl a : bytesEqualFrom a a = true.
Proof.
  induction a as [|x a IH]; simpl; [done|].
  by rewrite (Byte.byte_dec_lb (eq_refl x)).
Qed.

Lemma bytesEqualFrom_eq a b :
  length a = length b → bytesEqualFrom a b = true → a = b.
Proof.
  revert b. induction a as [|x a IH]; intros [|y b] Hlen Heq; simpl in *;
    try done.
  destruct (Byte.eqb x y) eqn:Hxy; [|done].
  apply Byte.byte_dec_bl in Hxy. subst y.
  f_equal. apply IH; [lia|done].
Qed.

Lemma hashesEqual_true a b : hashesEqual a b = true ↔ a = b.
Proof.
  unfold hashesEqual. split.
  - case_decide; [done|]. intros. apply bytesEqualFrom_eq; [lia|done].
  - intros ->. case_decide; [done|]. apply bytesEqualFrom_refl.
Qed.

Lemma hashesEqual_false a b : hashesEqual a b = false ↔ a ≠ b.
Proof.
  rewrite <-hashesEqual_true. destruct (hashesEqual a b); naive_solver.
Qed.

Lemma computeHash_length data : length (computeHash data) = 32.
Proof. apply blake3_length. Qed.

Lemma digest_length hs : length (digest hs) = 32.
Proof. apply blake3_length. Qed.

Lemma combineLoop_full hs : ∀ i combined,
  Forall (λ h, length h = 32) hs →
  length combined = (i + length hs) * 32 →
  combineLoop (Some <$> hs) i combined
  = Return (take (i * 32) combined ++ concat hs).
Proof.
  induction hs as [|h hs IH]; intros i combined Hlen Hc; simpl.
  - rewrite app_nil_r, take_ge; [done|]. simpl in Hc. lia.
  - apply Forall_cons in Hlen as [Hh Hlen]. simpl in Hc.
    unfold typedArraySet. rewrite decide_True by lia. simpl.
    rewrite IH; [|done|].
    + f_equal.
      replace (S i * 32) with (length (take (i * 32) combined ++ h))
        by (rewrite length_app, length_take; lia).
      rewrite (assoc_L (++) _ h (drop _ _)), take_app_length.
      by rewrite <-(assoc_L (++)).
    + rewrite !length_app, length_take, length_drop. lia.
Qed.

Lemma combineHashes_full hs :
  Forall (λ h, length h = 32) hs →
  combineHashes (Some <$> hs) = Return (digest hs).
Proof.
  intros Hlen. unfold combineHashes.
  rewrite combineLoop_full; [done..|].
  by rewrite length_replicate, length_fmap.
Qed.

Lemma combineLoop_hole hs1 hs2 : ∀ i combined,
  Forall (λ h, length h = 32) hs1 →
  length combined = (i + length hs1 + S (length hs2)) * 32 →
  combineLoop ((Some <$> hs1) ++ None :: hs2) i combined = Throw TypeError.
Proof.
  induction hs1 as [|h hs1 IH]; intros i combined Hlen Hc; simpl; [done|].
  apply Forall_cons in Hlen as [Hh Hlen]. simpl in Hc.
  unfold typedArraySet. rewrite decide_True by lia. simpl.
  apply IH; [done|].
  rewrite !length_app, length_take, length_drop. lia.
Qed.
End hash_facts.

(** ** The hash cache *)

Section cache_facts.
  Context `{HP : HashPrimitive}.

Lemma decimal_commaFree b : commaFree (decimal b) = true.
Proof. destruct b; vm_compute; reflexivity. Qed.

Lemma decimal_nonempty b : decimal b ≠ "".
Proof. destruct b; vm_compute; discriminate. Qed.

Lemma decimal_inj b1 b2 : decimal b1 = decimal b2 → b1 = b2.
Proof.
  unfold decimal. intros H. apply pretty_N_inj in H.
  apply (f_equal Byte.of_N) in H. rewrite !Byte.of_to_N in H. congruence.
Qed.

Lemma append_cons a s t : String a s +:+ t = String a (s +:+ t).
Proof. reflexivity. Qed.

Lemma append_nil_l t : "" +:+ t = t.
Proof. reflexivity. Qed.

Lemma append_nil_r s : s +:+ "" = s.
Proof. induction s as [|a s IH]; [done|]. by rewrite append_cons, IH. Qed.

Lemma concat_cons x l : String.concat "," (x :: l) = x +:+ joinTail l.
Proof. destruct l; simpl; [|done]. by rewrite append_nil_r. Qed.

Lemma split_at_comma s1 : ∀ s2 t1 t2,
  commaFree s1 = true → commaFree s2 = true →
  commaLed t1 → commaLed t2 →
  s1 +:+ t1 = s2 +:+ t2 → s1 = s2 ∧ t1 = t2.
Proof.
  induction s1 as [|a s1 IH]; intros [|b s2] t1 t2 H1 H2 Ht1 Ht2 Heq;
    rewrite ?append_cons, ?append_nil_l in Heq; simpl in *.
  - done.
  - case_decide; [done|]. destruct Ht1 as [->|[u ->]]; [done|]. congruence.
  - case_decide; [done|]. destruct Ht2 as [->|[u ->]]; [done|]. congruence.
  - repeat case_decide; try done. injection Heq as -> Heq.
    destruct (IH _ _ _ H1 H2 Ht1 Ht2 Heq) as [-> ->]. done.
Qed.

Lemma joinTail_commaLed l : commaLed (joinTail l).
Proof. destruct l; [by left|right; eauto]. Qed.

Lemma cacheKey_cons b d :
  cacheKey (b :: d) = decimal b +:+ joinTail (map decimal d).
Proof. unfold cacheKey. apply (concat_cons (decimal b)). Qed.

Lemma cacheKey_inj d1 : ∀ d2, cacheKey d1 = cacheKey d2 → d1 = d2.
Proof.
  induction d1 as [|b1 d1 IH]; intros [|b2 d2] Heq; [done|..];
    rewrite ?cacheKey_cons in Heq.
  - pose proof (decimal_nonempty b2).
    destruct (decimal b2); [done|]. by rewrite append_cons in Heq.
  - pose proof (decimal_nonempty b1).
    destruct (decimal b1); [done|]. by rewrite append_cons in Heq.
  - destruct (split_at_comma _ _ _ _ (decimal_commaFree b1)
                (decimal_commaFree b2) (joinTail_commaLed _)
                (joinTail_commaLed _) Heq) as [Hb Ht].
    apply decimal_inj in Hb as ->. f_equal.
    destruct d1 as [|c1 d1], d2 as [|c2 d2]; try done.
    apply IH. unfold joinTail in Ht.
    change (map decimal (?c :: ?d)) with (decimal c :: map decimal d) in Ht.
    cbv iota in Ht. by injection Ht.
Qed.

Lemma cache_ok_empty : cache_ok ∅.
Proof. intros data h. by rewrite lookup_empty. Qed.

Lemma cache_ok_insert c data :
  cache_ok c → cache_ok (<[cacheKey data := computeHash data]> c).
Proof.
  intros Hc data' h. rewrite lookup_insert. case_decide as Hk.
  - apply cacheKey_inj in Hk as ->. congruence.
  - apply Hc.
Qed.

Lemma set_hashCache_id t : set_hashCache (λ _, hashCache t) t = t.
Proof. by destruct t. Qed.

Lemma getCachedHash_spec data t :
  cache_ok (hashCache t) →
  ∃ c, getCachedHash data t
       = (set_hashCache (λ _, c) t, Return (computeHash data))
     ∧ cache_ok c ∧ hashCache t ⊆ c.
Proof.
  intros Hc. unfold getCachedHash.
  destruct (enableCaching (cfg t)).
  - destruct (hashCache t !! cacheKey data) as [h|] eqn:Hk.
    + exists (hashCache t). rewrite set_hashCache_id.
      by rewrite (Hc _ _ Hk).
    + case_decide.
      * exists (<[cacheKey data := computeHash data]> (hashCache t)).
        split_and!; [done|by apply cache_ok_insert|].
        by apply insert_subseteq.
      * exists (hashCache t). by rewrite set_hashCache_id.
  - exists (hashCache t). by rewrite set_hashCache_id.
Qed.
End cache_facts.

(** ** The leaf layer *)

#[local] Arguments Nat.modulo : simpl never.

Section leaf_layer.
  Context `{HP : HashPrimitive}.

Lemma buildLeaves_spec blocks : ∀ i current t,
  cache_ok (hashCache t) →
  ∃ c, buildLeaves blocks i current t
       = ({| nodes := nodes t ++ (leafNode ∘ computeHash <$> blocks);
             leafData := leafData t ++ (Some <$> blocks);
             rootID := rootID t; leafCount := leafCount t; cfg := cfg t;
             metrics := metrics t; hashCache := c |},
          Return (current ++ seq i (length blocks)))
     ∧ cache_ok c ∧ hashCache t ⊆ c.
Proof.
  induction blocks as [|d blocks IH]; intros i current t Hc.
  - exists (hashCache t). simpl. rewrite !app_nil_r.
    split_and!; [by destruct t|done..].
  - destruct (getCachedHash_spec d t Hc) as (c1 & Hg & Hc1 & Hsub1).
    simpl. unfold mbind at 1, M_bind at 1. rewrite Hg.
    unfold mbind at 1, M_bind at 1, modify at 1.
    unfold mbind at 1, M_bind at 1, modify at 1.
    edestruct (IH (S i) (current ++ [i])) as (c & -> & Hc2 & Hsub2);
      [exact Hc1|].
    exists c. simpl. rewrite <-!(assoc_L (++)). simpl.
    split_and!; [done..|]. by etrans.
Qed.

Lemma mod3_cases n :
  (n mod 3 = 0 ∧ S n mod 3 = 1 ∧ S (S n) mod 3 = 2)
  ∨ (n mod 3 = 1 ∧ S n mod 3 = 2 ∧ S (S n) mod 3 = 0)
  ∨ (n mod 3 = 2 ∧ S n mod 3 = 0).
Proof.
  pose proof (Nat.div_mod_eq n 3). pose proof (Nat.div_mod_eq (S n) 3).
  pose proof (Nat.div_mod_eq (S (S n)) 3).
  pose proof (Nat.mod_upper_bound n 3). pose proof (Nat.mod_upper_bound (S n) 3).
  pose proof (Nat.mod_upper_bound (S (S n)) 3). lia.
Qed.

Lemma padLeaves_step fuel current t :
  padLeaves (S fuel) current t
  = if decide (length current mod 3 ≠ 0)
    then padLeaves fuel (current ++ [length (nodes t)]) (pushPad t)
    else (t, Return current).
Proof.
  cbn [padLeaves]. case_decide; [|done].
  unfold mbind, M_bind, modify, gets, pushPad. cbn [nodes set_leafData set_nodes].
  rewrite length_app. cbn [length]. do 3 f_equal. lia.
Qed.

Lemma padLeaves_spec current t :
  let k := padCount (length current) in
  padLeaves 3 current t
  = (set_leafData (λ ld, ld ++ replicate k (Some []))
       (set_nodes (λ ns, ns ++ replicate k (leafNode (computeHash []))) t),
     Return (current ++ seq (length (nodes t)) k)).
Proof.
  unfold padCount.
  destruct (mod3_cases (length current)) as [(H0&_)|[(H0&H1&H2)|(H0&H1)]];
    rewrite H0, padLeaves_step.
  - rewrite decide_False by lia. destruct t.
    unfold set_leafData, set_nodes. simpl. by rewrite !app_nil_r.
  - rewrite decide_True by lia.
    rewrite padLeaves_step, length_app, Nat.add_1_r, decide_True by lia.
    rewrite padLeaves_step, !length_app, !Nat.add_1_r, decide_False by lia.
    destruct t. unfold pushPad, set_leafData, set_nodes. simpl.
    rewrite <-!(assoc_L (++)), length_app, Nat.add_1_r. done.
  - rewrite decide_True by lia.
    rewrite padLeaves_step, length_app, Nat.add_1_r, decide_False by lia.
    by destruct t.
Qed.
End leaf_layer.

(** ** Appending a parent *)

Section append_parent.
  Context `{HP : HashPrimitive}.

Lemma nodeHashes_cons ns id ids n :
  ns !! id = Some n → nodeHashes ns (id :: ids) = hash n :: nodeHashes ns ids.
Proof. intros H. simpl. by rewrite H. Qed.

Lemma nodeHashes_ext ns ns' ids :
  (∀ id, id ∈ ids → hash <$> ns' !! id = hash <$> ns !! id) →
  nodeHashes ns' ids = nodeHashes ns ids.
Proof.
  intros H. induction ids as [|id ids IH]; [done|].
  simpl. specialize (H id) as Hid. rewrite IH by (intros; apply H; by right).
  specialize (Hid ltac:(left)).
  destruct (ns' !! id), (ns !! id); simplify_eq/=; congruence.
Qed.

Lemma nodeHashes_size ns ids :
  (∀ i n, ns !! i = Some n → length (hash n) = 32) →
  Forall (λ h, length h = 32) (nodeHashes ns ids).
Proof.
  intros Hsz. induction ids as [|id ids IH]; simpl; [done|].
  destruct (ns !! id) as [n|] eqn:Hn; simpl; [|done].
  constructor; [by eapply Hsz|done].
Qed.

Lemma childHashesOf_valid ns ids :
  Forall (λ id, id < length ns) ids →
  childHashesOf ns ids = Return (Some <$> nodeHashes ns ids).
Proof.
  induction 1 as [|id ids Hid _ IH]; [done|].
  apply lookup_lt_is_Some in Hid as [n Hn].
  simpl. rewrite Hn. simpl. by rewrite IH.
Qed.

Lemma hashChunk_valid ns ids :
  Forall (λ id, id < length ns) ids →
  (∀ i n, ns !! i = Some n → length (hash n) = 32) →
  hashChunk ns ids = Return (digest (nodeHashes ns ids)).
Proof.
  intros Hv Hsz. unfold hashChunk. rewrite childHashesOf_valid by done.
  simpl. by apply combineHashes_full, nodeHashes_size.
Qed.

Lemma setParents_spec chunk pid : ∀ ns,
  Forall (λ c, c < length ns) chunk →
  setParents chunk pid ns = (adopt chunk pid ns, Return ()).
Proof.
  induction chunk as [|c chunk IH]; intros ns Hv.
  - simpl. unfold mret, M_ret, adopt. f_equal.
    apply list_eq. intros i. rewrite list_lookup_imap.
    destruct (ns !! i); [|done]. cbn [fmap option_fmap option_map].
    by destruct (decide (i ∈ [])) as [?%elem_of_nil|].
  - apply Forall_cons in Hv as [Hc Hv].
    apply lookup_lt_is_Some in Hc as [n Hn].
    cbn [setParents]. unfold mbind at 1, M_bind at 1. rewrite Hn. simpl.
    unfold mbind at 1, M_bind at 1, modify.
    rewrite IH by (by rewrite length_insert).
    f_equal. apply list_eq. intros i. unfold adopt.
    rewrite !list_lookup_imap.
    destruct (decide (i = c)) as [->|Hne].
    + rewrite list_lookup_insert_eq by (by eapply lookup_lt_Some).
      rewrite Hn. simpl. rewrite (decide_True (P:=c ∈ c :: chunk)) by left.
      by case_decide.
    + rewrite list_lookup_insert_ne by done.
      destruct (ns !! i); simpl; [|done].
      f_equal. destruct (decide (i ∈ chunk)) as [Hin|Hnin].
      * by rewrite decide_True by (by right).
      * rewrite decide_False; [done|]. by intros [?|?]%elem_of_cons.
Qed.

Lemma appendParent_spec chunk h ns :
  Forall (λ c, c < length ns) chunk →
  appendParent chunk h ns = (withParent chunk h ns, Return (length ns)).
Proof.
  intros Hv. unfold appendParent.
  unfold mbind at 1, M_bind at 1, gets.
  unfold mbind at 1, M_bind at 1, modify.
  unfold mbind at 1, M_bind at 1.
  rewrite setParents_spec; [done|].
  eapply Forall_impl; [exact Hv|]. intros c Hc. simpl in *.
  rewrite length_app. simpl. lia.
Qed.

Lemma withParent_length chunk h ns :
  length (withParent chunk h ns) = S (length ns).
Proof.
  unfold withParent, adopt. rewrite length_imap, length_app. simpl. lia.
Qed.

Lemma withParent_lookup_old chunk h ns i :
  i < length ns →
  withParent chunk h ns !! i
  = (λ n, if decide (i ∈ chunk) then set_parent (Some (length ns)) n else n)
      <$> ns !! i.
Proof.
  intros Hi. unfold withParent, adopt.
  by rewrite list_lookup_imap, lookup_app_l.
Qed.

Lemma withParent_lookup_new chunk h ns :
  Forall (λ c, c < length ns) chunk →
  withParent chunk h ns !! length ns = Some (newParent chunk h).
Proof.
  intros Hv. unfold withParent, adopt.
  rewrite list_lookup_imap, lookup_app_r, Nat.sub_diag by done. simpl.
  rewrite decide_False; [done|].
  intros Hin. eapply Forall_forall in Hv; [|exact Hin]. simpl in Hv. lia.
Qed.

Lemma withParent_lookup_inv chunk h ns i n' :
  Forall (λ c, c < length ns) chunk →
  withParent chunk h ns !! i = Some n' →
  (i = length ns ∧ n' = newParent chunk h)
  ∨ (i < length ns ∧ ∃ n, ns !! i = Some n
      ∧ n' = if decide (i ∈ chunk) then set_parent (Some (length ns)) n else n).
Proof.
  intros Hv Hi. pose proof (lookup_lt_Some _ _ _ Hi) as Hlt.
  rewrite withParent_length in Hlt.
  destruct (decide (i = length ns)) as [->|Hne].
  - left. rewrite withParent_lookup_new in Hi by done. naive_solver.
  - right. split; [lia|].
    rewrite withParent_lookup_old in Hi by lia.
    destruct (ns !! i) as [n|]; simplify_eq/=. eauto.
Qed.

Lemma withParent_hash chunk h ns i :
  i < length ns →
  hash <$> withParent chunk h ns !! i = hash <$> ns !! i.
Proof.
  intros Hi. rewrite withParent_lookup_old by done.
  destruct (ns !! i); simpl; [|done]. by case_decide.
Qed.
End append_parent.

(** ** The shape of the node array *)

Section shape.
  Context `{HP : HashPrimitive}.

Lemma shape_ok_perm ns roots roots' :
  roots ≡ₚ roots' → shape_ok ns roots → shape_ok ns roots'.
Proof.
  intros Hp [H1 H2 H3 H4 H5]. split; [by rewrite <-Hp| |done| |done].
  - intros r. rewrite <-Hp. apply H2.
  - intros i n Hn. specialize (H4 i n Hn).
    destruct (parent n); [|by rewrite <-Hp]. by rewrite <-Hp.
Qed.

Lemma shape_ok_root_parent ns roots r n :
  shape_ok ns roots → r ∈ roots → ns !! r = Some n → parent n = None.
Proof.
  intros Hs Hr Hn. pose proof (parent_ok _ _ Hs r n Hn) as Hp.
  destruct (parent n); [|done]. by destruct Hp as (_ & Hnr & _).
Qed.

Lemma shape_ok_children_valid ns roots i n :
  shape_ok ns roots → ns !! i = Some n → isLeaf n = false →
  Forall (λ c, c < length ns) (children n).
Proof.
  intros Hs Hn Hl. apply Forall_forall. intros c Hc.
  destruct (children_ok _ _ Hs i n c Hn Hl Hc) as (cn & Hcn & _).
  by eapply lookup_lt_Some.
Qed.

Lemma withParent_shape ns chunk others :
  shape_ok ns (chunk ++ others) →
  shape_ok (withParent chunk (digest (nodeHashes ns chunk)) ns)
           (others ++ [length ns]).
Proof.
  intros Hs.
  assert (Forall (λ c, c < length ns) chunk) as Hv.
  { apply Forall_forall. intros c Hc. apply (roots_valid _ _ Hs).
    apply elem_of_app. by left. }
  pose proof (roots_NoDup _ _ Hs) as Hnd.
  apply NoDup_app in Hnd as (Hnd1 & Hdisj & Hnd2).
  split.
  - apply NoDup_app. split_and!; [done| |apply NoDup_singleton].
    intros r Hr ->%list_elem_of_singleton.
    assert (length ns < length ns); [|lia].
    apply (roots_valid _ _ Hs). apply elem_of_app. by right.
  - intros r [Hr| ->%list_elem_of_singleton]%elem_of_app;
      rewrite withParent_length; [|lia].
    assert (r < length ns); [|lia].
    apply (roots_valid _ _ Hs). apply elem_of_app. by right.
  - intros i n' Hi.
    destruct (withParent_lookup_inv _ _ _ _ _ Hv Hi)
      as [[-> ->]|(Hlt & n & Hn & ->)].
    + apply digest_length.
    + case_decide; simpl; by eapply (hash_size _ _ Hs).
  - intros i n' Hi.
    destruct (withParent_lookup_inv _ _ _ _ _ Hv Hi)
      as [[-> ->]|(Hlt & n & Hn & ->)].
    + simpl. apply elem_of_app. right. by left.
    + pose proof (parent_ok _ _ Hs i n Hn) as Hp.
      case_decide as Hin; simpl.
      * split_and!; [done| |].
        -- intros [Hr| ->%list_elem_of_singleton]%elem_of_app; [|lia].
           by eapply Hdisj.
        -- exists (newParent chunk (digest (nodeHashes ns chunk))).
           split_and!; [by apply withParent_lookup_new|done..].
      * destruct (parent n) as [p|].
        -- destruct Hp as (Hip & Hnr & pn & Hpn & Hpl & Hic).
           split_and!; [done| |].
           ++ intros [Hr| ->%list_elem_of_singleton]%elem_of_app; [|lia].
              apply Hnr, elem_of_app. by right.
           ++ pose proof (lookup_lt_Some _ _ _ Hpn) as Hplt.
              rewrite withParent_lookup_old, Hpn by done. simpl.
              eexists. split; [done|]. by case_decide.
        -- apply elem_of_app in Hp as [Hp|Hp]; [done|].
           apply elem_of_app. by left.
  - intros i n' c Hi Hl Hc.
    destruct (withParent_lookup_inv _ _ _ _ _ Hv Hi)
      as [[-> ->]|(Hlt & n & Hn & ->)].
    + simpl in Hc.
      eapply Forall_forall in Hv as Hclt; [|exact Hc]. simpl in Hclt.
      rewrite withParent_lookup_old by done.
      apply lookup_lt_is_Some in Hclt as [cn Hcn]. rewrite Hcn. simpl.
      rewrite decide_True by done. eauto.
    + assert (isLeaf n = false ∧ c ∈ children n) as [Hl' Hc'].
      { by case_decide. }
      destruct (children_ok _ _ Hs i n c Hn Hl' Hc') as (cn & Hcn & Hcp).
      pose proof (lookup_lt_Some _ _ _ Hcn) as Hclt.
      rewrite withParent_lookup_old, Hcn by done. simpl.
      rewrite decide_False; [eauto|].
      intros Hcin. pose proof (parent_ok _ _ Hs c cn Hcn) as Hp.
      rewrite Hcp in Hp. destruct Hp as (_ & Hnr & _).
      apply Hnr, elem_of_app. by left.
Qed.

Lemma withParent_hash_ok ns chunk others :
  shape_ok ns (chunk ++ others) → hash_ok ns →
  hash_ok (withParent chunk (digest (nodeHashes ns chunk)) ns).
Proof.
  intros Hs Hh i n' Hi Hl.
  assert (Forall (λ c, c < length ns) chunk) as Hv.
  { apply Forall_forall. intros c Hc. apply (roots_valid _ _ Hs).
    apply elem_of_app. by left. }
  destruct (withParent_lookup_inv _ _ _ _ _ Hv Hi)
      as [[-> ->]|(Hlt & n & Hn & ->)].
  - simpl. f_equal. symmetry. apply nodeHashes_ext.
    intros c Hc. apply withParent_hash.
    eapply Forall_forall in Hv; [|exact Hc]. done.
  - assert (isLeaf n = false) as Hl' by (by case_decide).
    transitivity (hash n); [by case_decide|].
    rewrite (Hh i n Hn Hl'). f_equal.
    transitivity (nodeHashes ns (children
      (if decide (i ∈ chunk) then set_parent (Some (length ns)) n else n)));
      [by case_decide|].
    symmetry. apply nodeHashes_ext. intros c Hc. apply withParent_hash.
    assert (c ∈ children n) as Hc' by (by case_decide).
    destruct (children_ok _ _ Hs i n c Hn Hl' Hc') as (cn & Hcn & _).
    by eapply lookup_lt_Some.
Qed.
End shape.

(** ** Reducing a layer *)

Section layers.
  Context `{HP : HashPrimitive}.

Lemma chunkLoop_concat {T} k fuel : ∀ arr : list T,
  0 < k → length arr ≤ fuel → concat (chunkLoop fuel k arr) = arr.
Proof.
  induction fuel as [|fuel IH]; intros arr Hk Hlen.
  - destruct arr; [done|]. simpl in Hlen. lia.
  - destruct arr as [|x arr]; [done|].
    cbn [chunkLoop concat]. rewrite IH; [apply take_drop|done|].
    rewrite length_drop. simpl in *. lia.
Qed.

Lemma chunkLoop_nonempty {T} k fuel : ∀ arr : list T,
  0 < k → Forall (λ c, c ≠ []) (chunkLoop fuel k arr).
Proof.
  induction fuel as [|fuel IH]; intros arr Hk; [constructor|].
  destruct arr as [|x arr]; [constructor|].
  cbn [chunkLoop]. constructor; [|by apply IH].
  destruct k; [lia|done].
Qed.

Lemma chunkLoop_count {T} fuel : ∀ arr : list T,
  length (chunkLoop fuel 3 arr) * 3 ≤ length arr + 2.
Proof.
  induction fuel as [|fuel IH]; intros arr; [simpl; lia|].
  destruct arr as [|x arr]; [simpl; lia|].
  cbn [chunkLoop length]. specialize (IH (drop 3 (x :: arr))).
  rewrite length_drop in IH. simpl in *. lia.
Qed.

Lemma chunkBy_concat (arr : list NodeID) : concat (chunkBy arr 3) = arr.
Proof. unfold chunkBy. simpl. by apply chunkLoop_concat; [lia|]. Qed.

Lemma chunkBy_count (arr : list NodeID) :
  1 < length arr → length (chunkBy arr 3) < length arr.
Proof.
  intros Hlen. unfold chunkBy. simpl.
  pose proof (chunkLoop_count (length arr) arr). lia.
Qed.

Lemma chunkBy_nil_iff (arr : list NodeID) : chunkBy arr 3 = [] → arr = [].
Proof. intros H. rewrite <-(chunkBy_concat arr), H. done. Qed.

Lemma frame_refl ns : frame ns ns.
Proof.
  split_and!; [done|eauto|].
  intros i n' Hi Hn. apply lookup_lt_Some in Hn. lia.
Qed.

Lemma frame_trans ns1 ns2 ns3 : frame ns1 ns2 → frame ns2 ns3 → frame ns1 ns3.
Proof.
  intros (Hl1 & Ho1 & Hn1) (Hl2 & Ho2 & Hn2). split_and!; [lia| |].
  - intros i n Hi. destruct (Ho1 i n Hi) as (n2 & Hi2 & ? & ? & ?).
    destruct (Ho2 i n2 Hi2) as (n3 & Hi3 & ? & ? & ?).
    exists n3. split_and!; congruence.
  - intros i n3 Hi Hn3.
    destruct (decide (i < length ns2)) as [Hlt|Hge].
    + apply lookup_lt_is_Some in Hlt as [n2 Hi2].
      destruct (Ho2 i n2 Hi2) as (n3' & Hi3 & _ & _ & Hleaf).
      assert (n3' = n3) as -> by congruence.
      rewrite Hleaf. by eapply Hn1.
    + eapply Hn2; [|done]. lia.
Qed.

Lemma withParent_frame chunk h ns :
  Forall (λ c, c < length ns) chunk → frame ns (withParent chunk h ns).
Proof.
  intros Hv. split_and!.
  - rewrite withParent_length. lia.
  - intros i n Hi. pose proof (lookup_lt_Some _ _ _ Hi).
    rewrite withParent_lookup_old, Hi by done. simpl.
    eexists. split; [done|]. by case_decide.
  - intros i n' Hi Hn'.
    destruct (withParent_lookup_inv _ _ _ _ _ Hv Hn')
      as [[-> ->]|(Hlt & _)]; [done|lia].
Qed.

Lemma serialLayer_spec chunks : ∀ next ns,
  shape_ok ns (concat chunks ++ next) → hash_ok ns →
  ∃ ns', serialLayer chunks next ns
         = (ns', Return (next ++ seq (length ns) (length chunks)))
       ∧ shape_ok ns' (next ++ seq (length ns) (length chunks))
       ∧ hash_ok ns' ∧ frame ns ns'.
Proof.
  induction chunks as [|chunk chunks IH]; intros next ns Hs Hh.
  - exists ns. simpl in *. rewrite app_nil_r.
    split_and!; [done..|apply frame_refl].
  - simpl in Hs. rewrite <-(assoc_L (++)) in Hs.
    assert (Forall (λ c, c < length ns) chunk) as Hv.
    { apply Forall_forall. intros c Hc. apply (roots_valid _ _ Hs).
      apply elem_of_app. by left. }
    pose proof (withParent_shape _ _ _ Hs) as Hs'.
    pose proof (withParent_hash_ok _ _ _ Hs Hh) as Hh'.
    rewrite <-(assoc_L (++)) in Hs'.
    destruct (IH _ _ Hs' Hh') as (ns' & Hrun & Hs'' & Hh'' & Hf).
    rewrite withParent_length in Hrun, Hs''.
    exists ns'. cbn [serialLayer].
    unfold mbind at 1, M_bind at 1.
    rewrite hashChunk_valid by (done || apply (hash_size _ _ Hs)).
    unfold mbind at 1, M_bind at 1. rewrite appendParent_spec by done.
    rewrite Hrun. cbn [length seq]. rewrite <-(assoc_L (++)).
    split_and!; [done|by rewrite <-(assoc_L (++)) in Hs''|done|].
    eapply frame_trans; [|exact Hf]. by apply withParent_frame.
Qed.

Lemma precompute_spec ns chunks :
  (∀ c, c ∈ concat chunks → c < length ns) →
  (∀ i n, ns !! i = Some n → length (hash n) = 32) →
  precompute ns chunks
  = Return ((λ c, (c, digest (nodeHashes ns c))) <$> chunks).
Proof.
  intros Hv Hsz. induction chunks as [|chunk chunks IH]; [done|].
  cbn [precompute]. rewrite hashChunk_valid; [|apply Forall_forall|done].
  - simpl. rewrite IH; [done|].
    intros c Hc. apply Hv. simpl. apply elem_of_app. by right.
  - intros c Hc. apply Hv. simpl. apply elem_of_app. by left.
Qed.

Lemma appendPrecomputed_serial ns0 chunks : ∀ next ns,
  shape_ok ns (concat chunks ++ next) → hash_ok ns →
  (∀ c, c ∈ concat chunks → hash <$> ns !! c = hash <$> ns0 !! c) →
  appendPrecomputed ((λ c, (c, digest (nodeHashes ns0 c))) <$> chunks) next ns
  = serialLayer chunks next ns.
Proof.
  induction chunks as [|chunk chunks IH]; intros next ns Hs Hh Heq; [done|].
  simpl in Hs. rewrite <-(assoc_L (++)) in Hs.
  assert (Forall (λ c, c < length ns) chunk) as Hv.
  { apply Forall_forall. intros c Hc. apply (roots_valid _ _ Hs).
    apply elem_of_app. by left. }
  assert (nodeHashes ns0 chunk = nodeHashes ns chunk) as Hch.
  { symmetry. apply nodeHashes_ext. intros c Hc. apply Heq. simpl.
    apply elem_of_app. by left. }
  cbn [fmap list_fmap appendPrecomputed serialLayer fst snd].
  unfold mbind at 1, M_bind at 1. rewrite Hch, appendParent_spec by done.
  unfold mbind at 1, M_bind at 1.
  rewrite hashChunk_valid by (done || apply (hash_size _ _ Hs)).
  unfold mbind at 1, M_bind at 1. rewrite appendParent_spec by done.
  pose proof (withParent_shape _ _ _ Hs) as Hs'.
  rewrite <-(assoc_L (++)) in Hs'.
  rewrite <-Hch. apply IH.
  - by rewrite Hch.
  - rewrite Hch. by eapply withParent_hash_ok.
  - intros c Hc. rewrite withParent_hash.
    + apply Heq. simpl. apply elem_of_app. by right.
    + apply (roots_valid _ _ Hs). apply elem_of_app. right.
      apply elem_of_app. by left.
Qed.

Lemma parallelLayer_serial current ns :
  shape_ok ns current → hash_ok ns →
  parallelLayer current ns = serialLayer (chunkBy current 3) [] ns.
Proof.
  intros Hs Hh. unfold parallelLayer.
  unfold mbind at 1, M_bind at 1.
  rewrite precompute_spec; [| |apply (hash_size _ _ Hs)].
  - apply appendPrecomputed_serial; [|done..].
    by rewrite chunkBy_concat, app_nil_r.
  - rewrite chunkBy_concat. apply (roots_valid _ _ Hs).
Qed.

Lemma bottomUp_spec c fuel : ∀ current ns,
  length current ≤ fuel → current ≠ [] →
  shape_ok ns current → hash_ok ns →
  ∃ ns' root, bottomUp fuel c current ns = (ns', Return [root])
              ∧ shape_ok ns' [root] ∧ hash_ok ns' ∧ frame ns ns'.
Proof.
  induction fuel as [|fuel IH]; intros current ns Hfuel Hne Hs Hh.
  { destruct current; [done|]. simpl in Hfuel. lia. }
  cbn [bottomUp]. case_decide as Hlen.
  - pose proof Hs as Hs0.
    rewrite <-(chunkBy_concat current), <-(app_nil_r (concat _)) in Hs0.
    destruct (serialLayer_spec _ _ _ Hs0 Hh) as (ns1 & Hrun & Hs1 & Hh1 & Hf1).
    simpl in Hrun, Hs1.
    assert ((if decide ((0 < parallelThreshold c)%Z
                        ∧ (parallelThreshold c ≤ Z.of_nat (length current))%Z)
             then parallelLayer current
             else serialLayer (chunkBy current 3) []) ns
            = (ns1, Return (seq (length ns) (length (chunkBy current 3)))))
      as Hlayer.
    { case_decide; [|done]. by rewrite parallelLayer_serial. }
    unfold mbind at 1, M_bind at 1. rewrite Hlayer.
    edestruct (IH (seq (length ns) (length (chunkBy current 3))) ns1)
      as (ns' & root & Hrun' & Hs' & Hh' & Hf'); [| |done|done|].
    + rewrite length_seq. pose proof (chunkBy_count current Hlen). lia.
    + destruct (chunkBy current 3) eqn:E; [|done].
      by apply chunkBy_nil_iff in E.
    + exists ns', root. split_and!; [done..|]. by eapply frame_trans.
  - destruct current as [|root [|]]; [done| |simpl in Hlen; lia].
    exists ns, root. split_and!; [done..|]. apply frame_refl.
Qed.
End layers.

(** ** What [build] leaves behind *)

Section build_facts.
  Context `{HP : HashPrimitive}.

Lemma leafLayer_shape blocks :
  shape_ok (leafLayer blocks) (seq 0 (length (padded blocks))).
Proof.
  unfold leafLayer. split.
  - apply NoDup_seq.
  - intros r Hr%elem_of_seq. rewrite length_fmap. lia.
  - intros i n Hi. apply list_lookup_fmap_Some in Hi as (d & -> & _).
    apply computeHash_length.
  - intros i n Hi. pose proof (lookup_lt_Some _ _ _ Hi) as Hlt.
    rewrite length_fmap in Hlt.
    apply list_lookup_fmap_Some in Hi as (d & -> & _). simpl.
    apply elem_of_seq. lia.
  - intros i n c Hi Hl. apply list_lookup_fmap_Some in Hi as (d & -> & _).
    done.
Qed.

Lemma leafLayer_hash_ok blocks : hash_ok (leafLayer blocks).
Proof.
  intros i n Hi Hl. apply list_lookup_fmap_Some in Hi as (d & -> & _). done.
Qed.

Lemma sumLengths_full (l : list bytes) : ∀ total,
  ∃ m, sumLengths (Some <$> l) total = Return m.
Proof.
  induction l as [|d l IH]; intros total; simpl; [eauto|]. apply IH.
Qed.

Lemma padded_length_mod blocks : length (padded blocks) mod 3 = 0.
Proof.
  unfold padded, padCount. rewrite length_app, length_replicate.
  destruct (mod3_cases (length blocks)) as [(H0&_)|[(H0&H1&H2)|(H0&H1)]];
    rewrite H0.
  - change ((3 - 0) mod 3) with 0. by rewrite Nat.add_0_r.
  - change ((3 - 1) mod 3) with 2.
    by replace (length blocks + 2) with (S (S (length blocks))) by lia.
  - change ((3 - 2) mod 3) with 1.
    by replace (length blocks + 1) with (S (length blocks)) by lia.
Qed.

Lemma build_spec blocks t0 :
  blocks ≠ [] → cache_ok (hashCache t0) →
  ∃ t, build blocks t0 = (t, Return ())
       ∧ built blocks t
       ∧ cfg t = cfg t0
       ∧ cache_ok (hashCache t) ∧ hashCache t0 ⊆ hashCache t.
Proof.
  intros Hne Hc. unfold build.
  rewrite decide_False by (by destruct blocks).
  unfold mbind at 1, M_bind at 1, modify at 1.
  unfold mbind at 1, M_bind at 1, modify at 1.
  unfold mbind at 1, M_bind at 1, modify at 1.
  unfold mbind at 1, M_bind at 1, modify at 1.
  unfold mbind at 1, M_bind at 1.
  edestruct (buildLeaves_spec blocks 0 []) as (c & -> & Hc' & Hsub);
    [exact Hc|].
  cbn [nodes leafData rootID leafCount cfg metrics hashCache
       set_nodes set_leafData set_rootID set_leafCount].
  unfold mbind at 1, M_bind at 1. rewrite padLeaves_spec.
  cbn [nodes leafData rootID leafCount cfg metrics hashCache
       set_nodes set_leafData set_rootID set_leafCount app].
  rewrite length_fmap, length_seq.
  assert (seq 0 (length blocks) ++ seq (length blocks)
            (padCount (length blocks)) = seq 0 (length (padded blocks)))
    as -> by (unfold padded; by rewrite length_app, length_replicate, seq_app).
  rewrite length_seq.
  unfold set_leafData, set_nodes.
  cbn [nodes leafData rootID leafCount cfg metrics hashCache].
  assert ((leafNode ∘ computeHash <$> blocks)
          ++ replicate (padCount (length blocks)) (leafNode (computeHash []))
          = leafLayer blocks) as ->
    by (unfold leafLayer, padded; by rewrite fmap_app, fmap_replicate).
  assert ((Some <$> blocks) ++ replicate (padCount (length blocks)) (Some [])
          = Some <$> padded blocks) as ->
    by (unfold padded; by rewrite fmap_app, fmap_replicate).
  unfold mbind at 1, M_bind at 1, gets at 1.
  cbn [nodes leafData rootID leafCount cfg metrics hashCache
       set_nodes set_leafData set_rootID set_leafCount app].
  unfold mbind at 1, M_bind at 1, onNodes at 1.
  cbn [nodes leafData rootID leafCount cfg metrics hashCache
       set_nodes set_leafData set_rootID set_leafCount app].
  edestruct (bottomUp_spec (cfg t0) (length (padded blocks))
               (seq 0 (length (padded blocks))) (leafLayer blocks))
    as (ns & root & -> & Hs & Hh & Hf).
  { by rewrite length_seq. }
  { unfold padded. rewrite length_app.
    destruct blocks; [done|]. done. }
  { apply leafLayer_shape. }
  { apply leafLayer_hash_ok. }
  unfold mbind at 1, M_bind at 1, modify at 1.
  cbn [nodes leafData rootID leafCount cfg metrics hashCache head
       set_nodes set_leafData set_rootID set_leafCount app].
  destruct (enableMetrics (cfg t0)).
  - unfold mbind at 1, M_bind at 1, estimateMemoryUsage.
    cbn [nodes leafData rootID leafCount cfg metrics hashCache head
         set_nodes set_leafData set_rootID set_leafCount app].
    destruct (sumLengths_full (padded blocks) (80 * length ns)) as [m ->].
    eexists. split; [reflexivity|].
    split_and!; [split; simpl; eauto|done..].
  - eexists. split; [reflexivity|].
    split_and!; [split; simpl; eauto|done..].
Qed.
End build_facts.

(** ** Generated proofs verify *)

Section proofs.
  Context `{HP : HashPrimitive}.

Lemma nodeAt_of_nat ns (c : nat) : nodeAt ns (Z.of_nat c) = ns !! c.
Proof. unfold nodeAt. rewrite decide_True by lia. by rewrite Nat2Z.id. Qed.

Lemma findPos_elem cs (c : NodeID) : ∀ i,
  c ∈ cs →
  ∃ pos, findPos cs (Z.of_nat c) i = Some (i + pos) ∧ cs !! pos = Some c.
Proof.
  induction cs as [|x cs IH]; intros i Hin; [by apply elem_of_nil in Hin|].
  cbn [findPos]. case_decide as Hx.
  - apply Nat2Z.inj in Hx as ->. exists 0. by rewrite Nat.add_0_r.
  - apply elem_of_cons in Hin as [->|Hin]; [done|].
    destruct (IH (S i) Hin) as (pos & -> & Hpos).
    exists (S pos). split; [f_equal; lia|done].
Qed.

Lemma nodeHashes_lookup ns cs pos c n :
  Forall (λ c, c < length ns) cs →
  cs !! pos = Some c → ns !! c = Some n →
  nodeHashes ns cs !! pos = Some (hash n).
Proof.
  intros Hv. revert pos. induction Hv as [|x cs Hx _ IH]; intros pos Hpos Hn;
    [done|].
  apply lookup_lt_is_Some in Hx as [nx Hnx].
  rewrite (nodeHashes_cons _ _ _ _ Hnx).
  destruct pos as [|pos]; simpl in *; [congruence|by apply IH].
Qed.

Lemma fill_level ns pos hp : ∀ suf i childHashes,
  Forall (λ c, c < length ns) suf →
  length childHashes = i + length suf →
  (i ≤ pos → pos < i + length suf
             ∧ childHashes !! pos = Some (Some hp)
             ∧ nodeHashes ns suf !! (pos - i) = Some hp) →
  ∃ level, siblingsOf ns suf pos i = Return level
    ∧ ∀ rest,
        fillSiblings (length suf - (if decide (i ≤ pos) then 1 else 0)) pos
          childHashes (level ++ rest)
        = Some (take i childHashes ++ (Some <$> nodeHashes ns suf), rest).
Proof.
  induction suf as [|c suf IH]; intros i A Hv HA Hpos.
  - exists []. split; [done|]. intros rest. simpl.
    rewrite app_nil_r, take_ge by (simpl in HA; lia). done.
  - apply Forall_cons in Hv as [Hc Hv].
    apply lookup_lt_is_Some in Hc as [n Hn].
    rewrite (nodeHashes_cons _ _ _ _ Hn) in Hpos |- *.
    cbn [siblingsOf length].
    destruct (decide (i = pos)) as [->|Hne].
    + destruct Hpos as (_ & HApos & Hhp); [done|].
      rewrite Nat.sub_diag in Hhp. simpl in Hhp. injection Hhp as <-.
      destruct (IH (S pos) A Hv) as (level & -> & Hfill);
        [simpl in HA; lia|lia|].
      exists level. split; [done|]. intros rest.
      specialize (Hfill rest).
      rewrite decide_False in Hfill by lia.
      rewrite (decide_True (P := pos ≤ pos)) by lia.
      replace (S (length suf) - 1) with (length suf - 0) by lia.
      rewrite Hfill. rewrite (take_S_r _ _ _ HApos), <-(assoc_L (++)). done.
    + rewrite Hn. cbn [deref mbind completion_bind].
      destruct (IH (S i) (<[i := Some (hash n)]> A) Hv) as (level & -> & Hfill).
      { rewrite length_insert. simpl in HA. lia. }
      { intros Hle. destruct Hpos as (Hlt & HApos & Hhp); [lia|].
        split_and!; [simpl in Hlt; lia| |].
        - by rewrite list_lookup_insert_ne.
        - replace (pos - i) with (S (pos - S i)) in Hhp by lia. done. }
      eexists. split; [done|]. intros rest. specialize (Hfill rest).
      assert (S (length suf) - (if decide (i ≤ pos) then 1 else 0)
              = S (length suf - (if decide (S i ≤ pos) then 1 else 0))) as ->.
      { repeat case_decide; try lia.
        destruct Hpos as (Hlt & _); [lia|]. simpl in Hlt. lia. }
      cbn [fillSiblings app sh_pos sh_hash].
      rewrite decide_False by (simpl in HA; lia).
      rewrite Nat2Z.id, Hfill. f_equal. f_equal.
      rewrite (take_S_r _ _ (Some (hash n)))
        by (apply list_lookup_insert_eq; simpl in HA; lia).
      rewrite take_insert_ge, <-(assoc_L (++)) by done. done.
Qed.

Lemma verify_level ns cs pos c n :
  Forall (λ c, c < length ns) cs →
  cs !! pos = Some c → ns !! c = Some n →
  ∃ level, siblingsOf ns cs pos 0 = Return level
    ∧ ∀ rest,
        fillSiblings (length cs - 1) pos
          (<[pos := Some (hash n)]> (replicate (length cs) None))
          (level ++ rest)
        = Some (Some <$> nodeHashes ns cs, rest).
Proof.
  intros Hv Hpos Hn. pose proof (lookup_lt_Some _ _ _ Hpos) as Hlt.
  destruct (fill_level ns pos (hash n) cs 0
              (<[pos := Some (hash n)]> (replicate (length cs) None)) Hv)
    as (level & Hs & Hfill).
  - by rewrite length_insert, length_replicate.
  - intros _. split_and!; [lia| |].
    + apply list_lookup_insert_eq. by rewrite length_replicate.
    + rewrite Nat.sub_0_r. by eapply nodeHashes_lookup.
  - exists level. split; [done|]. intros rest. specialize (Hfill rest).
    rewrite decide_True in Hfill by lia. by rewrite Hfill.
Qed.

Lemma proof_path ns root :
  shape_ok ns [root] → hash_ok ns →
  ∀ k cur n sibs path fuel,
    ns !! cur = Some n → length ns - cur ≤ k → k < fuel →
    ∃ more d,
      proofLoop fuel ns (Z.of_nat cur) sibs path
      = Return (sibs ++ more, path + d)
      ∧ verifyLoop d ns root (Z.of_nat cur) (hash n) more = Return true.
Proof.
  intros Hs Hh. induction k as [|k IH];
    intros cur n sibs path fuel Hn Hk Hfuel.
  { apply lookup_lt_Some in Hn. lia. }
  destruct fuel as [|fuel]; [lia|].
  cbn [proofLoop]. rewrite nodeAt_of_nat, Hn. cbn [deref mbind completion_bind].
  pose proof (parent_ok _ _ Hs cur n Hn) as Hp.
  destruct (parent n) as [p|] eqn:Hpar.
  - destruct Hp as (Hlt & _ & pn & Hpn & Hleaf & Hin).
    rewrite Hpn. cbn [deref mbind completion_bind].
    destruct (findPos_elem _ _ 0 Hin) as (pos & Hfind & Hpos).
    rewrite Hfind. cbn [Nat.add].
    pose proof (shape_ok_children_valid _ _ _ _ Hs Hpn Hleaf) as Hv.
    destruct (verify_level _ _ _ _ _ Hv Hpos Hn) as (level & Hsib & Hfill).
    rewrite Hsib. cbn [deref mbind completion_bind].
    pose proof (lookup_lt_Some _ _ _ Hpn) as Hplt.
    destruct (IH p pn (sibs ++ level) (S path) fuel Hpn)
      as (more & d & Hrun & Hver); [lia..|].
    exists (level ++ more), (S d). split.
    + rewrite Hrun. do 2 f_equal; [by rewrite (assoc_L (++))|lia].
    + cbn [verifyLoop]. rewrite nodeAt_of_nat, Hn.
      cbn [deref mbind completion_bind]. rewrite Hpar, Hpn.
      cbn [deref mbind completion_bind]. rewrite Hfind. cbn [Nat.add].
      rewrite Hfill, combineHashes_full
        by apply nodeHashes_size, (hash_size _ _ Hs).
      cbn [mbind completion_bind]. by rewrite <-(Hh p pn Hpn Hleaf).
  - apply list_elem_of_singleton in Hp as ->.
    exists [], 0. split; [by rewrite app_nil_r, Nat.add_0_r|].
    cbn [verifyLoop]. rewrite Hn. cbn [deref mbind completion_bind].
    f_equal. by apply hashesEqual_true.
Qed.

Lemma generated_proof_verifies t root (i : nat) n :
  rootID t = Some root → shape_ok (nodes t) [root] → hash_ok (nodes t) →
  nodes t !! i = Some n →
  ∃ proof, generateProofInternal t (Z.of_nat i) = Return proof
           ∧ verifyProofInternal t proof (hash n) root = Return true.
Proof.
  intros Hroot Hs Hh Hn. unfold generateProofInternal, verifyProofInternal.
  destruct (proof_path _ _ Hs Hh (length (nodes t)) i n [] 0
              (S (length (nodes t))) Hn) as (more & d & -> & Hver); [lia..|].
  eexists. split; [done|]. done.
Qed.
End proofs.

(** ** What a method leaves untouched *)

Section preserves.
  Context {S : Type} (R : relation S) `{!PreOrder R}.

Lemma preserves_ret {A} (a : A) : preserves R (mret a).
Proof. intros s. done. Qed.

Lemma preserves_lift {A} (c : completion A) : preserves R (lift c).
Proof. intros s. done. Qed.

Lemma preserves_throw {A} e : preserves R (throw (A:=A) e).
Proof. intros s. done. Qed.

Lemma preserves_gets {A} (f : S → A) : preserves R (gets f).
Proof. intros s. done. Qed.

Lemma preserves_read {A} (f : S → completion A) :
  preserves R (λ s, (s, f s)).
Proof. intros s. done. Qed.

Lemma preserves_modify (f : S → S) : (∀ s, R s (f s)) → preserves R (modify f).
Proof. intros H s. apply H. Qed.

Lemma preserves_bind {A B} (m : M S A) (f : A → M S B) :
  preserves R m → (∀ a, preserves R (f a)) → preserves R (m ≫= f).
Proof.
  intros Hm Hf s. unfold mbind, M_bind. specialize (Hm s).
  destruct (m s) as [s' [a|e|]]; simpl in *; [|done..].
  etrans; [exact Hm|]. apply Hf.
Qed.
End preserves.

Ltac bind_step := apply preserves_bind; [apply _| |intros ?].
Ltac pure_step :=
first [apply preserves_ret | apply preserves_lift | apply preserves_throw
      | apply preserves_gets | apply preserves_read]; apply _.

Section frames.
  Context `{HP : HashPrimitive}.

#[local] Instance same_skeleton_preorder : PreOrder same_skeleton.
Proof.
  split; [done|]. intros ns1 ns2 ns3 H1 H2. unfold same_skeleton in *.
  congruence.
Qed.

Lemma same_skeleton_set_hash ns id n h :
  ns !! id = Some n → same_skeleton ns (<[id := set_hash h n]> ns).
Proof.
  intros Hn. unfold same_skeleton. rewrite list_fmap_insert.
  apply list_insert_id. by rewrite list_lookup_fmap, Hn.
Qed.

Lemma recomputeNodeHash_skeleton id :
  preserves same_skeleton (recomputeNodeHash id).
Proof.
  intros ns. unfold recomputeNodeHash.
  case_decide; [done|]. destruct (ns !! id) as [n|] eqn:Hn; [|done].
  destruct (isLeaf n); [done|].
  destruct (hashChunk ns (children n)); [|done..].
  by apply same_skeleton_set_hash.
Qed.

Lemma setLeafHash_skeleton idx h : preserves same_skeleton (setLeafHash idx h).
Proof.
  intros ns. unfold setLeafHash, mbind, M_bind, modify.
  destruct (ns !! idx) as [n|] eqn:Hn; simpl; [|done].
  by apply same_skeleton_set_hash.
Qed.

Lemma recomputeDownFrom_skeleton anc k :
  preserves same_skeleton (recomputeDownFrom anc k).
Proof.
  induction k as [|k IH]; cbn [recomputeDownFrom]; [pure_step|].
  bind_step; [pure_step|]. bind_step; [apply recomputeNodeHash_skeleton|done].
Qed.

Lemma updateAncestors_skeleton cur :
  preserves same_skeleton (updateAncestors cur).
Proof.
  unfold updateAncestors. bind_step; [pure_step|].
  apply recomputeDownFrom_skeleton.
Qed.

Lemma sweep_skeleton fuel : ∀ queue seen,
  preserves same_skeleton (sweep fuel queue seen).
Proof.
  induction fuel as [|fuel IH]; intros queue seen; cbn [sweep]; [pure_step|].
  destruct queue as [|id queue]; [pure_step|].
  case_decide; [done|].
  bind_step; [apply recomputeNodeHash_skeleton|].
  bind_step; [pure_step|]. by destruct (parent _).
Qed.

#[local] Instance same_shape_preorder : PreOrder same_shape.
Proof.
  split; [done|].
  intros t1 t2 t3 (Hn1 & ? & ? & ? & ?) (Hn2 & ? & ? & ? & ?).
  split_and!; [by etrans|congruence..].
Qed.

Lemma onNodes_shape {A} (m : M (list InternalNode) A) :
  preserves same_skeleton m → preserves same_shape (onNodes m).
Proof.
  intros Hm t. unfold onNodes. specialize (Hm (nodes t)).
  destruct (m (nodes t)) as [ns r]. by split_and!.
Qed.

Lemma set_leafData_shape f t : same_shape t (set_leafData f t).
Proof. done. Qed.

Lemma countUpdates_shape k : preserves same_shape (countUpdates k).
Proof. intros t. unfold countUpdates. by destruct (enableMetrics (cfg t)). Qed.

Lemma update_shape leafIndex newData :
  preserves same_shape (update leafIndex newData).
Proof.
  unfold update. bind_step; [pure_step|].
  case_decide; [pure_step|].
  bind_step; [by apply preserves_modify|].
  bind_step; [apply onNodes_shape, setLeafHash_skeleton|].
  bind_step; [apply onNodes_shape, updateAncestors_skeleton|].
  apply countUpdates_shape.
Qed.

Lemma applyUpdates_shape entries : preserves same_shape (applyUpdates entries).
Proof.
  induction entries as [|[idx data] entries IH]; cbn [applyUpdates];
    [pure_step|].
  bind_step; [by apply preserves_modify|].
  bind_step; [apply onNodes_shape, setLeafHash_skeleton|done].
Qed.

Lemma batchUpdate_shape updates :
  preserves same_shape (batchUpdate updates).
Proof.
  unfold batchUpdate. bind_step; [pure_step|].
  bind_step; [pure_step|].
  bind_step; [apply applyUpdates_shape|].
  bind_step; [pure_step|].
  bind_step; [pure_step|].
  bind_step; [apply onNodes_shape, sweep_skeleton|].
  apply countUpdates_shape.
Qed.
End frames.

(** ** The leaf layer after any build that returns *)

Section build_frame.
  Context `{HP : HashPrimitive}.

#[local] Instance frame_preorder : PreOrder frame.
Proof. split; [intros ns; apply frame_refl|intros ???; apply frame_trans]. Qed.

Lemma frame_set_parent ns cid n p :
  ns !! cid = Some n → frame ns (<[cid := set_parent p n]> ns).
Proof.
  intros Hn. split_and!.
  - by rewrite length_insert.
  - intros i m Hm. destruct (decide (i = cid)) as [->|Hne].
    + rewrite list_lookup_insert_eq by (by eapply lookup_lt_Some).
      assert (m = n) as -> by congruence. by eexists.
    + rewrite list_lookup_insert_ne by done. by eexists.
  - intros i m Hi Hm. apply lookup_lt_Some in Hm.
    rewrite length_insert in Hm. lia.
Qed.

Lemma frame_snoc ns p : isLeaf p = false → frame ns (ns ++ [p]).
Proof.
  intros Hp. split_and!.
  - rewrite length_app. lia.
  - intros i n Hn. exists n. by rewrite (lookup_app_l_Some _ _ _ _ Hn).
  - intros i n Hi Hn. rewrite lookup_app_r in Hn by done.
    apply list_lookup_singleton_Some in Hn as [_ <-]. done.
Qed.

Lemma setParents_frame chunk pid : preserves frame (setParents chunk pid).
Proof.
  induction chunk as [|cid chunk IH]; cbn [setParents]; [pure_step|].
  intros ns. unfold mbind at 1, M_bind at 1.
  destruct (ns !! cid) as [n|] eqn:Hn; cbn [deref]; [|done].
  unfold mbind at 1, M_bind at 1, modify.
  etrans; [by apply frame_set_parent|apply IH].
Qed.

Lemma appendParent_frame chunk h : preserves frame (appendParent chunk h).
Proof.
  unfold appendParent. bind_step; [pure_step|].
  bind_step; [apply preserves_modify; intros ns; by apply frame_snoc|].
  bind_step; [apply setParents_frame|pure_step].
Qed.

Lemma serialLayer_frame chunks : ∀ next,
  preserves frame (serialLayer chunks next).
Proof.
  induction chunks as [|chunk chunks IH]; intros next; cbn [serialLayer];
    [pure_step|].
  bind_step; [pure_step|]. bind_step; [apply appendParent_frame|done].
Qed.

Lemma appendPrecomputed_frame precomp : ∀ next,
  preserves frame (appendPrecomputed precomp next).
Proof.
  induction precomp as [|p precomp IH]; intros next;
    cbn [appendPrecomputed]; [pure_step|].
  bind_step; [apply appendParent_frame|done].
Qed.

Lemma bottomUp_frame c fuel : ∀ current,
  preserves frame (bottomUp fuel c current).
Proof.
  induction fuel as [|fuel IH]; intros current; cbn [bottomUp]; [pure_step|].
  case_decide; [|pure_step].
  bind_step; [|done].
  case_decide; [|apply serialLayer_frame].
  unfold parallelLayer. bind_step; [pure_step|].
  apply appendPrecomputed_frame.
Qed.

Lemma buildLeaves_any blocks : ∀ i current t,
  ∃ hs c, length hs = length blocks
    ∧ buildLeaves blocks i current t
      = ({| nodes := nodes t ++ (leafNode <$> hs);
            leafData := leafData t ++ (Some <$> blocks);
            rootID := rootID t; leafCount := leafCount t; cfg := cfg t;
            metrics := metrics t; hashCache := c |},
         Return (current ++ seq i (length blocks))).
Proof.
  induction blocks as [|d blocks IH]; intros i current t.
  - exists [], (hashCache t). simpl. rewrite !app_nil_r. by destruct t.
  - assert (∃ h c, getCachedHash d t = (set_hashCache (λ _, c) t, Return h))
      as (h & c1 & Hg).
    { unfold getCachedHash. destruct (enableCaching (cfg t)).
      - destruct (hashCache t !! cacheKey d) as [h|].
        + exists h, (hashCache t). by rewrite set_hashCache_id.
        + case_decide; [by eauto|].
          eexists _, (hashCache t). by rewrite set_hashCache_id.
      - eexists _, (hashCache t). by rewrite set_hashCache_id. }
    simpl. unfold mbind at 1, M_bind at 1. rewrite Hg.
    unfold mbind at 1, M_bind at 1, modify at 1.
    unfold mbind at 1, M_bind at 1, modify at 1.
    edestruct (IH (S i) (current ++ [i])) as (hs & c & Hlen & ->).
    exists (h :: hs), c. simpl. rewrite <-!(assoc_L (++)). simpl.
    split; [by rewrite Hlen|done].
Qed.

(** What any [build] that returns has made of the leaf layer; [hs] are
    the digests the data leaves got (from the cache or computed). *)
Lemma build_returns blocks t0 t :
  build blocks t0 = (t, Return ()) →
  leafCount t = Z.of_nat (length blocks)
  ∧ leafData t = Some <$> padded blocks
  ∧ ∃ hs, length hs = length blocks
      ∧ frame ((leafNode <$> hs)
               ++ replicate (padCount (length blocks))
                    (leafNode (computeHash []))) (nodes t).
Proof.
  unfold build. case_decide as Hlen; [done|].
  unfold mbind at 1, M_bind at 1, modify at 1.
  unfold mbind at 1, M_bind at 1, modify at 1.
  unfold mbind at 1, M_bind at 1, modify at 1.
  unfold mbind at 1, M_bind at 1, modify at 1.
  unfold mbind at 1, M_bind at 1.
  edestruct (buildLeaves_any blocks 0 []) as (hs & c & Hhs & ->).
  cbn [nodes leafData rootID leafCount cfg metrics hashCache
       set_nodes set_leafData set_rootID set_leafCount].
  unfold mbind at 1, M_bind at 1. rewrite padLeaves_spec.
  unfold set_leafData, set_nodes.
  cbn [nodes leafData rootID leafCount cfg metrics hashCache app].
  rewrite length_seq.
  assert ((Some <$> blocks) ++ replicate (padCount (length blocks)) (Some [])
          = Some <$> padded blocks) as ->
    by (unfold padded; by rewrite fmap_app, fmap_replicate).
  unfold mbind at 1, M_bind at 1, gets at 1.
  cbn [nodes leafData rootID leafCount cfg metrics hashCache].
  unfold mbind at 1, M_bind at 1, onNodes at 1.
  cbn [nodes leafData rootID leafCount cfg metrics hashCache].
  match goal with
  | |- context [bottomUp ?f ?c ?cur ?ns] =>
      pose proof (bottomUp_frame c f cur ns) as Hf;
      destruct (bottomUp f c cur ns) as [ns' [current| |]]
  end; [|done..].
  simpl in Hf.
  unfold mbind at 1, M_bind at 1, modify at 1.
  cbn [nodes leafData rootID leafCount cfg metrics hashCache
       set_nodes set_leafData set_rootID set_leafCount].
  destruct (enableMetrics (cfg t0)).
  - unfold mbind at 1, M_bind at 1, estimateMemoryUsage.
    unfold set_rootID, set_nodes.
    cbn [nodes leafData rootID leafCount cfg metrics hashCache].
    destruct (sumLengths_full (padded blocks) (80 * length ns')) as [m ->].
    intros [= <-]. simpl. eauto.
  - intros [= <-]. simpl. eauto.
Qed.
End build_frame.

(** ** Snapshots *)

Section snapshot_facts.
  Context `{JC : JSONCodec}.

Lemma numberToByte_byteToNumber b : numberToByte (byteToNumber b) = b.
Proof.
  unfold numberToByte, byteToNumber.
  pose proof (Byte.to_N_bounded b) as Hb.
  rewrite Z.mod_small by lia. by rewrite N2Z.id, Byte.of_to_N.
Qed.

Lemma bytes_roundtrip (l : bytes) : map numberToByte (map byteToNumber l) = l.
Proof.
  induction l as [|b l IH]; [done|]. simpl.
  by rewrite numberToByte_byteToNumber, IH.
Qed.

Lemma nodes_roundtrip ns : ∀ id,
  map deserializeNode (serializeNodes ns id) = ns.
Proof.
  induction ns as [|n ns IH]; intros id; [done|]. simpl. rewrite IH.
  unfold deserializeNode. simpl. rewrite bytes_roundtrip. by destruct n.
Qed.

Lemma copyLeaves_full (l : list bytes) :
  copyLeaves (Some <$> l) = Return (map (map byteToNumber) l).
Proof.
  induction l as [|d l IH]; [done|].
  rewrite fmap_cons. cbn [copyLeaves deref mbind completion_bind].
  by rewrite IH.
Qed.

Lemma leaves_roundtrip (l : list bytes) :
  map (λ leaf, Some (map numberToByte leaf)) (map (map byteToNumber) l)
  = Some <$> l.
Proof.
  induction l as [|d l IH]; [done|]. simpl. by rewrite bytes_roundtrip, IH.
Qed.

(** C5: on a tree whose leaf-data array has no holes, as that of every
    built tree, [serialize] returns a text from which [deserialize]
    makes a tree with the same node array, leaf-data array, root id and
    [leafCount], and so the same root hash byte for byte. *)
Theorem serialize_deserialize (t : TernaryMeshTree) (c : Config)
    (leaves : list bytes) :
  leafData t = Some <$> leaves →
  ∃ text t', serialize t = Return text
    ∧ deserialize text c = Return t' ∧ same_snapshot t t'.
Proof.
  intros Hld. unfold serialize. rewrite Hld, copyLeaves_full. simpl.
  eexists _, _. split; [done|].
  unfold deserialize. rewrite JSON_parse_stringify. simpl.
  split; [done|].
  unfold same_snapshot, getRootHash. simpl.
  rewrite nodes_roundtrip, leaves_roundtrip. done.
Qed.
End snapshot_facts.

(** ** The lifetime of the hash cache *)

Section cache_lifetime.
  Context `{HP : HashPrimitive}.

#[local] Instance cache_grows_preorder : PreOrder cache_grows.
Proof.
  split; [by split|].
  intros t1 t2 t3 [Hs1 Hc1] [Hs2 Hc2]. split; [by etrans|auto].
Qed.

Lemma cache_grows_same t t' : hashCache t' = hashCache t → cache_grows t t'.
Proof. intros H. unfold cache_grows. by rewrite H. Qed.

Lemma getCachedHash_grows data : preserves cache_grows (getCachedHash data).
Proof.
  intros t. unfold getCachedHash.
  destruct (enableCaching (cfg t)); [|done].
  destruct (hashCache t !! cacheKey data) as [h|] eqn:Hk; [done|].
  case_decide; [|done]. split; simpl.
  - by apply insert_subseteq.
  - apply cache_ok_insert.
Qed.

Lemma buildLeaves_grows blocks : ∀ i current,
  preserves cache_grows (buildLeaves blocks i current).
Proof.
  induction blocks as [|d blocks IH]; intros i current; cbn [buildLeaves];
    [pure_step|].
  bind_step; [apply getCachedHash_grows|].
  bind_step; [by apply preserves_modify|].
  bind_step; [by apply preserves_modify|done].
Qed.

Lemma padLeaves_grows fuel : ∀ current,
  preserves cache_grows (padLeaves fuel current).
Proof.
  induction fuel as [|fuel IH]; intros current; cbn [padLeaves]; [pure_step|].
  case_decide; [|pure_step].
  bind_step; [by apply preserves_modify|].
  bind_step; [by apply preserves_modify|].
  bind_step; [pure_step|done].
Qed.

Lemma onNodes_grows {A} (m : M (list InternalNode) A) :
  preserves cache_grows (onNodes m).
Proof.
  intros t. unfold onNodes. by destruct (m (nodes t)).
Qed.

Lemma build_grows blocks : preserves cache_grows (build blocks).
Proof.
  unfold build. case_decide; [pure_step|].
  do 4 (bind_step; [by apply preserves_modify|]).
  bind_step; [apply buildLeaves_grows|].
  bind_step; [apply padLeaves_grows|].
  bind_step; [pure_step|].
  bind_step; [apply onNodes_grows|].
  bind_step; [by apply preserves_modify|].
  destruct (enableMetrics _); [|pure_step].
  bind_step; [pure_step|]. by apply preserves_modify.
Qed.
End cache_lifetime.

(** ** The instances a program can hold *)

Section reachable.
  Context `{HP : HashPrimitive}.

Lemma countVerification_cache {A} (a : A) t :
  hashCache ((countVerification;; mret a) t).1 = hashCache t.
Proof.
  unfold mbind, M_bind, countVerification.
  by destruct (enableMetrics (cfg t)).
Qed.

Lemma verify_cache i data t : hashCache (verify i data t).1 = hashCache t.
Proof.
  unfold verify. case_decide; [done|].
  destruct (rootID t); [|done].
  destruct (nodeAt (nodes t) i); [|done].
  destruct (negb _); [apply countVerification_cache|].
  destruct (_ ≫= _); [apply countVerification_cache|done..].
Qed.

Lemma reachable_cache_ok t : reachable t → cache_ok (hashCache t).
Proof.
  induction 1 as [c|blob c|blocks t _ IH|i d t _ IH|i d t _ IH|us t _ IH].
  - apply cache_ok_empty.
  - apply cache_ok_empty.
  - by apply (build_grows blocks t).
  - by rewrite verify_cache.
  - destruct (update_shape i d t) as (_ & _ & _ & _ & ->). done.
  - destruct (batchUpdate_shape us t) as (_ & _ & _ & _ & ->). done.
Qed.
End reachable.

(** ** Recomputing ancestors *)

Section ancestors.
  Context `{HP : HashPrimitive}.

Lemma lookup_set_hash (ns : list InternalNode) (id : nat) n h (i : nat) :
  ns !! id = Some n →
  <[id := set_hash h n]> ns !! i
  = (λ m, if decide (i = id) then set_hash h m else m) <$> ns !! i.
Proof.
  intros Hn. destruct (decide (i = id)) as [->|Hne].
  - rewrite list_lookup_insert_eq by (by eapply lookup_lt_Some).
    by rewrite Hn.
  - rewrite list_lookup_insert_ne by done. by destruct (ns !! i).
Qed.

Lemma lookup_set_hash_inv (ns : list InternalNode) (id : nat) n h
    (i : nat) m' :
  ns !! id = Some n → length h = 32 →
  (∀ j m, ns !! j = Some m → length (hash m) = 32) →
  <[id := set_hash h n]> ns !! i = Some m' →
  ∃ m, ns !! i = Some m ∧ skeleton m' = skeleton m
       ∧ length (hash m') = 32.
Proof.
  intros Hn Hh Hsz. rewrite (lookup_set_hash _ _ _ _ _ Hn).
  destruct (ns !! i) as [m|] eqn:Hm; [|done]. intros [= <-].
  exists m. split; [done|]. case_decide; [by split|].
  split; [done|]. by eapply Hsz.
Qed.

Lemma shape_ok_set_hash (ns : list InternalNode) roots (id : nat) n h :
  shape_ok ns roots → ns !! id = Some n → length h = 32 →
  shape_ok (<[id := set_hash h n]> ns) roots.
Proof.
  intros Hs Hn Hh.
  pose proof (lookup_set_hash_inv ns id n h) as Hinv.
  specialize (λ i m', Hinv i m' Hn Hh (hash_size _ _ Hs)).
  assert (∀ i m, ns !! i = Some m →
            ∃ m', <[id := set_hash h n]> ns !! i = Some m'
                  ∧ skeleton m' = skeleton m) as Hfwd.
  { intros i m Hm. rewrite (lookup_set_hash _ _ _ _ _ Hn), Hm. simpl.
    eexists. split; [done|]. by case_decide. }
  split.
  - apply (roots_NoDup _ _ Hs).
  - intros r Hr. rewrite length_insert. by apply (roots_valid _ _ Hs).
  - intros i m' Hm'. by destruct (Hinv i m' Hm') as (m & _ & _ & ?).
  - intros i m' Hm'. destruct (Hinv i m' Hm') as (m & Hm & Hsk & _).
    pose proof (parent_ok _ _ Hs i m Hm) as Hp.
    injection Hsk as Hc Hl Hpar. rewrite Hpar.
    destruct (parent m) as [p|]; [|done].
    destruct Hp as (? & ? & pn & Hpn & Hpl & Hin).
    split_and!; [done..|].
    destruct (Hfwd p pn Hpn) as (pn' & Hpn' & Hsk').
    injection Hsk' as Hc' Hl' _.
    exists pn'. by rewrite Hl', Hc'.
  - intros i m' c Hm' Hleaf Hc.
    destruct (Hinv i m' Hm') as (m & Hm & Hsk & _).
    injection Hsk as Hch Hl Hpar. rewrite Hl in Hleaf. rewrite Hch in Hc.
    destruct (children_ok _ _ Hs i m c Hm Hleaf Hc) as (cn & Hcn & Hcp).
    destruct (Hfwd c cn Hcn) as (cn' & Hcn' & Hsk').
    injection Hsk' as _ _ Hp'. exists cn'. by rewrite Hp'.
Qed.

Lemma recomputeNodeHash_ok (ns : list InternalNode) roots (id : nat) n :
  shape_ok ns roots → ns !! id = Some n → isLeaf n = false →
  recomputeNodeHash id ns
  = (<[id := set_hash (digest (nodeHashes ns (children n))) n]> ns,
     Return ()).
Proof.
  intros Hs Hn Hleaf. unfold recomputeNodeHash.
  rewrite decide_False by (apply lookup_lt_Some in Hn; lia).
  rewrite Hn, Hleaf, hashChunk_valid; [done| |apply (hash_size _ _ Hs)].
  by eapply shape_ok_children_valid.
Qed.

(** The walk of [updateAncestors] from [cur]: it ends at the root, and
    every node it collects is an internal node other than the root,
    the last one apart. *)
Lemma ancestorsLoop_chain ns root :
  shape_ok ns [root] →
  ∀ k cur n acc fuel,
    ns !! cur = Some n → length ns - cur ≤ k → k < fuel →
    ∃ chain, ancestorsLoop fuel ns cur acc = Return (acc ++ chain)
      ∧ Forall (λ x, isLeaf <$> ns !! x = Some false) chain
      ∧ match parent n with
        | None => chain = []
        | Some _ => ∃ mid, chain = mid ++ [root]
                           ∧ Forall (λ x, x ≠ root) mid
        end.
Proof.
  intros Hs. induction k as [|k IH]; intros cur n acc fuel Hn Hk Hfuel.
  { apply lookup_lt_Some in Hn. lia. }
  destruct fuel as [|fuel]; [lia|].
  cbn [ancestorsLoop]. rewrite Hn. cbn [deref mbind completion_bind].
  pose proof (parent_ok _ _ Hs cur n Hn) as Hp.
  destruct (parent n) as [p|] eqn:Hpar.
  - destruct Hp as (Hlt & _ & pn & Hpn & Hleaf & _).
    pose proof (lookup_lt_Some _ _ _ Hpn) as Hplt.
    destruct (IH p pn (acc ++ [p]) fuel Hpn) as (chain & -> & Hint & Htop);
      [lia..|].
    exists (p :: chain). split; [by rewrite <-(assoc_L (++))|].
    split; [constructor; [by rewrite Hpn, <-Hleaf|done]|].
    pose proof (parent_ok _ _ Hs p pn Hpn) as Hpp.
    destruct (parent pn) as [q|] eqn:Hq.
    + destruct Htop as (mid & -> & Hmid). exists (p :: mid).
      split; [done|]. constructor; [|done]. intros ->.
      assert (root ∈ [root]) as Hr by apply list_elem_of_singleton, eq_refl.
      pose proof (shape_ok_root_parent _ _ _ _ Hs Hr Hpn). congruence.
    + subst chain. apply list_elem_of_singleton in Hpp as ->.
      by exists [].
  - exists []. by rewrite app_nil_r.
Qed.

Lemma recomputeDownFrom_ok anc roots : ∀ k ns,
  shape_ok ns roots → k ≤ length anc →
  (∀ j id, j < k → anc !! j = Some id → isLeaf <$> ns !! id = Some false) →
  ∃ ns', recomputeDownFrom anc k ns = (ns', Return ())
    ∧ shape_ok ns' roots
    ∧ ∀ x, (∀ j, j < k → anc !! j ≠ Some x) → ns' !! x = ns !! x.
Proof.
  induction k as [|k IH]; intros ns Hs Hk Hint.
  { exists ns. by split_and!. }
  destruct (lookup_lt_is_Some_2 anc k) as [id Hid]; [lia|].
  pose proof (Hint k id ltac:(lia) Hid) as Hleaf.
  destruct (ns !! id) as [n|] eqn:Hn; [|done].
  injection Hleaf as Hleaf.
  cbn [recomputeDownFrom]. unfold mbind at 1, M_bind at 1, lift at 1.
  rewrite Hid. cbn [deref].
  unfold mbind at 1, M_bind at 1.
  rewrite (recomputeNodeHash_ok _ _ _ _ Hs Hn Hleaf).
  pose proof (shape_ok_set_hash _ _ _ _
                (digest (nodeHashes ns (children n))) Hs Hn
                (digest_length _)) as Hs'.
  destruct (IH _ Hs') as (ns' & -> & Hs'' & Hsame); [lia| |].
  { intros j x Hj Hx. rewrite (lookup_set_hash _ _ _ _ _ Hn).
    specialize (Hint j x ltac:(lia) Hx).
    destruct (ns !! x); [|done]. simpl in *. by case_decide. }
  exists ns'. split_and!; [done..|].
  intros x Hx. rewrite Hsame by (intros j Hj; apply Hx; lia).
  rewrite list_lookup_insert_ne; [done|].
  intros ->. by apply (Hx k ltac:(lia)).
Qed.

Lemma set_hash_same n : set_hash (hash n) n = n.
Proof. by destruct n. Qed.

Lemma updateAncestors_ok (ns : list InternalNode) root (cur : nat) n :
  shape_ok ns [root] → ns !! cur = Some n →
  ∃ ns', updateAncestors cur ns = (ns', Return ())
    ∧ shape_ok ns' [root]
    ∧ ∀ p rn, parent n = Some p → ns !! root = Some rn →
        hash rn = digest (nodeHashes ns (children rn)) →
        ns' !! root = Some rn.
Proof.
  intros Hs Hn. unfold updateAncestors.
  destruct (ancestorsLoop_chain ns root Hs (length ns) cur n []
              (S (length ns)) Hn) as (chain & Hrun & Hint & Htop); [lia..|].
  unfold mbind at 1, M_bind at 1. rewrite Hrun. cbn [app].
  destruct (recomputeDownFrom_ok chain [root] (length chain) ns Hs)
    as (ns' & Hdown & Hs' & _); [lia| |].
  { intros j id _ Hid. by eapply Forall_lookup_1 in Hint. }
  exists ns'. split_and!; [done..|].
  intros p rn Hpar Hrn Hhash. rewrite Hpar in Htop.
  destruct Htop as (mid & -> & Hmid).
  rewrite length_app, Nat.add_1_r in Hdown. cbn [recomputeDownFrom] in Hdown.
  unfold mbind at 1, M_bind at 1, lift at 1 in Hdown.
  rewrite lookup_app_r, Nat.sub_diag in Hdown by done. cbn [lookup] in Hdown.
  simpl in Hdown. unfold mbind at 1, M_bind at 1 in Hdown.
  assert (isLeaf rn = false) as Hleaf.
  { eapply Forall_lookup_1 with (i := length mid) in Hint;
      [|by rewrite lookup_app_r, Nat.sub_diag by done].
    rewrite Hrn in Hint. by injection Hint. }
  rewrite (recomputeNodeHash_ok _ _ _ _ Hs Hrn Hleaf) in Hdown.
  rewrite <-Hhash, set_hash_same, list_insert_id in Hdown by done.
  destruct (recomputeDownFrom_ok (mid ++ [root]) [root] (length mid) ns Hs)
    as (ns'' & Hdown' & _ & Hsame).
  { rewrite length_app. lia. }
  { intros j id Hj Hid. by eapply Forall_lookup_1 in Hint. }
  rewrite Hdown' in Hdown. injection Hdown as <-.
  rewrite Hsame; [done|].
  intros j Hj Hroot. rewrite lookup_app_l in Hroot by done.
  eapply Forall_lookup_1 in Hmid; [|exact Hroot]. done.
Qed.

Lemma countUpdates_returns k t : (countUpdates k t).2 = Return ().
Proof. unfold countUpdates. by destruct (enableMetrics (cfg t)). Qed.

Lemma countUpdates_nodes k t :
  nodes (countUpdates k t).1 = nodes t
  ∧ rootID (countUpdates k t).1 = rootID t.
Proof. unfold countUpdates. by destruct (enableMetrics (cfg t)). Qed.

(** [update] on a tree of sound shape, at a leaf [idx]: the call
    returns; and when the leaf's parent is not the root, the root node
    is left as it was. *)
Lemma update_ok t root (i : Z) n data :
  rootID t = Some root → shape_ok (nodes t) [root] → hash_ok (nodes t) →
  (0 ≤ i < leafCount t)%Z → nodes t !! Z.to_nat i = Some n →
  (update i data t).2 = Return ()
  ∧ rootID (update i data t).1 = Some root
  ∧ shape_ok (nodes (update i data t).1) [root]
  ∧ ∀ p, parent n = Some p → p ≠ root →
      nodes (update i data t).1 !! root = nodes t !! root.
Proof.
  intros Hroot Hs Hh Hi Hn.
  pose proof (shape_ok_set_hash _ _ _ _ (computeHash data) Hs Hn
                (computeHash_length _)) as Hs1.
  set (ns1 := <[Z.to_nat i := set_hash (computeHash data) n]> (nodes t))
    in *.
  assert (ns1 !! Z.to_nat i = Some (set_hash (computeHash data) n)) as Hn1
    by (apply list_lookup_insert_eq; by eapply lookup_lt_Some).
  destruct (updateAncestors_ok ns1 root _ _ Hs1 Hn1)
    as (ns' & Hup & Hs' & Hstale).
  assert (update i data t
          = countUpdates 1
              (set_nodes (λ _, ns')
                 (set_nodes (λ _, ns1)
                    (set_leafData (λ ld, arraySet ld (Z.to_nat i) data) t))))
    as ->.
  { unfold update. unfold mbind at 1, M_bind at 1, gets at 1.
    rewrite decide_False by lia.
    unfold mbind at 1, M_bind at 1, modify at 1.
    unfold mbind at 1, M_bind at 1, onNodes at 1, setLeafHash.
    unfold mbind at 1, M_bind at 1.
    cbn [nodes set_leafData]. rewrite Hn. cbn [deref].
    unfold modify at 1. fold ns1.
    unfold mbind at 1, M_bind at 1, onNodes at 1.
    cbn [nodes set_nodes]. by rewrite Hup. }
  split_and!.
  - apply countUpdates_returns.
  - by rewrite (proj2 (countUpdates_nodes _ _)).
  - by rewrite (proj1 (countUpdates_nodes _ _)).
  - intros p Hpar Hne. rewrite (proj1 (countUpdates_nodes _ _)). cbn [nodes set_nodes].
    assert (root ∈ [root]) as Hr by apply list_elem_of_singleton, eq_refl.
    pose proof (roots_valid _ _ Hs root Hr) as Hrlt.
    apply lookup_lt_is_Some in Hrlt as [rn Hrn].
    assert (Z.to_nat i ≠ root) as Hir.
    { intros Heq. rewrite Heq in Hn.
      pose proof (shape_ok_root_parent _ _ _ _ Hs Hr Hn). congruence. }
    assert (ns1 !! root = Some rn) as Hrn1
      by (unfold ns1; by rewrite list_lookup_insert_ne).
    rewrite Hrn. apply (Hstale p rn); [done|done|].
    destruct (isLeaf rn) eqn:Hleaf.
    { (* the root of a walk from a node with a parent is internal *)
      exfalso.
      destruct (ancestorsLoop_chain _ root Hs (length (nodes t))
                  (Z.to_nat i) n [] (S (length (nodes t))) Hn)
        as (chain & _ & Hint & Htop); [lia..|].
      rewrite Hpar in Htop. destruct Htop as (mid & -> & _).
      eapply Forall_lookup_1 with (i := length mid) in Hint;
        [|by rewrite lookup_app_r, Nat.sub_diag by done].
      rewrite Hrn in Hint. simpl in Hint. congruence. }
    rewrite (Hh root rn Hrn Hleaf). f_equal. symmetry.
    apply nodeHashes_ext. intros c Hc. unfold ns1.
    rewrite list_lookup_insert_ne; [done|]. intros <-.
    destruct (children_ok _ _ Hs root rn _ Hrn Hleaf Hc) as (cn & Hcn & Hcp).
    congruence.
Qed.
End ancestors.

(** ** The fuel of the bounded loops is never used up

    Running out of fuel stands for a loop that does not end.  The loops
    of [build] and the sweep of [batchUpdate] always end; the fuel they
    are given is enough on every state.  Only the walks along [parent]
    can go on for ever, on an array whose parent fields form a cycle. *)

Section termination.
  Context `{HP : HashPrimitive}.

Lemma combineLoop_ends hashes : ∀ i combined,
  combineLoop hashes i combined ≠ Diverge.
Proof.
  induction hashes as [|h hashes IH]; intros i combined; [done|].
  cbn [combineLoop]. destruct h as [h|]; [|done]. cbn [deref mbind completion_bind].
  unfold typedArraySet. case_decide; [|done]. apply IH.
Qed.

Lemma hashChunk_ends ns chunk : hashChunk ns chunk ≠ Diverge.
Proof.
  unfold hashChunk.
  assert (childHashesOf ns chunk ≠ Diverge) as Hc.
  { induction chunk as [|id chunk IH]; [done|]. cbn [childHashesOf].
    destruct (ns !! id); [|done]. cbn [deref mbind completion_bind].
    by destruct (childHashesOf ns chunk). }
  destruct (childHashesOf ns chunk) as [hs| |]; [|done..].
  cbn [mbind completion_bind]. unfold combineHashes.
  pose proof (combineLoop_ends hs 0 (replicate (length hs * 32) x00%byte)).
  by destruct (combineLoop _ _ _).
Qed.

Lemma recomputeNodeHash_ends id (ns : list InternalNode) :
  (recomputeNodeHash id ns).2 ≠ Diverge
  ∧ length (recomputeNodeHash id ns).1 = length ns
  ∧ ((recomputeNodeHash id ns).2 = Return () → id < length ns).
Proof.
  unfold recomputeNodeHash. case_decide; [done|].
  destruct (ns !! id) as [n|]; [|done].
  destruct (isLeaf n); [split_and!; [done|done|lia]|].
  pose proof (hashChunk_ends ns (children n)).
  destruct (hashChunk ns (children n)); [|done..].
  simpl. split_and!; [done|by rewrite length_insert|lia].
Qed.

Lemma bounded_NoDup_length (l : list nat) n :
  NoDup l → (∀ x, x ∈ l → x < n) → length l ≤ n.
Proof.
  intros Hnd Hlt. transitivity (length (seq 0 n)); [|by rewrite length_seq].
  apply submseteq_length, NoDup_submseteq; [done|].
  intros x Hx. apply elem_of_seq. specialize (Hlt x Hx). lia.
Qed.

Lemma sweep_ends fuel : ∀ queue seen (ns : list InternalNode),
  NoDup seen → (∀ x, x ∈ seen → x < length ns) →
  length queue + (length ns - length seen) < fuel →
  (sweep fuel queue seen ns).2 ≠ Diverge.
Proof.
  induction fuel as [|fuel IH]; intros queue seen ns Hnd Hseen Hfuel; [lia|].
  cbn [sweep]. destruct queue as [|id queue]; [done|].
  cbn [length] in Hfuel. case_decide as Hin.
  { apply IH; [done..|lia]. }
  destruct (recomputeNodeHash_ends id ns) as (Hnd' & Hlen & Hid).
  unfold mbind at 1, M_bind at 1.
  destruct (recomputeNodeHash id ns) as [ns' [[]|e|]]; [|done..].
  simpl in Hlen, Hid. specialize (Hid eq_refl).
  unfold mbind at 1, M_bind at 1.
  destruct (ns' !! id) as [n|]; [|done]. cbn [deref].
  assert (NoDup (id :: seen)) as Hnd2 by (by constructor).
  assert (∀ x, x ∈ id :: seen → x < length ns') as Hseen2.
  { intros x [->|Hx]%elem_of_cons; rewrite Hlen; [done|by apply Hseen]. }
  pose proof (bounded_NoDup_length _ _ Hnd2 Hseen2) as Hbound.
  cbn [length] in Hbound.
  destruct (parent n) as [p|]; apply IH; try done;
    rewrite ?length_app; cbn [length]; lia.
Qed.

Lemma serialLayer_count chunks : ∀ next (ns ns' : list InternalNode) next',
  serialLayer chunks next ns = (ns', Return next') →
  length next' = length next + length chunks.
Proof.
  induction chunks as [|chunk chunks IH]; intros next ns ns' next'.
  { intros [= _ <-]. simpl. lia. }
  cbn [serialLayer]. unfold mbind at 1, M_bind at 1.
  destruct (hashChunk ns chunk) as [h| |]; [|done..].
  unfold mbind at 1, M_bind at 1.
  destruct (appendParent chunk h ns) as [ns1 [pid| |]]; [|done..].
  intros Hrun%IH. rewrite length_app in Hrun. simpl in *. lia.
Qed.

Lemma appendPrecomputed_count precomp :
  ∀ next (ns ns' : list InternalNode) next',
  appendPrecomputed precomp next ns = (ns', Return next') →
  length next' = length next + length precomp.
Proof.
  induction precomp as [|p precomp IH]; intros next ns ns' next'.
  { intros [= _ <-]. simpl. lia. }
  cbn [appendPrecomputed]. unfold mbind at 1, M_bind at 1.
  destruct (appendParent p.1 p.2 ns) as [ns1 [pid| |]]; [|done..].
  intros Hrun%IH. rewrite length_app in Hrun. simpl in *. lia.
Qed.

Lemma precompute_count ns chunks precomp :
  precompute ns chunks = Return precomp → length precomp = length chunks.
Proof.
  revert precomp. induction chunks as [|chunk chunks IH]; intros precomp.
  { by intros [= <-]. }
  cbn [precompute]. destruct (hashChunk ns chunk); [|done..].
  cbn [mbind completion_bind].
  destruct (precompute ns chunks) as [ps| |]; [|done..].
  intros [= <-]. simpl. by rewrite (IH ps).
Qed.

Lemma setParents_ends chunk pid : ∀ ns, (setParents chunk pid ns).2 ≠ Diverge.
Proof.
  induction chunk as [|cid chunk IH]; intros ns; [done|].
  cbn [setParents]. unfold mbind at 1, M_bind at 1.
  destruct (ns !! cid); [|done]. cbn [deref].
  unfold mbind at 1, M_bind at 1, modify. apply IH.
Qed.

Lemma appendParent_ends chunk h ns : (appendParent chunk h ns).2 ≠ Diverge.
Proof.
  unfold appendParent, mbind, M_bind, gets, modify.
  pose proof (setParents_ends chunk (length ns)
                (ns ++ [{| hash := h; children := chunk; isLeaf := false;
                           parent := None |}])) as Hs.
  by destruct (setParents _ _ _) as [ns' [[]|e|]].
Qed.

Lemma serialLayer_ends chunks : ∀ next ns,
  (serialLayer chunks next ns).2 ≠ Diverge.
Proof.
  induction chunks as [|chunk chunks IH]; intros next ns; [done|].
  cbn [serialLayer]. unfold mbind at 1, M_bind at 1.
  pose proof (hashChunk_ends ns chunk).
  destruct (hashChunk ns chunk) as [h| |]; [|done..].
  unfold mbind at 1, M_bind at 1.
  pose proof (appendParent_ends chunk h ns).
  destruct (appendParent chunk h ns) as [ns1 [pid| |]]; [|done..].
  apply IH.
Qed.

Lemma appendPrecomputed_ends precomp : ∀ next ns,
  (appendPrecomputed precomp next ns).2 ≠ Diverge.
Proof.
  induction precomp as [|p precomp IH]; intros next ns; [done|].
  cbn [appendPrecomputed]. unfold mbind at 1, M_bind at 1.
  pose proof (appendParent_ends p.1 p.2 ns).
  destruct (appendParent p.1 p.2 ns) as [ns1 [pid| |]]; [|done..].
  apply IH.
Qed.

Lemma precompute_ends ns chunks : precompute ns chunks ≠ Diverge.
Proof.
  induction chunks as [|chunk chunks IH]; [done|].
  cbn [precompute]. pose proof (hashChunk_ends ns chunk).
  destruct (hashChunk ns chunk); [|done..]. cbn [mbind completion_bind].
  by destruct (precompute ns chunks).
Qed.

Lemma bottomUp_ends c fuel : ∀ current ns,
  length current ≤ fuel → 0 < fuel →
  (bottomUp fuel c current ns).2 ≠ Diverge.
Proof.
  induction fuel as [|fuel IH]; intros current ns Hfuel Hpos; [lia|].
  cbn [bottomUp]. case_decide as Hlen; [|done].
  pose proof (chunkBy_count current Hlen) as Hcount.
  unfold mbind at 1, M_bind at 1.
  case_decide.
  - unfold parallelLayer. unfold mbind at 1, M_bind at 1.
    pose proof (precompute_ends ns (chunkBy current 3)) as Hp.
    destruct (precompute ns (chunkBy current 3)) as [precomp| |] eqn:Hpre;
      [|done..].
    apply precompute_count in Hpre.
    pose proof (appendPrecomputed_ends precomp [] ns) as Ha.
    destruct (appendPrecomputed precomp [] ns) as [ns' [next| |]] eqn:Hrun;
      [|done..].
    apply appendPrecomputed_count in Hrun. simpl in Hrun.
    apply IH; lia.
  - pose proof (serialLayer_ends (chunkBy current 3) [] ns) as Hs.
    destruct (serialLayer (chunkBy current 3) [] ns) as [ns' [next| |]]
      eqn:Hrun; [|done..].
    apply serialLayer_count in Hrun. simpl in Hrun.
    apply IH; lia.
Qed.

(** The sweep of [batchUpdate] starts with no node seen. *)
Lemma batchUpdate_sweep_ends affected (ns : list InternalNode) :
  (sweep (S (length affected + length ns)) affected [] ns).2 ≠ Diverge.
Proof.
  apply sweep_ends; [constructor|by intros x ?%elem_of_nil|simpl; lia].
Qed.
End termination.

(** ** Indices that are no integers *)

Section any_number.
Context `{HP : HashPrimitive}.

Lemma outOfRange_Int z n :
  AnyNumber.outOfRange (Int z) n = bool_decide (z < 0 ∨ n ≤ z)%Z.
Proof.
  unfold AnyNumber.outOfRange. cbn [number_lt number_ge].
  repeat case_bool_decide; cbn [orb]; try done; lia.
Qed.

(** With [leafCount] at 0 the range test lets NaN through and nothing
    else. *)
Lemma outOfRange_zero x : AnyNumber.outOfRange x 0 = false ↔ x = NaN.
Proof.
  unfold AnyNumber.outOfRange.
  destruct x as [z|m e| | |]; cbn [number_lt number_ge orb];
    (split; [|done]); try done.
  - repeat case_bool_decide; cbn [orb]; try done; lia.
  - rewrite Z.mul_0_l. repeat case_bool_decide; cbn [orb]; try done; lia.
Qed.

Lemma arrayIndex_Some x i :
  arrayIndex x = Some i ↔ x = Int (Z.of_nat i).
Proof.
  split; [|intros ->; cbn; rewrite decide_True by lia; by rewrite Nat2Z.id].
  destruct x as [z| | | |]; cbn; try done.
  case_decide; [|done]. intros [= <-]. by rewrite Z2Nat.id.
Qed.

Lemma arrayIndex_in_range x n :
  AnyNumber.outOfRange x n = false → arrayIndex x = None →
  ∀ z, x ≠ Int z.
Proof.
  intros Hr Hi z ->. rewrite outOfRange_Int in Hr.
  apply bool_decide_eq_false in Hr. cbn in Hi.
  case_decide; [done|lia].
Qed.

(** *** On integers the methods are the ones of the class *)

Lemma generateProof_Int t z :
  AnyNumber.generateProof t (Int z) = generateProof t z.
Proof.
  unfold AnyNumber.generateProof, generateProof.
  rewrite outOfRange_Int. by case_bool_decide; case_decide.
Qed.

Lemma verify_Int z data t :
  AnyNumber.verify (Int z) data t = verify z data t.
Proof.
  unfold AnyNumber.verify, verify.
  rewrite outOfRange_Int. by case_bool_decide; case_decide.
Qed.

Lemma writeLeaf_Int z data t :
  (0 ≤ z)%Z →
  AnyNumber.writeLeaf (Int z) data t
  = (modify (set_leafData (λ ld, arraySet ld (Z.to_nat z) data));;
     onNodes (setLeafHash (Z.to_nat z) (computeHash data))) t.
Proof.
  intros Hz. unfold AnyNumber.writeLeaf. cbn [arrayIndex].
  by rewrite decide_True.
Qed.

Lemma update_Int z data t :
  AnyNumber.update (Int z) data t = update z data t.
Proof.
  unfold AnyNumber.update, update.
  unfold mbind at 1 5, M_bind at 1 5, gets at 1 2.
  rewrite outOfRange_Int.
  case_bool_decide as Hr; case_decide; try done.
  assert (0 ≤ z)%Z as Hz by lia.
  unfold mbind at 1, M_bind at 1. rewrite (writeLeaf_Int _ _ _ Hz).
  cbn [arrayIndex]. rewrite decide_True by done.
  unfold mbind, M_bind, modify, lift. cbn [deref].
  by destruct (onNodes _ _) as [? [[]| |]].
Qed.

Lemma validateIndices_Int updates n :
  AnyNumber.validateIndices (prod_map Int id <$> updates) n
  = validateIndices updates n.
Proof.
  induction updates as [|[z d] updates IH]; [done|].
  cbn [fmap list_fmap prod_map fst snd AnyNumber.validateIndices
       validateIndices].
  rewrite outOfRange_Int, IH. by case_bool_decide; case_decide.
Qed.

Lemma validateIndices_nonneg updates n :
  validateIndices updates n = Return () →
  Forall (λ e, (0 ≤ e.1)%Z) updates.
Proof.
  induction updates as [|[z d] updates IH]; [done|].
  cbn [validateIndices]. case_decide; [done|].
  intros Hv. constructor; [cbn; lia|by apply IH].
Qed.

Lemma applyUpdates_Int updates :
  Forall (λ e, (0 ≤ e.1)%Z) updates →
  ∀ t, AnyNumber.applyUpdates (prod_map Int id <$> updates) t
       = applyUpdates updates t.
Proof.
  induction 1 as [|[z d] updates Hz _ IH]; intros t; [done|].
  cbn [fmap list_fmap prod_map fst snd AnyNumber.applyUpdates
       applyUpdates id].
  unfold mbind at 1, M_bind at 1. rewrite (writeLeaf_Int _ _ _ Hz).
  unfold mbind, M_bind, modify.
  destruct (onNodes _ _) as [t' [[]| |]]; [|done|done]. apply IH.
Qed.

Lemma collectAffected_Int updates ns :
  Forall (λ e, (0 ≤ e.1)%Z) updates →
  ∀ affected,
    AnyNumber.collectAffected (prod_map Int id <$> updates) ns affected
    = collectAffected updates ns affected.
Proof.
  induction 1 as [|[z d] updates Hz _ IH]; intros affected; [done|].
  cbn [fmap list_fmap prod_map fst snd AnyNumber.collectAffected
       collectAffected arrayIndex].
  cbn in Hz. rewrite decide_True by done. cbn [deref mbind completion_bind].
  destruct (collectAncestors _ _ _ _) as [a| |]; [|done|done].
  cbn. apply IH.
Qed.

Lemma batchUpdate_Int updates t :
  AnyNumber.batchUpdate (prod_map Int id <$> updates) t
  = batchUpdate updates t.
Proof.
  unfold AnyNumber.batchUpdate, batchUpdate.
  unfold mbind at 1 7, M_bind at 1 7, gets at 1 3.
  unfold mbind at 1 6, M_bind at 1 6, lift at 1 2.
  rewrite validateIndices_Int.
  destruct (validateIndices updates (leafCount t)) as [[]| |] eqn:Hv;
    [|done|done].
  apply validateIndices_nonneg in Hv.
  unfold mbind at 1 5, M_bind at 1 5. rewrite applyUpdates_Int by done.
  destruct (applyUpdates updates t) as [t' [[]| |]]; [|done|done].
  unfold mbind at 1 4, M_bind at 1 4.
  rewrite collectAffected_Int by done. by rewrite length_fmap.
Qed.
End any_number.

Section validation.
Context `{HP : HashPrimitive}.

(** [a[i] = x] leaves the other elements alone. *)
Lemma arraySet_lookup_eq {A} (a : list (option A)) i x :
  arraySet a i x !! i = Some (Some x).
Proof.
  unfold arraySet. case_decide as Hi.
  - by apply list_lookup_insert_eq.
  - rewrite lookup_app_r by lia.
    rewrite lookup_app_r by (rewrite length_replicate; lia).
    rewrite length_replicate.
    by replace (i - length a - (i - length a)) with 0 by lia.
Qed.

Lemma arraySet_lookup_ne {A} (a : list (option A)) i j x v :
  i ≠ j → a !! i = Some v → arraySet a j x !! i = Some v.
Proof.
  intros Hne Hv. unfold arraySet. case_decide.
  - by rewrite list_lookup_insert_ne.
  - by apply lookup_app_l_Some.
Qed.

(** The first pass of [batchUpdate]. *)
Lemma validateIndices_caught updates n idx data :
  (idx, data) ∈ updates → AnyNumber.outOfRange idx n = true →
  ∃ bad, bad ∈ updates.*1 ∧ AnyNumber.outOfRange bad n = true
    ∧ AnyNumber.validateIndices updates n
      = Throw (TMTError INVALID_INDEX (Some bad)).
Proof.
  intros Hin Hbad.
  induction updates as [|[i d] updates IH]; [by apply elem_of_nil in Hin|].
  cbn [AnyNumber.validateIndices fmap list_fmap fst].
  destruct (AnyNumber.outOfRange i n) eqn:Hi.
  { exists i. split; [left|done]. }
  destruct IH as (bad & ? & ? & ?).
  { apply elem_of_cons in Hin as [[= <- <-]|Hin]; [congruence|done]. }
  exists bad. split; [by right|done].
Qed.

Lemma validateIndices_passed updates n :
  (∀ e, e ∈ updates → AnyNumber.outOfRange e.1 n = false) →
  AnyNumber.validateIndices updates n = Return ().
Proof.
  induction updates as [|[i d] updates IH]; intros Hall; [done|].
  cbn [AnyNumber.validateIndices].
  pose proof (Hall (i, d) ltac:(left)) as Hi. cbn [fst] in Hi. rewrite Hi.
  apply IH. intros e He. apply Hall. by right.
Qed.

(** One entry of the second pass, at a key that names a node. *)
Lemma writeLeaf_node idx data t i :
  arrayIndex idx = Some i → i < length (nodes t) →
  ∃ t', AnyNumber.writeLeaf idx data t = (t', Return ())
    ∧ length (nodes t') = length (nodes t)
    ∧ leafData t' !! i = Some (Some data)
    ∧ hash <$> nodes t' !! i = Some (computeHash data)
    ∧ ∀ j, j ≠ i →
        (∀ v, leafData t !! j = Some v → leafData t' !! j = Some v)
        ∧ nodes t' !! j = nodes t !! j.
Proof.
  intros Hi Hlt. unfold AnyNumber.writeLeaf. rewrite Hi.
  destruct (lookup_lt_is_Some_2 _ _ Hlt) as [n Hn].
  unfold onNodes, setLeafHash, mbind, M_bind, modify.
  cbn [nodes set_leafData set_nodes leafData]. rewrite Hn. cbn [deref].
  eexists. split; [reflexivity|].
  cbn [nodes set_leafData set_nodes leafData].
  split_and!.
  - by rewrite length_insert.
  - apply arraySet_lookup_eq.
  - by rewrite list_lookup_insert_eq.
  - intros j Hj. split; [intros v; by apply arraySet_lookup_ne|].
    by rewrite list_lookup_insert_ne.
Qed.

(** The second pass stops at the first key that is no array index;
    the entries before it are written. *)
Lemma applyUpdates_stops k d post pre : ∀ t,
  Forall (λ e, ∃ i, arrayIndex e.1 = Some i ∧ i < length (nodes t)) pre →
  NoDup pre.*1 → arrayIndex k = None →
  ∃ t', AnyNumber.applyUpdates (pre ++ (k, d) :: post) t
        = (t', Throw TypeError)
    ∧ ∀ idx data i, (idx, data) ∈ pre → arrayIndex idx = Some i →
        leafData t' !! i = Some (Some data)
        ∧ hash <$> nodes t' !! i = Some (computeHash data).
Proof.
  assert (∀ pre t,
    Forall (λ e, ∃ i, arrayIndex e.1 = Some i ∧ i < length (nodes t)) pre →
    NoDup pre.*1 →
    ∃ t', AnyNumber.applyUpdates (pre ++ (k, d) :: post) t
          = (match arrayIndex k with
             | Some _ => AnyNumber.applyUpdates ((k, d) :: post) t'
             | None => (t', Throw TypeError)
             end)
      ∧ (∀ idx data i, (idx, data) ∈ pre → arrayIndex idx = Some i →
          leafData t' !! i = Some (Some data)
          ∧ hash <$> nodes t' !! i = Some (computeHash data))
      ∧ ∀ j, (∀ e, e ∈ pre → arrayIndex e.1 ≠ Some j) →
          (∀ v, leafData t !! j = Some v → leafData t' !! j = Some v)
          ∧ nodes t' !! j = nodes t !! j) as Hgen.
  { clear pre. induction pre as [|[idx data] pre IH]; intros t Hall Hnd.
    - exists t. split_and!.
      + cbn [app AnyNumber.applyUpdates]. unfold mbind, M_bind.
        destruct (arrayIndex k) eqn:Hk; [done|].
        unfold AnyNumber.writeLeaf. by rewrite Hk.
      + intros ??? Hin. by apply elem_of_nil in Hin.
      + done.
    - apply Forall_cons in Hall as [(i & Hi & Hlt) Hall]. cbn [fst] in Hi.
      cbn [fmap list_fmap fst] in Hnd. apply NoDup_cons in Hnd as [Hfresh Hnd].
      destruct (writeLeaf_node idx data t i Hi Hlt)
        as (t1 & Hrun & Hlen & Hld & Hh & Hother).
      destruct (IH t1) as (t' & Hrest & Hwritten & Hkept); [|done|].
      { rewrite Hlen. exact Hall. }
      exists t'. split_and!.
      + cbn [app AnyNumber.applyUpdates]. unfold mbind at 1, M_bind at 1.
        by rewrite Hrun.
      + intros idx' data' i' Hin Hi'.
        apply elem_of_cons in Hin as [[= -> ->]|Hin]; [|by eauto].
        assert (i' = i) as -> by congruence.
        destruct (Hkept i) as [Hkl Hkn].
        { intros e He Hei. apply Hfresh.
          apply arrayIndex_Some in Hi as ->. apply arrayIndex_Some in Hei.
          by apply (list_elem_of_fmap_2' fst _ e). }
        split; [by apply Hkl|by rewrite Hkn].
      + intros j Hj.
        assert (j ≠ i) as Hne.
        { intros ->. by apply (Hj (idx, data)); [left|]. }
        destruct (Hother j Hne) as [Hol Hon].
        destruct (Hkept j) as [Hkl Hkn].
        { intros e He. apply Hj. by right. }
        split; [intros v Hv; by apply Hkl, Hol|by rewrite Hkn]. }
  intros t Hall Hnd Hk.
  destruct (Hgen pre t Hall Hnd) as (t' & Hrun & Hwritten & _).
  rewrite Hk in Hrun. by exists t'.
Qed.
End validation.

Section unbuilt.
Context `{HP : HashPrimitive}.

(** What the proof walk can throw. *)
Lemma siblingsOf_throws ns cs pos : ∀ i e,
  siblingsOf ns cs pos i = Throw e → e = TypeError.
Proof.
  induction cs as [|cid cs IH]; intros i e; [done|].
  cbn [siblingsOf]. case_decide; [by apply IH|].
  destruct (ns !! cid) as [cn|]; cbn; [|by intros [= <-]].
  destruct (siblingsOf ns cs pos (S i)) as [sibs|e'|] eqn:Hs; cbn;
    [done| |done].
  intros [= <-]. by eapply IH.
Qed.

Lemma proofLoop_throws ns fuel : ∀ cur sibs path e,
  proofLoop fuel ns cur sibs path = Throw e →
  e = TypeError ∨ e = TMTError MISSING_PARENT None.
Proof.
  induction fuel as [|fuel IH]; intros cur sibs path e; [done|].
  cbn [proofLoop].
  destruct (nodeAt ns cur) as [n|]; cbn; [|intros [= <-]; by left].
  destruct (parent n) as [pid|]; [|done].
  destruct (ns !! pid) as [pn|]; cbn; [|intros [= <-]; by left].
  destruct (findPos (children pn) cur 0) as [pos|];
    [|intros [= <-]; by right].
  destruct (siblingsOf ns (children pn) pos 0) as [level|e'|] eqn:Hs; cbn;
    [by apply IH| |done].
  intros [= <-]. left. by eapply siblingsOf_throws.
Qed.

Lemma generateProof_throws t i e :
  AnyNumber.generateProof t i = Throw e →
  e = TMTError INVALID_INDEX (Some i) ∨ e = TypeError
  ∨ e = TMTError MISSING_PARENT None.
Proof.
  unfold AnyNumber.generateProof.
  destruct (AnyNumber.outOfRange i (leafCount t)); [intros [= <-]; by left|].
  destruct i as [z| | | |]; try (intros [= <-]; right; by left).
  unfold generateProofInternal.
  destruct (proofLoop _ _ _ _ _) as [r|e'|] eqn:Hp; cbn; [done| |done].
  intros [= <-]. right. by eapply proofLoop_throws.
Qed.
End unbuilt.

(** * The claims *)

Section claims.
  Context `{HP : HashPrimitive}.

Lemma leafLayer_lookup_block blocks i d :
  blocks !! i = Some d →
  leafLayer blocks !! i = Some (leafNode (computeHash d)).
Proof.
  intros Hd. unfold leafLayer, padded.
  by rewrite list_lookup_fmap, (lookup_app_l_Some _ _ _ _ Hd).
Qed.

Lemma built_leaf blocks t i d :
  built blocks t → blocks !! i = Some d →
  ∃ n, nodes t !! i = Some n ∧ hash n = computeHash d ∧ isLeaf n = true.
Proof.
  intros Hb Hd. destruct (built_leaves _ _ Hb) as (_ & Hold & _).
  destruct (Hold i _ (leafLayer_lookup_block _ _ _ Hd))
    as (n & Hn & Hh & _ & Hl).
  eauto.
Qed.

Lemma countVerification_then {A} (a : A) t :
  ((countVerification;; mret a) t).2 = Return a.
Proof.
  unfold mbind, M_bind, countVerification.
  by destruct (enableMetrics (cfg t)).
Qed.

(** C1: [update] recomputes the ancestors from the root down to the
    leaf's parent, so above the parent it combines digests that are
    not recomputed yet.  On a built tree, at a leaf whose parent is not
    the root (every leaf, once there are more than three blocks),
    [update] returns and leaves the root hash as it was before the
    call, whatever the new content: it is not the root hash of a fresh
    build over the updated contents. *)
Theorem update_root_stale (t0 t : TernaryMeshTree) (blocks : list bytes)
    (i : nat) (n : InternalNode) (p root : NodeID) (data : bytes) :
  reachable t0 → build blocks t0 = (t, Return ()) → i < length blocks →
  nodes t !! i = Some n → parent n = Some p →
  rootID t = Some root → p ≠ root →
  (update (Z.of_nat i) data t).2 = Return ()
  ∧ getRootHash (update (Z.of_nat i) data t).1 = getRootHash t.
Proof.
  intros Hc%reachable_cache_ok Hrun Hi Hn Hpar Hroot Hne.
  assert (blocks ≠ []) as Hblocks by (intros ->; simpl in Hi; lia).
  destruct (build_spec blocks t0 Hblocks Hc) as (t' & Hrun' & Hb & _).
  assert (t' = t) as -> by congruence.
  destruct (built_root _ _ Hb) as (root' & Hroot' & Hs).
  assert (root' = root) as -> by congruence.
  destruct (update_ok t root (Z.of_nat i) n data Hroot Hs (built_hash _ _ Hb))
    as (Hret & Hroot2 & _ & Hstale).
  { rewrite (built_leafCount _ _ Hb). lia. }
  { by rewrite Nat2Z.id. }
  split; [done|]. unfold getRootHash.
  by rewrite Hroot2, Hroot, (Hstale p Hpar Hne).
Qed.

(** C4: after [build] of a non-empty block sequence, on any instance a
    program can hold, [verify] of every original index against its
    original content returns [[true, null]], and against any content
    with another digest returns [[false, null]]. *)
Theorem verify_after_build (t0 : TernaryMeshTree) (blocks : list bytes) :
  reachable t0 → blocks ≠ [] →
  ∃ t, build blocks t0 = (t, Return ()) ∧ verify_sound blocks t.
Proof.
  intros Hc%reachable_cache_ok Hne.
  destruct (build_spec blocks t0 Hne Hc) as (t & Hrun & Hb & _).
  exists t. split; [done|]. intros i d Hd.
  destruct (built_leaf _ _ _ _ Hb Hd) as (n & Hn & Hh & _).
  destruct (built_root _ _ Hb) as (root & Hroot & Hs).
  pose proof (lookup_lt_Some _ _ _ Hd) as Hi.
  assert (∀ d', verify (Z.of_nat i) d' t
    = if negb (hashesEqual (hash n) (computeHash d'))
      then (countVerification;; mret (false, None)) t
      else match (proof ← generateProofInternal t (Z.of_nat i);
                  verifyProofInternal t proof (computeHash d') root) with
           | Return ok => (countVerification;; mret (ok, None)) t
           | Throw e => (t, Return (false, Some e))
           | Diverge => (t, Diverge)
           end) as Hverify.
  { intros d'. unfold verify.
    rewrite decide_False by (rewrite (built_leafCount _ _ Hb); lia).
    by rewrite Hroot, nodeAt_of_nat, Hn. }
  split.
  - rewrite Hverify, Hh.
    rewrite (proj2 (hashesEqual_true _ _) eq_refl). cbn [negb].
    destruct (generated_proof_verifies t root i n Hroot Hs
                (built_hash _ _ Hb) Hn) as (proof & -> & Hver).
    cbn [mbind completion_bind]. rewrite <-Hh, Hver.
    apply countVerification_then.
  - intros d' Hd'. rewrite Hverify.
    rewrite (proj2 (hashesEqual_false _ _)) by congruence. cbn [negb].
    apply countVerification_then.
Qed.

(** C9: after a successful [build] over [n] blocks the leaves are the
    first [m] nodes, where [m], a multiple of 3, is the length of the
    leaf-data array and [n ≤ m < n + 3]; the leaves from [n] on are
    padding, holding the empty byte sequence and its digest; and
    [leafCount] is [n]. *)
Theorem build_leaf_layer (t0 t : TernaryMeshTree) (blocks : list bytes) :
  build blocks t0 = (t, Return ()) → leaf_layer_ok blocks t.
Proof.
  intros Hrun.
  destruct (build_returns _ _ _ Hrun) as (Hcount & Hdata & hs & Hhs & Hf).
  destruct Hf as (_ & Hold & Hnew).
  unfold leaf_layer_ok. cbn zeta. rewrite Hdata, length_fmap.
  rewrite length_app, length_fmap, length_replicate, Hhs in Hnew.
  assert (padCount (length blocks) < 3) as Hpad
    by (apply Nat.mod_upper_bound; lia).
  assert (length (padded blocks) = length blocks + padCount (length blocks))
    as Hm by (unfold padded; by rewrite length_app, length_replicate).
  split_and!.
  - apply padded_length_mod.
  - lia.
  - lia.
  - done.
  - intros i Hi.
    destruct (lookup_lt_is_Some_2
                ((leafNode <$> hs) ++ replicate (padCount (length blocks))
                                        (leafNode (computeHash []))) i)
      as [l Hl].
    { rewrite length_app, length_fmap, length_replicate. lia. }
    destruct (Hold i l Hl) as (nd & Hnd & _ & _ & Hleaf).
    exists nd. split; [done|]. rewrite Hleaf.
    apply lookup_app_Some in Hl as [Hl|[_ Hl]].
    + by apply list_lookup_fmap_Some in Hl as (h & -> & _).
    + by apply lookup_replicate in Hl as [-> _].
  - intros i nd Hi Hnd. eapply Hnew; [|done]. lia.
  - intros i [Hi1 Hi2].
    assert (padded blocks !! i = Some []) as Hp.
    { unfold padded. rewrite lookup_app_r by done.
      apply lookup_replicate_2. lia. }
    split; [by rewrite list_lookup_fmap, Hp|].
    destruct (Hold i (leafNode (computeHash [])))
      as (nd & Hnd & Hh & _); [|by eauto].
    rewrite lookup_app_r by (rewrite length_fmap; lia).
    apply lookup_replicate_2. rewrite length_fmap. lia.
Qed.

(** C7: [batchUpdate] first tests every key with
    [idx < 0 || idx >= this.leafCount].  When the test catches a key,
    the call throws [invalid index] for the first such key and leaves
    the tree as it was.  The test is false at NaN, whatever [leafCount]
    is, and at a fraction between [0] and [leafCount].  When no key is
    caught and some key is no array index, the entries before the first
    such key are written (leaf data and leaf digest, their ancestors
    left as they were) and the call throws a [TypeError]. *)
Theorem batchUpdate_validation_gap (t : TernaryMeshTree)
    (updates : list (number * bytes)) :
  (∀ idx data,
     (idx, data) ∈ updates → AnyNumber.outOfRange idx (leafCount t) = true →
     ∃ bad, bad ∈ updates.*1
       ∧ AnyNumber.outOfRange bad (leafCount t) = true
       ∧ AnyNumber.batchUpdate updates t
         = (t, Throw (TMTError INVALID_INDEX (Some bad))))
  ∧ AnyNumber.outOfRange NaN (leafCount t) = false
  ∧ (∀ pre k d post,
       updates = pre ++ (k, d) :: post →
       (∀ e, e ∈ updates → AnyNumber.outOfRange e.1 (leafCount t) = false) →
       Forall (λ e, ∃ i, arrayIndex e.1 = Some i ∧ i < length (nodes t)) pre →
       NoDup pre.*1 → arrayIndex k = None →
       ∃ t', AnyNumber.batchUpdate updates t = (t', Throw TypeError)
         ∧ ∀ idx data i, (idx, data) ∈ pre → arrayIndex idx = Some i →
             leafData t' !! i = Some (Some data)
             ∧ hash <$> nodes t' !! i = Some (computeHash data)).
Proof.
  split_and!.
  - intros idx data Hin Hbad.
    destruct (validateIndices_caught _ _ _ _ Hin Hbad) as (bad & ? & ? & Hv).
    exists bad. do 2 (split; [done|]).
    unfold AnyNumber.batchUpdate, mbind, M_bind, gets, lift. by rewrite Hv.
  - done.
  - intros pre k d post -> Hpass Hpre Hnd Hk.
    destruct (applyUpdates_stops k d post pre t Hpre Hnd Hk)
      as (t' & Hrun & Hwritten).
    exists t'. split; [|done].
    unfold AnyNumber.batchUpdate.
    unfold mbind at 1, M_bind at 1, gets at 1.
    unfold mbind at 1, M_bind at 1, lift at 1.
    rewrite (validateIndices_passed _ _ Hpass).
    unfold mbind at 1, M_bind at 1. by rewrite Hrun.
Qed.

Lemma same_shape_keeps t t' : same_shape t t' → keeps_shape t t'.
Proof.
  intros (Hsk & Hr & Hl & _). unfold same_skeleton in Hsk.
  split_and!; [|..|done|done].
  - by rewrite <-(length_fmap skeleton), Hsk, length_fmap.
  - intros id n Hn.
    assert ((skeleton <$> nodes t') !! id = Some (skeleton n)) as Hn'
      by (by rewrite Hsk, list_lookup_fmap, Hn).
    apply list_lookup_fmap_Some in Hn' as (n' & Heq & Hn').
    exists n'. split; [done|]. unfold skeleton in Heq. by simplify_eq.
Qed.

(** C10: [update] and [batchUpdate] write digests and leaf data only.
    On every tree and whatever the call does (so for every call that
    succeeds on a built tree), the node array keeps its length, every
    node keeps its position, children, leaf flag and parent, and
    [rootID] and [leafCount] stay as they were. *)
Theorem update_keeps_shape (t : TernaryMeshTree) :
  (∀ leafIndex newData, keeps_shape t (update leafIndex newData t).1)
  ∧ (∀ updates, keeps_shape t (batchUpdate updates t).1).
Proof.
  split; intros; apply same_shape_keeps;
    [apply update_shape|apply batchUpdate_shape].
Qed.
End claims.

(** ** Runs on a sample tree

    Four blocks make six leaves (two of them padding), two internal
    nodes 6 and 7 above them, and the root 8. *)

Example sampleTree_skeleton :
  skeleton <$> nodes sampleTree
  = [([], true, Some 6); ([], true, Some 6); ([], true, Some 6);
     ([], true, Some 7); ([], true, Some 7); ([], true, Some 7);
     ([0; 1; 2], false, Some 8); ([3; 4; 5], false, Some 8);
     ([6; 7], false, None)].
Proof. vm_compute. reflexivity. Qed.

Lemma sampleTree_built :
  build (HP:=mixPrimitive) sampleBlocks (newTree defaultConfig)
  = (sampleTree, Return ()).
Proof. vm_compute. reflexivity. Qed.

(** [update(2, "x")] on the sample tree: leaf 2 has node 6 as parent and
    node 8 is the root.  The call returns and the root hash is the one
    from before the call; it is not the root hash of a fresh build over
    the updated contents, and [verify] of the new content at index 2
    answers [[false, null]]. *)
Lemma update_root_stale_witness :
  let r := update (HP:=mixPrimitive) (Z.of_nat 2) (block "x") sampleTree in
  let fresh := sampleBuild (<[2 := block "x"]> sampleBlocks) in
  (reachable (HP:=mixPrimitive) (newTree defaultConfig)
   ∧ build (HP:=mixPrimitive) sampleBlocks (newTree defaultConfig)
     = (sampleTree, Return ())
   ∧ 2 < length sampleBlocks
   ∧ nodes sampleTree !! 2
     = Some {| hash := computeHash (HP:=mixPrimitive) (block "c");
               children := []; isLeaf := true; parent := Some 6 |}
   ∧ rootID sampleTree = Some 8 ∧ 6 ≠ 8)
  ∧ (r.2 = Return () ∧ getRootHash r.1 = getRootHash sampleTree)
  ∧ getRootHash r.1 ≠ getRootHash fresh
  ∧ (verify (HP:=mixPrimitive) 2 (block "x") r.1).2 = Return (false, None).
Proof.
  cbv zeta.
  assert (nodes sampleTree !! 2
          = Some {| hash := computeHash (HP:=mixPrimitive) (block "c");
                    children := []; isLeaf := true; parent := Some 6 |})
    as Hleaf by (vm_compute; reflexivity).
  assert (rootID sampleTree = Some 8) as Hroot by (vm_compute; reflexivity).
  assert (2 < length sampleBlocks) as Hlt by (vm_compute; lia).
  split; [split_and!; [apply reach_new|apply sampleTree_built|done..]|].
  split.
  { exact (update_root_stale (HP:=mixPrimitive) _ _ _ 2 _ 6 8 (block "x")
             (reach_new defaultConfig) sampleTree_built Hlt Hleaf eq_refl
             Hroot ltac:(done)). }
  split; [vm_compute; discriminate|vm_compute; reflexivity].
Defined.

(** C2: [batchUpdate] queues every ancestor of the updated leaves in the
    order it met them and recomputes each once, so a node met before a
    descendant of it is recomputed from a stale digest.  On the sample
    tree, updating leaves 0 and 3 returns, the root hash is not that of
    a fresh build over the updated contents, and the two iteration
    orders of the same mapping end in different root hashes. *)
Theorem batchUpdate_root_stale :
  let r1 := batchUpdate (HP:=mixPrimitive)
              [(0%Z, block "x"); (3%Z, block "y")] sampleTree in
  let r2 := batchUpdate (HP:=mixPrimitive)
              [(3%Z, block "y"); (0%Z, block "x")] sampleTree in
  let fresh := sampleBuild [block "x"; block "b"; block "c"; block "y"] in
  r1.2 = Return () ∧ r2.2 = Return ()
  ∧ leafData r1.1 = leafData fresh ∧ leafData r2.1 = leafData fresh
  ∧ getRootHash r1.1 ≠ getRootHash fresh
  ∧ getRootHash r2.1 ≠ getRootHash fresh
  ∧ getRootHash r1.1 ≠ getRootHash r2.1.
Proof. vm_compute. split_and!; try reflexivity; discriminate. Qed.

(** C3: [verifyProofInternal] reads [this.nodes[proof.leafIndex].parent]
    without checking that the index names a node.  On a built tree, a
    proof whose leaf index lies outside the node array and whose path
    length is not zero makes [verifyProof] throw a [TypeError] instead of
    returning [[false, null]]. *)
Theorem verifyProof_stray_index `{HP : HashPrimitive} (t : TernaryMeshTree)
    (proof : VerificationProof) (data : bytes) :
  rootID t ≠ None → pathLength proof ≠ 0 →
  nodeAt (nodes t) (leafIndex proof) = None →
  verifyProof t proof data = Throw TypeError.
Proof.
  intros Hroot Hpath Hidx. unfold verifyProof, verifyProofInternal.
  destruct (rootID t) as [root|]; [|done].
  destruct (pathLength proof) as [|steps]; [done|].
  cbn [verifyLoop]. by rewrite Hidx.
Qed.

Lemma verifyProof_stray_index_witness :
  let proof := {| leafIndex := 9; siblingHashes := []; pathLength := 1 |} in
  rootID sampleTree ≠ None ∧ pathLength proof ≠ 0
  ∧ nodeAt (nodes sampleTree) (leafIndex proof) = None
  ∧ verifyProof (HP:=mixPrimitive) sampleTree proof (block "a")
    = Throw TypeError.
Proof.
  assert (rootID sampleTree ≠ None) as Hroot by (vm_compute; discriminate).
  assert (nodeAt (nodes sampleTree) 9 = None) as Hidx
    by (vm_compute; reflexivity).
  split_and!; [done|done|done|].
  by apply (verifyProof_stray_index (HP:=mixPrimitive)).
Defined.

(** C6, as the claim states it, fails: the cache is a field of the
    instance and [build] does not clear it.  After a first build of one
    block on a new instance, the state in which a second [build] starts
    holds that block's entry. *)
Lemma cache_kept_across_builds :
  hashCache (sampleBuild [block "a"]) !! cacheKey (block "a")
  = Some (computeHash (HP:=mixPrimitive) (block "a")).
Proof. vm_compute. reflexivity. Qed.

(** C6, amended: the cache belongs to the instance.  A new instance
    starts with an empty cache; every [build] call keeps all the entries
    the cache held when the call started, and keeps every entry the
    digest of the content its key stands for. *)
Theorem cache_scoped_to_instance `{HP : HashPrimitive} :
  (∀ c, hashCache (newTree c) = ∅)
  ∧ (∀ blocks t, cache_grows t (build blocks t).1).
Proof. split; [done|]. intros blocks t. apply build_grows. Qed.

(** C8: of the reads that need a built tree, only [verifyProof] reports
    [tree is not initialized] whenever [rootID] is null.  [verify] tests
    the index first and reports [invalid index] for every index the
    test catches; [generateProof] has no test of [rootID]: it throws
    [invalid index] for an index the test catches and never throws
    [tree is not initialized].  On an instance that was never built
    [leafCount] is 0 and the test catches every number but NaN: there
    [verify] reports [invalid index] and [generateProof] throws it; at
    NaN [verify] reports [tree is not initialized] and [generateProof]
    throws a [TypeError]. *)
Theorem reads_before_build `{HP : HashPrimitive} (t : TernaryMeshTree) :
  rootID t = None →
  (∀ proof data,
     verifyProof t proof data
     = Return (false, Some (TMTError UNINITIALIZED None)))
  ∧ (∀ i data,
       AnyNumber.verify i data t
       = (t, Return (false,
            Some (if AnyNumber.outOfRange i (leafCount t)
                  then TMTError INVALID_INDEX (Some i)
                  else TMTError UNINITIALIZED None))))
  ∧ (∀ i, AnyNumber.outOfRange i (leafCount t) = true →
       AnyNumber.generateProof t i = Throw (TMTError INVALID_INDEX (Some i)))
  ∧ (∀ i d, AnyNumber.generateProof t i ≠ Throw (TMTError UNINITIALIZED d))
  ∧ (∀ c i data,
       rootID (newTree c) = None
       ∧ AnyNumber.verify i data (newTree c)
         = (newTree c,
            Return (false,
              Some (match i with
                    | NaN => TMTError UNINITIALIZED None
                    | _ => TMTError INVALID_INDEX (Some i)
                    end)))
       ∧ AnyNumber.generateProof (newTree c) i
         = Throw (match i with
                  | NaN => TypeError
                  | _ => TMTError INVALID_INDEX (Some i)
                  end)).
Proof.
  intros Hroot. split_and!.
  - intros proof data. unfold verifyProof. by rewrite Hroot.
  - intros i data. unfold AnyNumber.verify.
    destruct (AnyNumber.outOfRange i (leafCount t)); [done|]. by rewrite Hroot.
  - intros i Hi. unfold AnyNumber.generateProof. by rewrite Hi.
  - intros i d Hthrow.
    by destruct (generateProof_throws _ _ _ Hthrow) as [?|[?|?]].
  - intros c i data. split; [done|].
    unfold AnyNumber.verify, AnyNumber.generateProof.
    cbn [newTree leafCount rootID].
    destruct (AnyNumber.outOfRange i 0) eqn:Hi.
    + by destruct i.
    + by apply outOfRange_zero in Hi as ->.
Qed.

(** A never-built instance, and an instance restored from a blob
    without root, without nodes and with a leaf count of 3: on the
    first [generateProof(0)] throws [invalid index], on the second the
    index passes the test and the walk throws a [TypeError], while
    [verify(0, "a")] reports [tree is not initialized]. *)
Lemma reads_before_build_witness :
  let rootless :=
    fromBlob {| sb_nodes := []; sb_leafData := []; sb_rootID := None;
                sb_leafCount := 3 |} defaultConfig in
  (rootID (newTree defaultConfig) = None
   ∧ AnyNumber.generateProof (newTree defaultConfig) (Int 0)
     = Throw (TMTError INVALID_INDEX (Some (Int 0)))
   ∧ AnyNumber.verify (HP:=mixPrimitive) (Int 0) (block "a")
       (newTree defaultConfig)
     = (newTree defaultConfig,
        Return (false, Some (TMTError INVALID_INDEX (Some (Int 0)))))
   ∧ AnyNumber.generateProof (newTree defaultConfig) NaN = Throw TypeError)
  ∧ rootID rootless = None
  ∧ AnyNumber.verify (HP:=mixPrimitive) (Int 0) (block "a") rootless
    = (rootless, Return (false, Some (TMTError UNINITIALIZED None)))
  ∧ AnyNumber.generateProof rootless (Int 0) = Throw TypeError.
Proof.
  cbv zeta.
  pose proof (reads_before_build (HP:=mixPrimitive) (newTree defaultConfig)
                eq_refl) as (_ & _ & _ & _ & Hnew).
  split; [split; [reflexivity|split_and!]|].
  - exact (proj2 (proj2 (Hnew defaultConfig (Int 0) (block "a")))).
  - exact (proj1 (proj2 (Hnew defaultConfig (Int 0) (block "a")))).
  - exact (proj2 (proj2 (Hnew defaultConfig NaN (block "a")))).
  - split; [reflexivity|]. split; [|reflexivity].
    exact (proj1 (proj2 (reads_before_build (HP:=mixPrimitive)
                           (fromBlob {| sb_nodes := []; sb_leafData := [];
                                        sb_rootID := None;
                                        sb_leafCount := 3 |} defaultConfig)
                           eq_refl))
             (Int 0) (block "a")).
Defined.

(** ** Instances of the theorems with hypotheses *)

Lemma verify_after_build_witness :
  reachable (HP:=mixPrimitive) (newTree defaultConfig)
  ∧ sampleBlocks ≠ []
  ∧ ∃ t, build (HP:=mixPrimitive) sampleBlocks (newTree defaultConfig)
         = (t, Return ())
       ∧ verify_sound (HP:=mixPrimitive) sampleBlocks t.
Proof.
  assert (sampleBlocks ≠ []) as Hne by discriminate.
  split_and!; [apply reach_new|done|].
  apply (verify_after_build (HP:=mixPrimitive)); [apply reach_new|done].
Defined.

Lemma build_leaf_layer_witness :
  build (HP:=mixPrimitive) sampleBlocks (newTree defaultConfig)
  = (sampleTree, Return ())
  ∧ leaf_layer_ok (HP:=mixPrimitive) sampleBlocks sampleTree.
Proof.
  split; [apply sampleTree_built|].
  exact (build_leaf_layer (HP:=mixPrimitive) _ _ _ sampleTree_built).
Defined.

(** [batchUpdate(new Map([[0, "x"], [NaN, "y"]]))] on the sample tree:
    both keys pass the test, leaf 0 is written, and the call throws a
    [TypeError] at the second entry, leaving the root hash of before
    over the new leaf.  With the key [Infinity] in place of NaN the test
    fires and nothing is written; the key [0.5] alone passes the test
    and ends in a [TypeError] as well. *)
Lemma batchUpdate_validation_gap_witness :
  let updates := [(Int 0, block "x"); (NaN, block "y")] in
  let r := AnyNumber.batchUpdate (HP:=mixPrimitive) updates sampleTree in
  (∃ t', r = (t', Throw TypeError)
     ∧ ∀ idx data i, (idx, data) ∈ [(Int 0, block "x")] →
         arrayIndex idx = Some i →
         leafData t' !! i = Some (Some data)
         ∧ hash <$> nodes t' !! i
           = Some (computeHash (HP:=mixPrimitive) data))
  ∧ leafData sampleTree !! 0 = Some (Some (block "a"))
  ∧ leafData r.1 !! 0 = Some (Some (block "x"))
  ∧ getRootHash r.1 = getRootHash sampleTree
  ∧ (verify (HP:=mixPrimitive) 0 (block "x") r.1).2 = Return (false, None)
  ∧ AnyNumber.batchUpdate (HP:=mixPrimitive)
      [(Int 0, block "x"); (Infinity, block "y")] sampleTree
    = (sampleTree, Throw (TMTError INVALID_INDEX (Some Infinity)))
  ∧ AnyNumber.batchUpdate (HP:=mixPrimitive) [(Frac 0 1, block "y")]
      sampleTree
    = (sampleTree, Throw TypeError).
Proof.
  cbv zeta. split_and!; try (vm_compute; reflexivity).
  apply (proj2 (proj2 (batchUpdate_validation_gap (HP:=mixPrimitive)
                         sampleTree [(Int 0, block "x"); (NaN, block "y")]))
           [(Int 0, block "x")] NaN (block "y") []); [done| | | |done].
  - intros e He. repeat (apply elem_of_cons in He as [->|He]);
      [done|done|by apply elem_of_nil in He].
  - apply Forall_singleton. exists 0. split; [done|]. vm_compute. lia.
  - apply NoDup_singleton.
Defined.

Lemma serialize_deserialize_witness :
  leafData sampleTree = Some <$> padded sampleBlocks
  ∧ ∃ text t', serialize (JC:=plainCodec) sampleTree = Return text
      ∧ deserialize (JC:=plainCodec) text defaultConfig = Return t'
      ∧ same_snapshot sampleTree t'.
Proof.
  assert (leafData sampleTree = Some <$> padded sampleBlocks) as Hld
    by (vm_compute; reflexivity).
  split; [done|].
  exact (serialize_deserialize (JC:=plainCodec) _ _ _ Hld).
Defined.

(** * Further properties of the code

    Properties of the methods read off the source: the hash utilities,
    [chunkBy], what [build] establishes, queries on a built tree, the
    counters, the hash cache, updates that return, the self-test, and the
    size of a built tree and of its proofs, proofs that were tampered
    with, and padding. *)

(** ** More on the hash utilities *)

Section hash_utilities_more.
Context `{HP : HashPrimitive}.

Lemma pad32_length h : length h ≤ 32 → length (pad32 h) = 32.
Proof. intros. unfold pad32. rewrite length_app, length_replicate. lia. Qed.

Lemma combineLoop_padded hs : ∀ i pre,
  Forall (λ h, length h ≤ 32) hs →
  length pre = i * 32 →
  combineLoop (Some <$> hs) i (pre ++ replicate (length hs * 32) x00%byte)
  = Return (pre ++ concat (pad32 <$> hs)).
Proof.
  induction hs as [|h hs IH]; intros i pre Hsz Hlen.
  - done.
  - apply Forall_cons in Hsz as [Hh Hsz]. cbn [fmap list_fmap combineLoop].
    cbn [deref mbind completion_bind]. unfold typedArraySet.
    rewrite decide_True
      by (rewrite length_app, length_replicate; simpl; lia).
    cbn [mbind completion_bind].
    rewrite take_app_length' by done.
    rewrite drop_app_ge by lia.
    rewrite drop_replicate.
    replace (length (h :: hs) * 32 - (i * 32 + length h - length pre))
      with ((32 - length h) + length hs * 32) by (simpl; lia).
    rewrite replicate_add.
    replace (pre ++ h ++ replicate (32 - length h) x00%byte
                 ++ replicate (length hs * 32) x00%byte)
      with ((pre ++ pad32 h) ++ replicate (length hs * 32) x00%byte)
      by (unfold pad32; by rewrite <-!(assoc_L (++))).
    rewrite IH; [|done|rewrite length_app, pad32_length by done; lia].
    cbn [concat]. by rewrite <-(assoc_L (++)).
Qed.

(** X1: [combineHashes] gives every hash a slot of 32 bytes in a
    zero-filled buffer: hashes of at most 32 bytes are hashed as their
    concatenation, each padded with zeros to 32 bytes.  For 32-byte
    hashes this is the digest of the plain concatenation. *)
Theorem combineHashes_slots (hs : list Hash) :
  Forall (λ h, length h ≤ 32) hs →
  combineHashes (Some <$> hs) = Return (blake3 (concat (pad32 <$> hs)))
  ∧ (Forall (λ h, length h = 32) hs → concat (pad32 <$> hs) = concat hs).
Proof.
  intros Hsz. split.
  - unfold combineHashes. rewrite length_fmap.
    pose proof (combineLoop_padded hs 0 [] Hsz eq_refl) as Hrun.
    simpl in Hrun. by rewrite Hrun.
  - intros Hfull. f_equal. clear Hsz.
    induction Hfull as [|h hs' Hh _ IH]; [done|].
    cbn [fmap list_fmap]. f_equal; [|done].
    unfold pad32. rewrite Hh. simpl. by rewrite app_nil_r.
Qed.

(** X2: [hashesEqual] compares byte arrays of any lengths: it answers
    [true] exactly for equal arrays. *)
Theorem hashesEqual_decides (a b : Hash) :
  if hashesEqual a b then a = b else a ≠ b.
Proof.
  destruct (hashesEqual a b) eqn:E.
  - by apply hashesEqual_true.
  - by apply hashesEqual_false.
Qed.
End hash_utilities_more.

Section hex.
Lemma hexPair_digits b :
  hexPair b
  = String (hexDigit (Byte.to_N b / 16))
      (String (hexDigit (Byte.to_N b mod 16)) "").
Proof. by destruct b. Qed.

Lemma hexPair_inj b1 b2 : hexPair b1 = hexPair b2 → b1 = b2.
Proof.
  pose (value := λ c : ascii,
    N.of_nat (default 0 (String.index 0 (String c "") "0123456789abcdef"))).
  pose (g := λ s : string,
    match s with
    | String c1 (String c2 _) => Byte.of_N (value c1 * 16 + value c2)
    | _ => None
    end).
  assert (∀ b, g (hexPair b) = Some b) as Hg by (by intros []).
  intros Heq. apply (f_equal g) in Heq. rewrite !Hg in Heq. congruence.
Qed.

Lemma hashToHex_cons b h : hashToHex (b :: h) = hexPair b +:+ hashToHex h.
Proof.
  unfold hashToHex. fold hexPair. cbn [map String.concat].
  destruct (map hexPair h) eqn:E; [by rewrite append_nil_r|done].
Qed.

Lemma hashToHex_step b h :
  hashToHex (b :: h)
  = String (hexDigit (Byte.to_N b / 16))
      (String (hexDigit (Byte.to_N b mod 16)) (hashToHex h)).
Proof. by rewrite hashToHex_cons, hexPair_digits. Qed.

(** X3: [hashToHex] writes two characters for every byte, and different
    byte arrays get different strings. *)
Theorem hashToHex_faithful (a b : Hash) :
  String.length (hashToHex a) = 2 * length a
  ∧ (hashToHex a = hashToHex b ↔ a = b).
Proof.
  split.
  - induction a as [|x a IH]; [done|].
    rewrite hashToHex_step. cbn [String.length length]. lia.
  - split; [|by intros ->].
    revert b. induction a as [|x a IH]; intros [|y b] Heq; [done|..];
      rewrite ?hashToHex_step in Heq; try done.
    injection Heq as H1 H2 Heq.
    assert (hexPair x = hexPair y) as Hxy
      by (by rewrite !hexPair_digits, H1, H2).
    by rewrite (hexPair_inj _ _ Hxy), (IH _ Heq).
Qed.
End hex.

(** ** Chunks *)

Section chunks.
Context {T : Type}.
Implicit Types arr : list T.

Lemma chunkLoop_lookup k fuel : ∀ arr i,
  0 < k → length arr ≤ fuel →
  chunkLoop fuel k arr !! i
  = if decide (i * k < length arr) then Some (take k (drop (i * k) arr))
    else None.
Proof.
  induction fuel as [|fuel IH]; intros arr i Hk Hfuel.
  { destruct arr; [|simpl in Hfuel; lia].
    cbn [chunkLoop]. case_decide; [simpl in *; lia|done]. }
  destruct arr as [|x arr].
  { cbn [chunkLoop]. case_decide; [simpl in *; lia|done]. }
  cbn [chunkLoop]. destruct i as [|i].
  { case_decide; [done|simpl in *; lia]. }
  cbn [lookup list_lookup].
  rewrite IH by (done || (rewrite length_drop; simpl in *; lia)).
  rewrite length_drop, drop_drop.
  replace (k + i * k) with (S i * k) by lia.
  repeat case_decide; try done; lia.
Qed.

Lemma chunkLoop_length k fuel : ∀ arr,
  0 < k → length arr ≤ fuel →
  length (chunkLoop fuel k arr) = (length arr + k - 1) / k.
Proof.
  induction fuel as [|fuel IH]; intros arr Hk Hfuel.
  { destruct arr; [|simpl in Hfuel; lia].
    simpl. symmetry. apply Nat.div_small. lia. }
  destruct arr as [|x arr].
  { simpl. symmetry. apply Nat.div_small. lia. }
  cbn [chunkLoop length].
  rewrite IH by (done || (rewrite length_drop; simpl in *; lia)).
  rewrite length_drop. cbn [length].
  destruct (decide (S (length arr) ≤ k)) as [Hle|Hgt].
  - replace (S (length arr) - k) with 0 by lia.
    rewrite (Nat.div_small (0 + k - 1)) by lia.
    apply (Nat.div_unique _ _ 1 (length arr)); lia.
  - replace (S (length arr) + k - 1)
      with ((S (length arr) - k + k - 1) + 1 * k) by lia.
    rewrite Nat.div_add by lia. lia.
Qed.

Lemma chunkBy_chunk arr (k j : nat) c :
  0 < k → chunkBy arr k !! j = Some c →
  c ≠ [] ∧ length c ≤ k ∧ c ⊆ arr.
Proof.
  intros Hk Hc. unfold chunkBy in Hc. rewrite decide_False in Hc by lia.
  rewrite chunkLoop_lookup in Hc by done.
  case_decide as Hlt; [|done]. injection Hc as <-. split_and!.
  - intros Hnil. apply (f_equal length) in Hnil.
    rewrite length_take, length_drop in Hnil. simpl in Hnil. lia.
  - rewrite length_take. lia.
  - etrans; [apply subseteq_take|apply subseteq_drop].
Qed.

Lemma chunkBy_length arr (k : nat) :
  0 < k → length (chunkBy arr k) = (length arr + k - 1) / k.
Proof.
  intros Hk. unfold chunkBy. rewrite decide_False by lia.
  by apply chunkLoop_length.
Qed.

(** X4: for a chunk size [k ≥ 1], [chunkBy arr k] cuts [arr] into
    [⌈arr.length / k⌉] consecutive pieces: piece [i] is
    [arr.slice(i * k, i * k + k)], it is never empty, and the pieces
    put together again give [arr]. *)
Theorem chunkBy_pieces arr (k : nat) :
  0 < k →
  concat (chunkBy arr k) = arr
  ∧ length (chunkBy arr k) = (length arr + k - 1) / k
  ∧ ∀ i, i < length (chunkBy arr k) →
      chunkBy arr k !! i = Some (take k (drop (i * k) arr))
      ∧ take k (drop (i * k) arr) ≠ [].
Proof.
  intros Hk. unfold chunkBy. rewrite decide_False by lia.
  split_and!.
  - by apply chunkLoop_concat.
  - by apply chunkLoop_length.
  - intros i Hi.
    pose proof (lookup_lt_is_Some_2 _ _ Hi) as [c Hc].
    rewrite chunkLoop_lookup in Hc by done.
    rewrite chunkLoop_lookup by done.
    case_decide as Hlt; [|done]. split; [done|].
    intros Hnil. apply (f_equal length) in Hnil.
    rewrite length_take, length_drop in Hnil. simpl in Hnil. lia.
Qed.
End chunks.

Lemma chunkBy_pieces_witness :
  0 < 3
  ∧ concat (chunkBy [1; 2; 3; 4; 5; 6; 7] 3) = [1; 2; 3; 4; 5; 6; 7]
  ∧ length (chunkBy [1; 2; 3; 4; 5; 6; 7] 3) = (7 + 3 - 1) / 3
  ∧ ∀ i, i < length (chunkBy [1; 2; 3; 4; 5; 6; 7] 3) →
      chunkBy [1; 2; 3; 4; 5; 6; 7] 3 !! i
      = Some (take 3 (drop (i * 3) [1; 2; 3; 4; 5; 6; 7]))
      ∧ take 3 (drop (i * 3) [1; 2; 3; 4; 5; 6; 7]) ≠ [].
Proof.
  split; [lia|]. exact (chunkBy_pieces [1; 2; 3; 4; 5; 6; 7] 3 ltac:(lia)).
Defined.

(** ** The tree [build] makes, as a function of the blocks *)

Section build_exact.
Context `{HP : HashPrimitive}.

Lemma serialLayer_exact chunks : ∀ next ns,
  shape_ok ns (concat chunks ++ next) → hash_ok ns →
  serialLayer chunks next ns
  = (addLayer ns chunks,
     Return (next ++ seq (length ns) (length chunks))).
Proof.
  unfold addLayer.
  induction chunks as [|chunk chunks IH]; intros next ns Hs Hh.
  - simpl. by rewrite app_nil_r.
  - simpl in Hs. rewrite <-(assoc_L (++)) in Hs.
    assert (Forall (λ c, c < length ns) chunk) as Hv.
    { apply Forall_forall. intros c Hc. apply (roots_valid _ _ Hs).
      apply elem_of_app. by left. }
    pose proof (withParent_shape _ _ _ Hs) as Hs'.
    pose proof (withParent_hash_ok _ _ _ Hs Hh) as Hh'.
    rewrite <-(assoc_L (++)) in Hs'.
    cbn [serialLayer foldl].
    unfold mbind at 1, M_bind at 1.
    rewrite hashChunk_valid by (done || apply (hash_size _ _ Hs)).
    unfold mbind at 1, M_bind at 1. rewrite appendParent_spec by done.
    rewrite (IH _ _ Hs' Hh'), withParent_length.
    cbn [length seq]. by rewrite <-(assoc_L (++)).
Qed.

Lemma layer_exact c current ns :
  shape_ok ns current → hash_ok ns →
  (if decide ((0 < parallelThreshold c)%Z
              ∧ (parallelThreshold c ≤ Z.of_nat (length current))%Z)
   then parallelLayer current
   else serialLayer (chunkBy current 3) []) ns
  = (addLayer ns (chunkBy current 3),
     Return (seq (length ns) (length (chunkBy current 3)))).
Proof.
  intros Hs Hh.
  assert (shape_ok ns (concat (chunkBy current 3) ++ [])) as Hs0
    by (by rewrite chunkBy_concat, app_nil_r).
  case_decide; [rewrite parallelLayer_serial by done|];
    by rewrite serialLayer_exact.
Qed.

Lemma bottomUp_exact c fuel : ∀ current ns,
  length current ≤ fuel → current ≠ [] →
  shape_ok ns current → hash_ok ns →
  bottomUp fuel c current ns
  = ((layers fuel current ns).1, Return (layers fuel current ns).2).
Proof.
  induction fuel as [|fuel IH]; intros current ns Hfuel Hne Hs Hh.
  { destruct current; [done|]. simpl in Hfuel. lia. }
  cbn [bottomUp layers]. case_decide as Hlen; [|done].
  pose proof Hs as Hs0.
  rewrite <-(chunkBy_concat current), <-(app_nil_r (concat _)) in Hs0.
  destruct (serialLayer_spec _ _ _ Hs0 Hh) as (ns1 & Hrun & Hs1 & Hh1 & _).
  rewrite serialLayer_exact in Hrun by done.
  injection Hrun as <-. simpl in Hs1.
  unfold mbind at 1, M_bind at 1. rewrite layer_exact by done.
  apply IH; [| |done|done].
  - rewrite length_seq. pose proof (chunkBy_count current Hlen). lia.
  - destruct (chunkBy current 3) eqn:E; [|done].
    by apply chunkBy_nil_iff in E.
Qed.

Lemma sumLengths_exact (l : list bytes) : ∀ total,
  sumLengths (Some <$> l) total = Return (total + sum_list (length <$> l)).
Proof.
  induction l as [|d l IH]; intros total; cbn [sumLengths fmap list_fmap].
  - simpl. by rewrite Nat.add_0_r.
  - cbn [deref mbind completion_bind]. rewrite IH. f_equal. simpl. lia.
Qed.

Lemma padded_sum blocks :
  sum_list (length <$> padded blocks) = sum_list (length <$> blocks).
Proof.
  unfold padded.
  rewrite fmap_app, sum_list_with_app, fmap_replicate, sum_list_replicate.
  simpl. lia.
Qed.

Lemma build_exact blocks t0 :
  blocks ≠ [] → cache_ok (hashCache t0) →
  ∃ t, build blocks t0 = (t, Return ())
       ∧ nodes t = (builtNodes blocks).1
       ∧ rootID t = head (builtNodes blocks).2
       ∧ leafCount t = Z.of_nat (length blocks)
       ∧ leafData t = Some <$> padded blocks
       ∧ cfg t = cfg t0
       ∧ metrics t
         = if enableMetrics (cfg t0) then
             {| totalVerifications := totalVerifications (metrics t0);
                totalUpdates := totalUpdates (metrics t0);
                memoryUsageBytes := 80 * length (builtNodes blocks).1
                                    + sum_list (length <$> blocks) |}
           else metrics t0.
Proof.
  intros Hne Hc. unfold build.
  rewrite decide_False by (by destruct blocks).
  unfold mbind at 1, M_bind at 1, modify at 1.
  unfold mbind at 1, M_bind at 1, modify at 1.
  unfold mbind at 1, M_bind at 1, modify at 1.
  unfold mbind at 1, M_bind at 1, modify at 1.
  unfold mbind at 1, M_bind at 1.
  edestruct (buildLeaves_spec blocks 0 []) as (c & -> & Hc' & Hsub);
    [exact Hc|].
  cbn [nodes leafData rootID leafCount cfg metrics hashCache
       set_nodes set_leafData set_rootID set_leafCount].
  unfold mbind at 1, M_bind at 1. rewrite padLeaves_spec.
  cbn [nodes leafData rootID leafCount cfg metrics hashCache
       set_nodes set_leafData set_rootID set_leafCount app].
  rewrite length_fmap, length_seq.
  assert (seq 0 (length blocks) ++ seq (length blocks)
            (padCount (length blocks)) = seq 0 (length (padded blocks)))
    as -> by (unfold padded; by rewrite length_app, length_replicate, seq_app).
  rewrite length_seq.
  unfold set_leafData, set_nodes.
  cbn [nodes leafData rootID leafCount cfg metrics hashCache].
  assert ((leafNode ∘ computeHash <$> blocks)
          ++ replicate (padCount (length blocks)) (leafNode (computeHash []))
          = leafLayer blocks) as ->
    by (unfold leafLayer, padded; by rewrite fmap_app, fmap_replicate).
  assert ((Some <$> blocks) ++ replicate (padCount (length blocks)) (Some [])
          = Some <$> padded blocks) as ->
    by (unfold padded; by rewrite fmap_app, fmap_replicate).
  unfold mbind at 1, M_bind at 1, gets at 1.
  cbn [nodes leafData rootID leafCount cfg metrics hashCache
       set_nodes set_leafData set_rootID set_leafCount app].
  unfold mbind at 1, M_bind at 1, onNodes at 1.
  cbn [nodes leafData rootID leafCount cfg metrics hashCache
       set_nodes set_leafData set_rootID set_leafCount app].
  rewrite bottomUp_exact;
    [|by rewrite length_seq
     |unfold padded; rewrite length_app; by destruct blocks
     |apply leafLayer_shape|apply leafLayer_hash_ok].
  fold (builtNodes blocks).
  unfold mbind at 1, M_bind at 1, modify at 1.
  cbn [nodes leafData rootID leafCount cfg metrics hashCache head
       set_nodes set_leafData set_rootID set_leafCount app].
  destruct (enableMetrics (cfg t0)).
  - unfold mbind at 1, M_bind at 1, estimateMemoryUsage.
    cbn [nodes leafData rootID leafCount cfg metrics hashCache head
         set_nodes set_leafData set_rootID set_leafCount app].
    rewrite sumLengths_exact, padded_sum.
    eexists. split; [reflexivity|]. done.
  - eexists. split; [reflexivity|]. done.
Qed.
End build_exact.

Section layers_facts.
Context `{HP : HashPrimitive}.

Lemma addLayer_cons ns chunk chunks :
  addLayer ns (chunk :: chunks)
  = addLayer (withParent chunk (digest (nodeHashes ns chunk)) ns) chunks.
Proof. done. Qed.

Lemma addLayer_spec chunks : ∀ ns,
  Forall (Forall (λ c, c < length ns)) chunks →
  length (addLayer ns chunks) = length ns + length chunks
  ∧ frame ns (addLayer ns chunks)
  ∧ ∀ j chunk, chunks !! j = Some chunk →
      ∃ n', addLayer ns chunks !! (length ns + j) = Some n'
            ∧ children n' = chunk ∧ isLeaf n' = false.
Proof.
  induction chunks as [|chunk chunks IH]; intros ns Hv.
  { split_and!; [simpl; lia|apply frame_refl|done]. }
  apply Forall_cons in Hv as [Hc Hv]. rewrite addLayer_cons.
  set (ns1 := withParent chunk (digest (nodeHashes ns chunk)) ns).
  assert (length ns1 = S (length ns)) as Hlen by apply withParent_length.
  destruct (IH ns1) as (Hl & Hf & Hnew).
  { eapply Forall_impl; [exact Hv|]. intros cs Hcs.
    eapply Forall_impl; [exact Hcs|]. simpl. lia. }
  pose proof (withParent_frame chunk (digest (nodeHashes ns chunk)) ns Hc)
    as Hf1.
  split_and!.
  - rewrite Hl, Hlen. simpl. lia.
  - by eapply frame_trans.
  - intros [|j] chunk' Hj.
    + injection Hj as <-. rewrite Nat.add_0_r.
      destruct Hf as (_ & Hold & _).
      destruct (Hold (length ns) (newParent chunk
                  (digest (nodeHashes ns chunk))))
        as (n' & Hn' & _ & Hch & Hleaf);
        [by apply withParent_lookup_new|].
      eauto.
    + destruct (Hnew j chunk' Hj) as (n' & Hn' & ?).
      exists n'. split; [|done]. rewrite <-Hn'. f_equal. lia.
Qed.

Lemma addLayer_shape current ns :
  shape_ok ns current → hash_ok ns →
  shape_ok (addLayer ns (chunkBy current 3))
    (seq (length ns) (length (chunkBy current 3)))
  ∧ hash_ok (addLayer ns (chunkBy current 3)).
Proof.
  intros Hs Hh. pose proof Hs as Hs0.
  rewrite <-(chunkBy_concat current), <-(app_nil_r (concat _)) in Hs0.
  destruct (serialLayer_spec _ _ _ Hs0 Hh) as (ns1 & Hrun & Hs1 & Hh1 & _).
  rewrite serialLayer_exact in Hrun by done.
  injection Hrun as <-. done.
Qed.

Lemma chunks_valid current ns :
  shape_ok ns current →
  Forall (Forall (λ c, c < length ns)) (chunkBy current 3).
Proof.
  intros Hs. apply Forall_lookup. intros j chunk Hj.
  apply Forall_forall. intros c Hc. apply (roots_valid _ _ Hs).
  destruct (chunkBy_chunk current 3 j chunk) as (_ & _ & Hsub);
    [lia|done|]. by apply Hsub.
Qed.
End layers_facts.

(** ** The height of a built tree *)

Section height.
Context `{HP : HashPrimitive}.

Lemma calculateHeight_S fuel ns id :
  calculateHeight (S fuel) ns id
  = (n ← deref (ns !! id);
     if isLeaf n then Return 1
     else maxH ← heightLoop (calculateHeight fuel ns) (children n) 0;
          Return (maxH + 1)).
Proof. reflexivity. Qed.

Lemma heightLoop_level (g : NodeID → completion nat) k cs : ∀ maxH,
  Forall (λ c, g c = Return k) cs → maxH ≤ k →
  heightLoop g cs maxH = Return (match cs with [] => maxH | _ => k end).
Proof.
  induction cs as [|c cs IH]; intros maxH Hcs Hle; [done|].
  apply Forall_cons in Hcs as [Hc Hcs]. cbn [heightLoop]. rewrite Hc.
  cbn [mbind completion_bind].
  assert ((if decide (maxH < k) then k else maxH) = k) as ->
    by (case_decide; lia).
  rewrite IH by done. by destruct cs.
Qed.

Lemma heightLoop_ext (g g' : NodeID → completion nat) cs : ∀ maxH r,
  (∀ c h, c ∈ cs → g c = Return h → g' c = Return h) →
  heightLoop g cs maxH = Return r → heightLoop g' cs maxH = Return r.
Proof.
  induction cs as [|c cs IH]; intros maxH r Hext Hrun; [done|].
  cbn [heightLoop] in *. destruct (g c) as [h| |] eqn:E; [|done..].
  rewrite (Hext c h) by (done || left). cbn [mbind completion_bind] in *.
  apply IH; [|done]. intros c' h' Hc'. apply Hext. by right.
Qed.

Lemma height_leaf ns id n :
  ns !! id = Some n → isLeaf n = true → height_is ns id 1.
Proof.
  intros Hn Hl [|fuel] Hfuel; [lia|].
  by rewrite calculateHeight_S, Hn; cbn [deref mbind completion_bind];
    rewrite Hl.
Qed.

Lemma height_parent ns id n k :
  ns !! id = Some n → isLeaf n = false → children n ≠ [] →
  Forall (λ c, height_is ns c k) (children n) →
  height_is ns id (S k).
Proof.
  intros Hn Hl Hne Hcs [|fuel] Hfuel; [lia|].
  rewrite calculateHeight_S, Hn. cbn [deref mbind completion_bind].
  rewrite Hl, (heightLoop_level _ k).
  - cbn [mbind completion_bind]. destruct (children n); [done|].
    f_equal. lia.
  - eapply Forall_impl; [exact Hcs|]. intros c Hc. apply Hc. lia.
  - lia.
Qed.

Lemma calculateHeight_frame ns ns' fuel : ∀ id k,
  frame ns ns' →
  calculateHeight fuel ns id = Return k →
  calculateHeight fuel ns' id = Return k.
Proof.
  induction fuel as [|fuel IH]; intros id k Hf Hrun; [done|].
  rewrite calculateHeight_S in *.
  destruct (ns !! id) as [n|] eqn:Hn; [|done].
  destruct Hf as (Hlen & Hold & Hnew).
  destruct (Hold _ _ Hn) as (n' & -> & _ & Hch & Hl).
  cbn [deref mbind completion_bind] in *. rewrite Hl, Hch.
  destruct (isLeaf n); [done|].
  destruct (heightLoop (calculateHeight fuel ns) (children n) 0)
    as [m| |] eqn:E; [|done..].
  erewrite heightLoop_ext; [exact Hrun| |exact E].
  intros c h _. by apply IH.
Qed.

Lemma height_frame ns ns' id k :
  frame ns ns' → height_is ns id k → height_is ns' id k.
Proof.
  intros Hf Hk fuel Hfuel. eapply calculateHeight_frame; [done|].
  by apply Hk.
Qed.
End height.

Section layers_height.
Context `{HP : HashPrimitive}.

Lemma arity_ok_addLayer current ns :
  shape_ok ns current → arity_ok ns →
  arity_ok (addLayer ns (chunkBy current 3)).
Proof.
  intros Hs Ha i n' Hi.
  destruct (addLayer_spec (chunkBy current 3) ns (chunks_valid _ _ Hs))
    as (Hlen & (_ & Hold & _) & Hnew).
  destruct (decide (i < length ns)) as [Hlt|Hge].
  - destruct (lookup_lt_is_Some_2 ns i Hlt) as [n Hn].
    destruct (Hold _ _ Hn) as (n2 & Hn2 & _ & Hch & Hl).
    assert (n2 = n') as -> by congruence.
    rewrite Hch, Hl. by apply (Ha i).
  - pose proof (lookup_lt_Some _ _ _ Hi) as Hlt. rewrite Hlen in Hlt.
    destruct (lookup_lt_is_Some_2 (chunkBy current 3) (i - length ns))
      as [chunk Hc]; [lia|].
    destruct (Hnew _ _ Hc) as (n2 & Hn2 & Hch & Hl).
    replace (length ns + (i - length ns)) with i in Hn2 by lia.
    assert (n2 = n') as -> by congruence.
    rewrite Hl, Hch.
    destruct (chunkBy_chunk current 3 _ _ ltac:(lia) Hc) as (Hne & Hle & _).
    destruct chunk; [done|]. simpl in *. lia.
Qed.

Lemma layers_spec fuel : ∀ k current ns,
  length current ≤ fuel → current ≠ [] →
  shape_ok ns current → hash_ok ns → arity_ok ns →
  (∀ id, id ∈ current → height_is ns id k) → k ≤ length ns →
  ∃ root,
    (layers fuel current ns).2 = [root]
    ∧ shape_ok (layers fuel current ns).1 [root]
    ∧ hash_ok (layers fuel current ns).1
    ∧ arity_ok (layers fuel current ns).1
    ∧ height_is (layers fuel current ns).1 root
        (k + rounds fuel (length current))
    ∧ k + rounds fuel (length current) ≤ length (layers fuel current ns).1
    ∧ frame ns (layers fuel current ns).1.
Proof.
  induction fuel as [|fuel IH]; intros k current ns Hfuel Hne Hs Hh Ha Hk Hkl.
  { destruct current; [done|]. simpl in Hfuel. lia. }
  cbn [layers rounds]. case_decide as Hlen.
  - set (chunks := chunkBy current 3).
    destruct (addLayer_shape current ns Hs Hh) as [Hs1 Hh1].
    destruct (addLayer_spec chunks ns (chunks_valid _ _ Hs))
      as (Hlen1 & Hf1 & Hnew).
    assert (length chunks = (length current + 2) / 3) as Hcount.
    { unfold chunks. rewrite chunkBy_length by lia. f_equal. lia. }
    destruct (IH (S k) (seq (length ns) (length chunks)) (addLayer ns chunks))
      as (root & Hroot & Hs' & Hh' & Ha' & Hheight & Hle & Hf').
    + rewrite length_seq. pose proof (chunkBy_count current Hlen).
      unfold chunks. lia.
    + destruct chunks eqn:E; [|done]. by apply chunkBy_nil_iff in E.
    + done.
    + done.
    + by apply arity_ok_addLayer.
    + intros id [Hge Hlt]%elem_of_seq.
      destruct (lookup_lt_is_Some_2 chunks (id - length ns))
        as [chunk Hc]; [lia|].
      destruct (Hnew _ _ Hc) as (n' & Hn' & Hch & Hl).
      replace (length ns + (id - length ns)) with id in Hn' by lia.
      destruct (chunkBy_chunk current 3 _ _ ltac:(lia) Hc)
        as (Hcne & _ & Hsub).
      eapply height_parent; [done|done|by rewrite Hch|].
      rewrite Hch. apply Forall_forall. intros c Hc'.
      eapply height_frame; [done|]. apply Hk. by apply Hsub.
    + rewrite Hlen1. destruct chunks eqn:E; [|simpl; lia].
      by apply chunkBy_nil_iff in E.
    + exists root. rewrite length_seq, Hcount in *.
      replace (k + S (rounds fuel ((length current + 2) / 3)))
        with (S k + rounds fuel ((length current + 2) / 3)) by lia.
      split_and!; [done..|]. by eapply frame_trans.
  - destruct current as [|root [|]]; [done| |simpl in Hlen; lia].
    exists root. rewrite Nat.add_0_r.
    split_and!; [done..| |done|apply frame_refl].
    apply Hk. by left.
Qed.

Lemma rounds_log fuel : ∀ m,
  1 ≤ m ≤ fuel →
  m ≤ 3 ^ rounds fuel m
  ∧ (1 < m → 3 ^ (rounds fuel m - 1) < m).
Proof.
  induction fuel as [|fuel IH]; intros m Hm; [lia|].
  cbn [rounds]. case_decide as H1; [|simpl; lia].
  assert (m ≤ 3 * ((m + 2) / 3) ∧ 3 * ((m + 2) / 3) < m + 3) as [Hlo Hhi].
  { pose proof (Nat.div_mod_eq (m + 2) 3).
    pose proof (Nat.mod_upper_bound (m + 2) 3). lia. }
  destruct (IH ((m + 2) / 3)) as [Hup Hdown]; [lia|].
  split.
  - rewrite Nat.pow_succ_r'. lia.
  - intros _. replace (S (rounds fuel ((m + 2) / 3)) - 1)
      with (rounds fuel ((m + 2) / 3)) by lia.
    destruct (decide (1 < (m + 2) / 3)) as [Hbig|Hsmall].
    + specialize (Hdown Hbig).
      destruct (rounds fuel ((m + 2) / 3)) as [|r] eqn:Er.
      { rewrite Nat.pow_0_r. lia. }
      replace (S r - 1) with r in Hdown by lia.
      rewrite Nat.pow_succ_r'. lia.
    + destruct fuel as [|fuel']; [lia|].
      cbn [rounds]. rewrite decide_False by done. rewrite Nat.pow_0_r. lia.
Qed.
End layers_height.

(** ** What [build] establishes *)

Section build_more.
Context `{HP : HashPrimitive}.

Lemma leafLayer_arity blocks : arity_ok (leafLayer blocks).
Proof.
  intros i n Hi. unfold leafLayer in Hi.
  by apply list_lookup_fmap_Some in Hi as (d & -> & _).
Qed.

Lemma padded_length_pos blocks : blocks ≠ [] → 3 ≤ length (padded blocks).
Proof.
  intros Hne. pose proof (padded_length_mod blocks) as Hmod.
  assert (0 < length (padded blocks)).
  { unfold padded. rewrite length_app. destruct blocks; [done|]. simpl. lia. }
  destruct (length (padded blocks)) as [|[|[|m]]]; [lia|done|done|lia].
Qed.

Lemma builtNodes_spec blocks :
  blocks ≠ [] →
  let m := length (padded blocks) in
  ∃ root,
    (builtNodes blocks).2 = [root]
    ∧ shape_ok (builtNodes blocks).1 [root]
    ∧ hash_ok (builtNodes blocks).1
    ∧ arity_ok (builtNodes blocks).1
    ∧ height_is (builtNodes blocks).1 root (1 + rounds m m)
    ∧ 1 + rounds m m ≤ length (builtNodes blocks).1
    ∧ frame (leafLayer blocks) (builtNodes blocks).1.
Proof.
  intros Hne m. pose proof (padded_length_pos blocks Hne) as Hm.
  destruct (layers_spec m 1 (seq 0 m) (leafLayer blocks))
    as (root & Hroot & Hrest).
  - by rewrite length_seq.
  - fold m in Hm. destruct m; [lia|done].
  - apply leafLayer_shape.
  - apply leafLayer_hash_ok.
  - apply leafLayer_arity.
  - intros id [_ Hid]%elem_of_seq.
    destruct (lookup_lt_is_Some_2 (leafLayer blocks) id) as [n Hn].
    { unfold leafLayer. rewrite length_fmap. fold m. lia. }
    eapply height_leaf; [done|]. unfold leafLayer in Hn.
    by apply list_lookup_fmap_Some in Hn as (d & -> & _).
  - unfold leafLayer. rewrite length_fmap. fold m. lia.
  - rewrite length_seq in Hrest. exists root. done.
Qed.

Lemma shape_root_last ns root :
  shape_ok ns [root] → length ns = S root.
Proof.
  intros Hs. pose proof (roots_valid _ _ Hs root) as Hlt.
  specialize (Hlt ltac:(by left)).
  destruct (decide (length ns = S root)) as [|Hne]; [done|].
  destruct (lookup_lt_is_Some_2 ns (length ns - 1)) as [n Hn]; [lia|].
  pose proof (parent_ok _ _ Hs _ _ Hn) as Hp.
  destruct (parent n) as [p|].
  - destruct Hp as (Hip & _ & pn & Hpn & _).
    apply lookup_lt_Some in Hpn. lia.
  - apply list_elem_of_singleton in Hp. lia.
Qed.

Lemma build_full blocks t0 :
  reachable t0 → blocks ≠ [] →
  ∃ t root,
    build blocks t0 = (t, Return ())
    ∧ nodes t = (builtNodes blocks).1
    ∧ rootID t = Some root
    ∧ leafCount t = Z.of_nat (length blocks)
    ∧ leafData t = Some <$> padded blocks
    ∧ cfg t = cfg t0
    ∧ shape_ok (nodes t) [root] ∧ hash_ok (nodes t) ∧ arity_ok (nodes t)
    ∧ height_is (nodes t) root
        (1 + rounds (length (padded blocks)) (length (padded blocks)))
    ∧ 1 + rounds (length (padded blocks)) (length (padded blocks))
      ≤ length (nodes t).
Proof.
  intros Hc%reachable_cache_ok Hne.
  destruct (build_exact blocks t0 Hne Hc)
    as (t & Hrun & Hn & Hr & Hlc & Hld & Hcfg & _).
  destruct (builtNodes_spec blocks Hne)
    as (root & Hroot & Hs & Hh & Ha & Hht & Hle & _).
  exists t, root. rewrite Hn, Hr, Hroot. done.
Qed.

(** X5: [build] of a non-empty block sequence, on any instance a
    program can hold, returns and leaves a well-formed ternary tree:
    the root is the last node and the only node without a parent;
    every other node names a later node as its parent and is among
    that node's children; leaves have no children and internal nodes
    have one to three, each naming the node as its parent; all
    digests have 32 bytes, and every internal node holds the digest
    of its children's digests in order. *)
Theorem build_tree_ok (t0 : TernaryMeshTree) (blocks : list bytes) :
  reachable t0 → blocks ≠ [] →
  ∃ t root, build blocks t0 = (t, Return ()) ∧ tree_ok t root.
Proof.
  intros Hreach Hne.
  destruct (build_full blocks t0 Hreach Hne)
    as (t & root & Hrun & _ & Hr & _ & _ & _ & Hs & Hh & Ha & _).
  exists t, root. split; [done|]. split; [done|].
  split; [by apply shape_root_last|].
  intros i n Hn. split_and!.
  - by apply (hash_size _ _ Hs i).
  - pose proof (parent_ok _ _ Hs _ _ Hn) as Hp. split.
    + intros Hnone. rewrite Hnone in Hp.
      by apply list_elem_of_singleton in Hp.
    + intros ->. eapply shape_ok_root_parent; [done| |done]. by left.
  - intros p Hpar. pose proof (parent_ok _ _ Hs _ _ Hn) as Hp.
    rewrite Hpar in Hp. destruct Hp as (? & _ & ?). done.
  - pose proof (Ha _ _ Hn) as Har.
    destruct (isLeaf n) eqn:Hl; [done|].
    split_and!; [lia|lia|by apply (Hh i)|].
    intros c Hc. by apply (children_ok _ _ Hs i n c).
Qed.

(** X6: after [build] of a non-empty block sequence, [getHeight]
    returns the number of layers [h]: with [m] leaves, padding
    included, [3^(h-2) < m ≤ 3^(h-1)], and [h] is at least 2. *)
Theorem build_height (t0 : TernaryMeshTree) (blocks : list bytes) :
  reachable t0 → blocks ≠ [] →
  ∃ t h, build blocks t0 = (t, Return ())
         ∧ getHeight t = Return h
         ∧ 2 ≤ h
         ∧ 3 ^ (h - 2) < length (leafData t) ≤ 3 ^ (h - 1).
Proof.
  intros Hreach Hne.
  destruct (build_full blocks t0 Hreach Hne)
    as (t & root & Hrun & _ & Hr & _ & Hld & _ & _ & _ & _ & Hht & Hle).
  pose proof (padded_length_pos blocks Hne) as Hm.
  set (m := length (padded blocks)) in *.
  destruct (rounds_log m m) as [Hup Hdown]; [lia|].
  specialize (Hdown ltac:(lia)).
  assert (1 ≤ rounds m m) as Hr1.
  { destruct m as [|m']; [lia|]. cbn [rounds].
    rewrite decide_True by lia. lia. }
  exists t, (1 + rounds m m). split; [done|].
  split; [unfold getHeight; rewrite Hr; apply Hht; lia|].
  split; [lia|].
  rewrite Hld, length_fmap. fold m.
  replace (1 + rounds m m - 2) with (rounds m m - 1) by lia.
  replace (1 + rounds m m - 1) with (rounds m m) by lia. lia.
Qed.

(** X7: the tree [build] makes depends on the blocks only.  Whatever
    two instances held before and however they are configured
    (caching on or off, layers hashed serially or in the parallel
    branch), [build] of the same blocks gives both the same node
    array, leaf data, root id and leaf count, hence the same root
    hash. *)
Theorem build_same_tree (t1 t2 : TernaryMeshTree) (blocks : list bytes) :
  reachable t1 → reachable t2 → blocks ≠ [] →
  ∃ r1 r2, build blocks t1 = (r1, Return ())
           ∧ build blocks t2 = (r2, Return ())
           ∧ same_tree r1 r2
           ∧ getRootHash r1 = getRootHash r2.
Proof.
  intros H1 H2 Hne.
  destruct (build_full blocks t1 H1 Hne)
    as (r1 & root1 & Hrun1 & Hn1 & Hr1 & Hlc1 & Hld1 & _).
  destruct (build_full blocks t2 H2 Hne)
    as (r2 & root2 & Hrun2 & Hn2 & Hr2 & Hlc2 & Hld2 & _).
  assert (rootID r1 = rootID r2) as Hroot.
  { destruct (build_exact blocks t1 Hne (reachable_cache_ok _ H1))
      as (r1' & Hrun1' & _ & Hr1' & _).
    destruct (build_exact blocks t2 Hne (reachable_cache_ok _ H2))
      as (r2' & Hrun2' & _ & Hr2' & _).
    congruence. }
  exists r1, r2. split_and!; [done|done| |].
  - unfold same_tree. by rewrite Hn1, Hn2, Hld1, Hld2, Hlc1, Hlc2, Hroot.
  - unfold getRootHash. by rewrite Hn1, Hn2, Hroot.
Qed.

(** X8: with metrics switched on, a [build] that returns sets the
    memory estimate to 80 bytes per node plus the bytes of the
    blocks, and leaves the two counters as they were. *)
Theorem build_memory_estimate (t0 : TernaryMeshTree) (blocks : list bytes) :
  reachable t0 → blocks ≠ [] → enableMetrics (cfg t0) = true →
  ∃ t, build blocks t0 = (t, Return ())
       ∧ memoryUsageBytes (getMetrics t)
         = 80 * length (nodes t) + sum_list (length <$> blocks)
       ∧ totalVerifications (getMetrics t)
         = totalVerifications (getMetrics t0)
       ∧ totalUpdates (getMetrics t) = totalUpdates (getMetrics t0).
Proof.
  intros Hc%reachable_cache_ok Hne Hon.
  destruct (build_exact blocks t0 Hne Hc)
    as (t & Hrun & Hn & _ & _ & _ & Hcfg & Hm).
  exists t. split; [done|]. unfold getMetrics.
  rewrite Hcfg, Hon, Hm, Hon, Hn. done.
Qed.
End build_more.

(** ** Queries on a built tree *)

Section queries.
Context `{HP : HashPrimitive}.

Lemma verify_unfold (i : nat) d t root n :
  (Z.of_nat i < leafCount t)%Z → rootID t = Some root →
  nodes t !! i = Some n →
  verify (Z.of_nat i) d t
  = if negb (hashesEqual (hash n) (computeHash d))
    then (countVerification;; mret (false, None)) t
    else match (proof ← generateProofInternal t (Z.of_nat i);
                verifyProofInternal t proof (computeHash d) root) with
         | Return ok => (countVerification;; mret (ok, None)) t
         | Throw e => (t, Return (false, Some e))
         | Diverge => (t, Diverge)
         end.
Proof.
  intros Hi Hroot Hn. unfold verify.
  rewrite decide_False by lia.
  by rewrite Hroot, nodeAt_of_nat, Hn.
Qed.

Lemma built_verify_sound blocks t : built blocks t → verify_sound blocks t.
Proof.
  intros Hb i d Hd.
  destruct (built_leaf _ _ _ _ Hb Hd) as (n & Hn & Hh & _).
  destruct (built_root _ _ Hb) as (root & Hroot & Hs).
  pose proof (lookup_lt_Some _ _ _ Hd) as Hi.
  assert (Z.of_nat i < leafCount t)%Z as Hlt
    by (rewrite (built_leafCount _ _ Hb); lia).
  split.
  - rewrite (verify_unfold i d t root n Hlt Hroot Hn), Hh.
    rewrite (proj2 (hashesEqual_true _ _) eq_refl). cbn [negb].
    destruct (generated_proof_verifies t root i n Hroot Hs
                (built_hash _ _ Hb) Hn) as (proof & -> & Hver).
    cbn [mbind completion_bind]. rewrite <-Hh, Hver.
    apply countVerification_then.
  - intros d' Hd'. rewrite (verify_unfold i d' t root n Hlt Hroot Hn).
    rewrite (proj2 (hashesEqual_false _ _)) by congruence. cbn [negb].
    apply countVerification_then.
Qed.

(** X9: on a tree built from [blocks], [generateProof] of an index
    below [blocks.length] returns a proof, and [verifyProof] of that
    proof with the block's content answers [[true, null]]. *)
Theorem generated_proof_accepted (t0 : TernaryMeshTree)
    (blocks : list bytes) (i : nat) (d : bytes) :
  reachable t0 → blocks !! i = Some d →
  ∃ t proof,
    build blocks t0 = (t, Return ())
    ∧ generateProof t (Z.of_nat i) = Return proof
    ∧ leafIndex proof = Z.of_nat i
    ∧ verifyProof t proof d = Return (true, None).
Proof.
  intros Hc%reachable_cache_ok Hd.
  assert (blocks ≠ []) as Hne by (by intros ->).
  destruct (build_spec blocks t0 Hne Hc) as (t & Hrun & Hb & _).
  destruct (built_leaf _ _ _ _ Hb Hd) as (n & Hn & Hh & _).
  destruct (built_root _ _ Hb) as (root & Hroot & Hs).
  pose proof (lookup_lt_Some _ _ _ Hd) as Hi.
  destruct (generated_proof_verifies t root i n Hroot Hs
              (built_hash _ _ Hb) Hn) as (proof & Hgen & Hver).
  exists t, proof. split; [done|].
  unfold generateProof, verifyProof.
  rewrite decide_False by (rewrite (built_leafCount _ _ Hb); lia).
  rewrite Hroot, <-Hh, Hver. split_and!; [done| |done].
  unfold generateProofInternal in Hgen.
  destruct (proofLoop _ _ _ _ _); [|done..].
  by injection Hgen as <-.
Qed.

Lemma countVerification_tree {A} (a : A) t :
  same_tree t ((countVerification;; mret a) t).1
  ∧ cfg ((countVerification;; mret a) t).1 = cfg t
  ∧ hashCache ((countVerification;; mret a) t).1 = hashCache t.
Proof.
  unfold mbind, M_bind, countVerification, same_tree.
  by destruct (enableMetrics (cfg t)).
Qed.

Lemma verify_tree i d t :
  same_tree t (verify i d t).1
  ∧ cfg (verify i d t).1 = cfg t
  ∧ hashCache (verify i d t).1 = hashCache t.
Proof.
  unfold verify. case_decide; [done|].
  destruct (rootID t); [|done].
  destruct (nodeAt _ _); [|done].
  destruct (negb _); [apply countVerification_tree|].
  destruct (_ ≫= _); [apply countVerification_tree|done..].
Qed.

Lemma verify_same_tree t t' i d :
  same_tree t t' → (verify i d t').2 = (verify i d t).2.
Proof.
  intros (Hn & _ & Hr & Hl). unfold verify. rewrite Hl.
  case_decide; [done|]. rewrite Hr, Hn.
  destruct (rootID t); [|done].
  destruct (nodeAt _ _); [|done].
  destruct (negb _).
  { by rewrite !countVerification_then. }
  unfold generateProofInternal, verifyProofInternal. rewrite Hn.
  destruct (_ ≫= _); [|done..].
  by rewrite !countVerification_then.
Qed.

(** X10: [verify] only reads the tree.  Whatever it answers, the node
    array, leaf data, root id, leaf count, configuration and hash
    cache are afterwards what they were; and two trees that agree on
    node array, root id and leaf count get the same answer. *)
Theorem verify_reads_only (t : TernaryMeshTree) (i : Z) (d : bytes) :
  same_tree t (verify i d t).1
  ∧ cfg (verify i d t).1 = cfg t
  ∧ hashCache (verify i d t).1 = hashCache t
  ∧ ∀ t', same_tree t t' → (verify i d t').2 = (verify i d t).2.
Proof.
  destruct (verify_tree i d t) as (? & ? & ?).
  split_and!; [done..|]. intros t'. apply verify_same_tree.
Qed.
End queries.

Section restored.
Context `{HP : HashPrimitive} `{JC : JSONCodec}.

Lemma serialize_roundtrip t c (leaves : list bytes) :
  leafData t = Some <$> leaves →
  ∃ text t', serialize t = Return text
    ∧ deserialize text c = Return t' ∧ same_tree t t' ∧ cfg t' = c.
Proof.
  intros Hld. unfold serialize. rewrite Hld, copyLeaves_full. simpl.
  eexists _, _. split; [done|].
  unfold deserialize. rewrite JSON_parse_stringify. simpl.
  split; [done|]. unfold same_tree. simpl.
  rewrite nodes_roundtrip, leaves_roundtrip. done.
Qed.

Lemma built_same_tree blocks t t' :
  built blocks t → same_tree t t' → built blocks t'.
Proof.
  intros [H1 H2 H3 H4 H5] (Hn & Hld & Hr & Hl).
  split; by rewrite ?Hn, ?Hld, ?Hr, ?Hl.
Qed.

(** X11: a tree restored by [deserialize] from the [serialize] text of
    a built tree answers [verify] like the original: [[true, null]]
    for every block at its index, [[false, null]] for content with
    another digest, under whatever configuration it is restored. *)
Theorem restored_tree_verifies (t0 : TernaryMeshTree)
    (blocks : list bytes) (c : Config) :
  reachable t0 → blocks ≠ [] →
  ∃ t text t',
    build blocks t0 = (t, Return ())
    ∧ serialize t = Return text
    ∧ deserialize text c = Return t'
    ∧ verify_sound blocks t'.
Proof.
  intros Hc%reachable_cache_ok Hne.
  destruct (build_spec blocks t0 Hne Hc) as (t & Hrun & Hb & _).
  destruct (serialize_roundtrip t c _ (built_data _ _ Hb))
    as (text & t' & Hser & Hde & Hsame & _).
  exists t, text, t'. split_and!; [done..|].
  apply built_verify_sound. by eapply built_same_tree.
Qed.
End restored.

(** ** Trees of one level *)

Section one_level.
Context `{HP : HashPrimitive}.

Lemma recomputeNodeHash_run (ns : list InternalNode) (id : nat) n :
  ns !! id = Some n → isLeaf n = false →
  Forall (λ c, c < length ns) (children n) →
  (∀ i m, ns !! i = Some m → length (hash m) = 32) →
  recomputeNodeHash id ns
  = (<[id := set_hash (digest (nodeHashes ns (children n))) n]> ns,
     Return ()).
Proof.
  intros Hn Hl Hv Hsz. unfold recomputeNodeHash.
  rewrite decide_False by (apply lookup_lt_Some in Hn; lia).
  by rewrite Hn, Hl, hashChunk_valid.
Qed.

Lemma builtNodes_one_level blocks :
  0 < length blocks ≤ 3 →
  builtNodes blocks
  = (oneLevel (computeHash (default [] (blocks !! 0)))
       (computeHash (default [] (blocks !! 1)))
       (computeHash (default [] (blocks !! 2)))
       (digest [computeHash (default [] (blocks !! 0));
                computeHash (default [] (blocks !! 1));
                computeHash (default [] (blocks !! 2))]),
     [3]).
Proof.
  intros Hlen.
  destruct blocks as [|a [|b [|c [|]]]]; simpl in Hlen; try lia;
    cbv -[digest computeHash]; reflexivity.
Qed.

Lemma recompute_oneLevel h0 h1 h2 r :
  length h0 = 32 → length h1 = 32 → length h2 = 32 → length r = 32 →
  recomputeNodeHash 3 (oneLevel h0 h1 h2 r)
  = (oneLevel h0 h1 h2 (digest [h0; h1; h2]), Return ()).
Proof.
  intros H0 H1 H2 Hr.
  rewrite (recomputeNodeHash_run _ 3
    {| hash := r; children := [0; 1; 2]; isLeaf := false; parent := None |}).
  - reflexivity.
  - reflexivity.
  - reflexivity.
  - unfold oneLevel. repeat apply Forall_cons_2; simpl; (lia || done).
  - intros i m Hm. unfold oneLevel in Hm.
    do 4 (destruct i as [|i]; [by simplify_eq/=|]). done.
Qed.
End one_level.

Section one_level_steps.
Context `{HP : HashPrimitive}.

Lemma updateAncestors_oneLevel h0 h1 h2 r (i : nat) :
  i < 3 →
  length h0 = 32 → length h1 = 32 → length h2 = 32 → length r = 32 →
  updateAncestors i (oneLevel h0 h1 h2 r)
  = (oneLevel h0 h1 h2 (digest [h0; h1; h2]), Return ()).
Proof.
  intros Hi H0 H1 H2 Hr. unfold updateAncestors.
  unfold mbind at 1, M_bind at 1.
  assert (ancestorsLoop (S (length (oneLevel h0 h1 h2 r)))
            (oneLevel h0 h1 h2 r) i [] = Return [3]) as ->.
  { destruct i as [|[|[|i]]]; [done..|lia]. }
  cbn [length recomputeDownFrom].
  unfold mbind at 1, M_bind at 1, lift at 1. cbn [lookup list_lookup deref].
  unfold mbind at 1, M_bind at 1.
  rewrite recompute_oneLevel by done. done.
Qed.

Lemma setLeafHash_oneLevel h0 h1 h2 r (i : nat) h :
  i < 3 →
  setLeafHash i h (oneLevel h0 h1 h2 r)
  = (oneLevel (if decide (i = 0) then h else h0)
       (if decide (i = 1) then h else h1)
       (if decide (i = 2) then h else h2) r, Return ()).
Proof. intros Hi. destruct i as [|[|[|i]]]; [done..|lia]. Qed.
End one_level_steps.

Section one_level_update.
Context `{HP : HashPrimitive}.

Lemma update_oneLevel t h0 h1 h2 r (i : nat) d :
  nodes t = oneLevel h0 h1 h2 r →
  i < 3 → (Z.of_nat i < leafCount t)%Z →
  length h0 = 32 → length h1 = 32 → length h2 = 32 → length r = 32 →
  let h0' := if decide (i = 0) then computeHash d else h0 in
  let h1' := if decide (i = 1) then computeHash d else h1 in
  let h2' := if decide (i = 2) then computeHash d else h2 in
  ∃ t', update (Z.of_nat i) d t = (t', Return ())
    ∧ nodes t' = oneLevel h0' h1' h2' (digest [h0'; h1'; h2'])
    ∧ leafData t' = arraySet (leafData t) i d
    ∧ rootID t' = rootID t ∧ leafCount t' = leafCount t
    ∧ cfg t' = cfg t ∧ hashCache t' = hashCache t.
Proof.
  intros Hn Hi Hlt H0 H1 H2 Hr h0' h1' h2'.
  assert (length h0' = 32 ∧ length h1' = 32 ∧ length h2' = 32)
    as (H0' & H1' & H2').
  { unfold h0', h1', h2'. split_and!; case_decide; (done || apply computeHash_length). }
  unfold update. unfold mbind at 1, M_bind at 1, gets at 1.
  rewrite decide_False by lia.
  unfold mbind at 1, M_bind at 1, modify at 1.
  unfold mbind at 1, M_bind at 1, onNodes at 1.
  cbn [nodes set_leafData]. rewrite Nat2Z.id, Hn.
  rewrite setLeafHash_oneLevel by done. fold h0' h1' h2'.
  unfold mbind at 1, M_bind at 1, onNodes at 1.
  cbn [nodes set_nodes set_leafData].
  rewrite updateAncestors_oneLevel by done.
  unfold countUpdates. cbn [cfg set_nodes set_leafData].
  destruct (enableMetrics (cfg t)); eexists; (split; [reflexivity|done]).
Qed.

Lemma arraySet_padded blocks (i : nat) d :
  i < length blocks →
  arraySet (Some <$> padded blocks) i d = Some <$> padded (<[i := d]> blocks).
Proof.
  intros Hi. unfold arraySet, padded.
  rewrite decide_True by (rewrite length_fmap, length_app; lia).
  rewrite length_insert, <-list_fmap_insert. f_equal.
  by rewrite insert_app_l.
Qed.
End one_level_update.

Section one_level_theorem.
Context `{HP : HashPrimitive}.

Lemma update_one_level_run t0 blocks (i : nat) d t t1 :
  reachable t0 → i < length blocks → length blocks ≤ 3 →
  build blocks t0 = (t, Return ()) → same_tree t t1 →
  ∃ t' fresh,
    update (Z.of_nat i) d t1 = (t', Return ())
    ∧ build (<[i := d]> blocks) t0 = (fresh, Return ())
    ∧ same_tree fresh t'
    ∧ cfg t' = cfg t1 ∧ hashCache t' = hashCache t1
    ∧ built (<[i := d]> blocks) t'.
Proof.
  intros Hreach Hi Hlen Hrun0 (Hn1 & Hld1 & Hr1 & Hlc1).
  pose proof (reachable_cache_ok _ Hreach) as Hc.
  assert (blocks ≠ []) as Hne by (intros ->; simpl in Hi; lia).
  assert (<[i := d]> blocks ≠ []) as Hne'.
  { intros Hnil. apply (f_equal length) in Hnil.
    rewrite length_insert in Hnil. simpl in Hnil. lia. }
  destruct (build_exact blocks t0 Hne Hc)
    as (t_ & Hrun & Hn & Hr & Hlc & Hld & Hcfg & _).
  assert (t_ = t) as -> by congruence.
  destruct (build_exact (<[i := d]> blocks) t0 Hne' Hc)
    as (fresh & Hrun' & Hn' & Hr' & Hlc' & Hld' & _).
  destruct (build_spec (<[i := d]> blocks) t0 Hne' Hc)
    as (fresh2 & Hrun2 & Hb & _).
  assert (fresh2 = fresh) as -> by congruence.
  rewrite builtNodes_one_level in Hn, Hr by lia.
  rewrite builtNodes_one_level in Hn', Hr'
    by (rewrite length_insert; lia).
  cbn [fst snd head] in *.
  rewrite <-Hn1 in Hn. rewrite <-Hr1 in Hr. rewrite <-Hlc1 in Hlc.
  rewrite <-Hld1 in Hld.
  destruct (update_oneLevel t1 _ _ _ _ i d Hn)
    as (t' & Hup & Hnt' & Hldt' & Hrt' & Hlct' & Hcfgt' & Hhc);
    [lia|lia|apply computeHash_length..|apply digest_length|].
  assert (same_tree fresh t') as Hsame.
  { unfold same_tree. rewrite Hnt', Hn', Hldt', Hld, Hld', Hrt', Hr, Hr'.
    rewrite Hlct', Hlc, Hlc', length_insert, arraySet_padded by done.
    split_and!; [|done..].
    destruct blocks as [|a [|b [|c [|]]]]; simpl in Hi, Hlen; try lia;
      destruct i as [|[|[|i]]]; simpl in Hi; try lia; reflexivity. }
  exists t', fresh. split_and!; [done..|].
  by eapply built_same_tree.
Qed.

Lemma same_tree_refl t : same_tree t t.
Proof. done. Qed.

(** X12: on a tree built from at most three blocks every leaf hangs
    under the root, and [update] is exact: after [update(i, d)] the
    node array, leaf data, root id and leaf count are those of a
    fresh build over the blocks with block [i] replaced by [d], the
    root hash included, and [verify] answers for the new contents. *)
Theorem update_one_level (t0 : TernaryMeshTree) (blocks : list bytes)
    (i : nat) (d : bytes) :
  reachable t0 → i < length blocks → length blocks ≤ 3 →
  ∃ t t' fresh,
    build blocks t0 = (t, Return ())
    ∧ update (Z.of_nat i) d t = (t', Return ())
    ∧ build (<[i := d]> blocks) t0 = (fresh, Return ())
    ∧ same_tree fresh t'
    ∧ getRootHash t' = getRootHash fresh
    ∧ verify_sound (<[i := d]> blocks) t'.
Proof.
  intros Hreach Hi Hlen.
  assert (blocks ≠ []) as Hne by (intros ->; simpl in Hi; lia).
  destruct (build_spec blocks t0 Hne (reachable_cache_ok _ Hreach))
    as (t & Hrun & _).
  destruct (update_one_level_run t0 blocks i d t t Hreach Hi Hlen Hrun
              (same_tree_refl t))
    as (t' & fresh & Hup & Hrun' & Hsame & _ & _ & Hb).
  exists t, t', fresh. split_and!; [done..| |by apply built_verify_sound].
  destruct Hsame as (Hn & _ & Hr & _). unfold getRootHash.
  by rewrite Hn, Hr.
Qed.
End one_level_theorem.

(** ** The self-test *)

Section self_test.
Context `{HP : HashPrimitive} `{JC : JSONCodec}.

Lemma verify_run t i d r :
  (verify i d t).2 = Return r →
  ∃ t', verify i d t = (t', Return r)
        ∧ same_tree t t' ∧ cfg t' = cfg t ∧ hashCache t' = hashCache t.
Proof.
  intros Hr. destruct (verify_tree i d t) as (Hs & Hc & Hh).
  destruct (verify i d t) as [t' c]. simpl in *. subst c. eauto.
Qed.

Lemma same_tree_trans t1 t2 t3 :
  same_tree t1 t2 → same_tree t2 t3 → same_tree t1 t3.
Proof.
  intros (? & ? & ? & ?) (? & ? & ? & ?). unfold same_tree.
  split_and!; congruence.
Qed.

Lemma built_root_hash blocks t :
  built blocks t → ∃ h, getRootHash t = Return (Some h, true).
Proof.
  intros Hb. destruct (built_root _ _ Hb) as (root & Hroot & Hs).
  assert (root < length (nodes t)) as Hlt
    by (apply (roots_valid _ _ Hs); by left).
  apply lookup_lt_is_Some in Hlt as [rn Hrn].
  exists (hash rn). unfold getRootHash. by rewrite Hroot, Hrn.
Qed.

(** X13: [selfTest] resolves, whatever the hash primitive and the JSON
    codec: the build over its three blocks, both verifications, the
    update of block 0 and the round trip through [serialize] and
    [deserialize] all succeed, and the two root hashes agree. *)
Theorem selfTest_passes : selfTest = Return None.
Proof.
  unfold selfTest, selfTestRun.
  set (b1 := encode "block1"). set (b2 := encode "block2").
  set (b3 := encode "block3"). set (n1 := encode "new_block1").
  set (t0 := newTree defaultConfig).
  assert (reachable t0) as Hreach by constructor.
  destruct (build_spec [b1; b2; b3] t0 ltac:(done)
              (reachable_cache_ok _ Hreach)) as (t1 & Hrun & Hb & _).
  unfold mbind at 1, M_bind at 1. rewrite Hrun.
  destruct (built_verify_sound _ _ Hb 0 b1 eq_refl) as [Hv1 _].
  destruct (verify_run _ _ _ _ Hv1) as (t1' & Hrun1 & Hs1 & _).
  unfold mbind at 1, M_bind at 1. change (Z.of_nat 0) with 0%Z in Hrun1.
  rewrite Hrun1. cbn [fst snd negb orb].
  rewrite bool_decide_false by (intros H; by apply H). cbn [orb].
  destruct (update_one_level_run t0 [b1; b2; b3] 0 n1 t1 t1' Hreach
              ltac:(simpl; lia) ltac:(simpl; lia) Hrun Hs1)
    as (t2 & fresh & Hup & _ & _ & _ & _ & Hb2).
  change (Z.of_nat 0) with 0%Z in Hup.
  unfold mbind at 1, M_bind at 1. rewrite Hup.
  cbn [insert list_insert] in Hb2.
  destruct (built_verify_sound _ _ Hb2 0 n1 eq_refl) as [Hv2 _].
  destruct (verify_run _ _ _ _ Hv2) as (t2' & Hrun2 & Hs2 & _).
  change (Z.of_nat 0) with 0%Z in Hrun2.
  unfold mbind at 1, M_bind at 1. rewrite Hrun2. cbn [fst snd negb orb].
  rewrite bool_decide_false by (intros H; by apply H). cbn [orb].
  pose proof (built_same_tree _ _ _ Hb2 Hs2) as Hb2'.
  destruct (serialize_roundtrip t2' defaultConfig _ (built_data _ _ Hb2'))
    as (text & t3 & Hser & Hde & Hs3 & _).
  unfold mbind at 1, M_bind at 1. rewrite Hser.
  unfold mbind at 1, M_bind at 1, lift at 1. rewrite Hde.
  destruct (built_root_hash _ _ Hb2') as (h & Hh).
  destruct (built_root_hash _ _ (built_same_tree _ _ _ Hb2' Hs3))
    as (h3 & Hh3).
  assert (h3 = h) as ->.
  { destruct Hs3 as (Hn & _ & Hr & _). unfold getRootHash in Hh, Hh3.
    rewrite Hn, Hr, Hh in Hh3. congruence. }
  unfold mbind at 1, M_bind at 1. rewrite Hh.
  unfold mbind at 1, M_bind at 1, lift at 1. rewrite Hh3.
  cbn [fst snd]. by rewrite (proj2 (hashesEqual_true h h) eq_refl).
Qed.
End self_test.

(** ** The counters *)

Section counters.
Context `{HP : HashPrimitive}.

#[local] Instance same_metrics_preorder : PreOrder same_metrics.
Proof.
  split; [done|]. intros t1 t2 t3 [? ?] [? ?]. split; congruence.
Qed.

Lemma onNodes_metrics {A} (m : M (list InternalNode) A) :
  preserves same_metrics (onNodes m).
Proof. intros t. unfold onNodes. by destruct (m (nodes t)). Qed.

Lemma applyUpdates_metrics entries :
  preserves same_metrics (applyUpdates entries).
Proof.
  induction entries as [|[idx data] entries IH]; cbn [applyUpdates];
    [pure_step|].
  bind_step; [by apply preserves_modify|].
  bind_step; [apply onNodes_metrics|done].
Qed.

Lemma counts_bind {A B} k (m : M TernaryMeshTree A)
    (f : A → M TernaryMeshTree B) :
  preserves same_metrics m → (∀ a, counts_updates k (f a)) →
  counts_updates k (m ≫= f).
Proof.
  intros Hm Hf t. unfold mbind, M_bind. destruct (Hm t) as [Hc Hms].
  destruct (m t) as [t1 [a|e|]]; simpl in *; [|done..].
  destruct (Hf a t1) as [Hc' Hms']. rewrite Hc', Hms', Hc, Hms. done.
Qed.

Lemma counts_throw {A} k e : counts_updates k (throw (A:=A) e).
Proof. intros t. done. Qed.

Lemma counts_countUpdates k : counts_updates k (countUpdates k).
Proof.
  intros t. unfold countUpdates.
  by destruct (enableMetrics (cfg t)).
Qed.

Lemma update_counts i d : counts_updates 1 (update i d).
Proof.
  unfold update. apply counts_bind; [pure_step|]. intros n.
  case_decide; [apply counts_throw|].
  apply counts_bind; [by apply preserves_modify|]. intros _.
  apply counts_bind; [apply onNodes_metrics|]. intros _.
  apply counts_bind; [apply onNodes_metrics|]. intros _.
  apply counts_countUpdates.
Qed.

Lemma batchUpdate_counts updates :
  counts_updates (length updates) (batchUpdate updates).
Proof.
  unfold batchUpdate. apply counts_bind; [pure_step|]. intros n.
  apply counts_bind; [pure_step|]. intros _.
  apply counts_bind; [apply applyUpdates_metrics|]. intros _.
  apply counts_bind; [pure_step|]. intros affected.
  apply counts_bind; [pure_step|]. intros fuel.
  apply counts_bind; [apply onNodes_metrics|]. intros _.
  apply counts_countUpdates.
Qed.

Lemma countVerification_counts {A} (a : A) t :
  cfg ((countVerification;; mret a) t).1 = cfg t
  ∧ metrics ((countVerification;; mret a) t).1
    = if enableMetrics (cfg t) then countedVerification (metrics t)
      else metrics t.
Proof.
  unfold mbind, M_bind, countVerification.
  by destruct (enableMetrics (cfg t)).
Qed.

Lemma verify_counts i d t :
  cfg (verify i d t).1 = cfg t
  ∧ metrics (verify i d t).1
    = match (verify i d t).2 with
      | Return (_, None) =>
          if enableMetrics (cfg t) then countedVerification (metrics t)
          else metrics t
      | _ => metrics t
      end.
Proof.
  unfold verify. case_decide; [done|].
  destruct (rootID t); [|done].
  destruct (nodeAt _ _); [|done].
  destruct (negb _).
  { rewrite countVerification_then. apply countVerification_counts. }
  destruct (_ ≫= _); [|done..].
  rewrite countVerification_then. apply countVerification_counts.
Qed.

(** X14: with metrics switched on, [totalUpdates] counts the updates
    that went through and [totalVerifications] the verifications
    that reached an answer.  An [update] that returns adds 1, a
    [batchUpdate] that returns adds the number of its entries, a
    [verify] that answers without an error adds 1; a call that
    throws, and a [verify] that reports an error, leave all of
    [getMetrics] as it was. *)
Theorem metrics_counters (t : TernaryMeshTree) :
  enableMetrics (cfg t) = true →
  (∀ i d,
     getMetrics (update i d t).1
     = if returns (update i d t).2 then countedUpdates 1 (getMetrics t)
       else getMetrics t)
  ∧ (∀ updates,
       getMetrics (batchUpdate updates t).1
       = if returns (batchUpdate updates t).2
         then countedUpdates (length updates) (getMetrics t)
         else getMetrics t)
  ∧ (∀ i d,
       getMetrics (verify i d t).1
       = match (verify i d t).2 with
         | Return (_, None) => countedVerification (getMetrics t)
         | _ => getMetrics t
         end).
Proof.
  intros Hon. unfold getMetrics. rewrite Hon. cbn [negb]. split_and!.
  - intros i d. destruct (update_counts i d t) as [-> ->].
    rewrite Hon. cbn [negb]. by rewrite andb_true_r.
  - intros updates. destruct (batchUpdate_counts updates t) as [-> ->].
    rewrite Hon. cbn [negb]. by rewrite andb_true_r.
  - intros i d. destruct (verify_counts i d t) as [-> ->].
    rewrite Hon. cbn [negb]. done.
Qed.
End counters.

(** ** The size of the hash cache *)

Section cache_size.
Context `{HP : HashPrimitive}.

#[local] Instance keeps_cache_within_preorder : PreOrder keeps_cache_within.
Proof.
  split; [done|]. intros t1 t2 t3 [Hc1 H1] [Hc2 H2].
  split; [congruence|auto].
Qed.








End cache_size.

(** ** [update] on a built tree *)

Section leaves.
Context `{HP : HashPrimitive}.

#[local] Instance leaves_kept_preorder : PreOrder leaves_kept.
Proof.
  split; [by intros ns x nx|]. intros ns1 ns2 ns3 H1 H2 x nx Hx Hl. eauto.
Qed.

Lemma recomputeNodeHash_leaves id :
  preserves leaves_kept (recomputeNodeHash id).
Proof.
  intros ns. unfold recomputeNodeHash.
  case_decide; [done|]. destruct (ns !! id) as [n|] eqn:Hn; [|done].
  destruct (isLeaf n) eqn:Hl; [done|].
  destruct (hashChunk ns (children n)); [|done..].
  intros x nx Hx Hlx. simpl. rewrite list_lookup_insert_ne; [done|].
  intros <-. congruence.
Qed.

Lemma recomputeDownFrom_leaves anc k :
  preserves leaves_kept (recomputeDownFrom anc k).
Proof.
  induction k as [|k IH]; cbn [recomputeDownFrom]; [pure_step|].
  bind_step; [pure_step|].
  bind_step; [apply recomputeNodeHash_leaves|done].
Qed.

Lemma updateAncestors_leaves cur :
  preserves leaves_kept (updateAncestors cur).
Proof.
  unfold updateAncestors. bind_step; [pure_step|].
  apply recomputeDownFrom_leaves.
Qed.

Lemma sweep_leaves fuel : ∀ queue seen,
  preserves leaves_kept (sweep fuel queue seen).
Proof.
  induction fuel as [|fuel IH]; intros queue seen; cbn [sweep]; [pure_step|].
  destruct queue as [|id queue]; [pure_step|].
  case_decide; [done|].
  bind_step; [apply recomputeNodeHash_leaves|].
  bind_step; [pure_step|]. by destruct (parent _).
Qed.

Lemma update_leaves (t : TernaryMeshTree) (i : Z)
    (d : bytes) (n : InternalNode) :
  (0 ≤ i < leafCount t)%Z → nodes t !! Z.to_nat i = Some n →
  isLeaf n = true →
  leafData (update i d t).1 = arraySet (leafData t) (Z.to_nat i) d
  ∧ nodes (update i d t).1 !! Z.to_nat i = Some (set_hash (computeHash d) n)
  ∧ ∀ x nx, x ≠ Z.to_nat i → nodes t !! x = Some nx → isLeaf nx = true →
      nodes (update i d t).1 !! x = Some nx.
Proof.
  intros Hi Hn Hl.
  set (ns1 := <[Z.to_nat i := set_hash (computeHash d) n]> (nodes t)).
  set (t1 := set_nodes (λ _, ns1)
               (set_leafData (λ ld, arraySet ld (Z.to_nat i) d) t)).
  assert (update i d t
          = (onNodes (updateAncestors (Z.to_nat i));; countUpdates 1) t1)
    as ->.
  { unfold update. unfold mbind at 1, M_bind at 1, gets at 1.
    rewrite decide_False by lia.
    unfold mbind at 1, M_bind at 1, modify at 1.
    unfold mbind at 1, M_bind at 1, onNodes at 1, setLeafHash.
    unfold mbind at 1, M_bind at 1.
    cbn [nodes set_leafData]. rewrite Hn. cbn [deref].
    unfold modify at 1. done. }
  pose proof (updateAncestors_leaves (Z.to_nat i) ns1) as Hkept.
  assert (leafData ((onNodes (updateAncestors (Z.to_nat i));;
                     countUpdates 1) t1).1 = leafData t1
          ∧ nodes ((onNodes (updateAncestors (Z.to_nat i));;
                    countUpdates 1) t1).1
            = (updateAncestors (Z.to_nat i) ns1).1) as [-> ->].
  { unfold mbind, M_bind, onNodes, countUpdates. cbn [nodes t1 set_nodes].
    destruct (updateAncestors (Z.to_nat i) ns1) as [ns' [[]|e|]];
      cbn [cfg set_nodes]; [|done..].
    by destruct (enableMetrics _). }
  split_and!; [done| |].
  - apply Hkept; [|done]. unfold ns1.
    apply list_lookup_insert_eq. by eapply lookup_lt_Some.
  - intros x nx Hx Hnx Hlx. apply Hkept; [|done]. unfold ns1.
    by rewrite list_lookup_insert_ne.
Qed.

(** X16: on a tree built from [blocks], [update] at an index below
    [blocks.length] returns: it neither throws nor loops.  Afterwards
    the leaf data are the blocks with the new content at the index
    (padding kept), every leaf holds the digest of its content, and
    the shape of the tree is unchanged. *)
Theorem update_returns (t0 : TernaryMeshTree) (blocks : list bytes)
    (i : nat) (d : bytes) :
  reachable t0 → i < length blocks →
  ∃ t t',
    build blocks t0 = (t, Return ())
    ∧ update (Z.of_nat i) d t = (t', Return ())
    ∧ leafData t' = Some <$> padded (<[i := d]> blocks)
    ∧ (∀ j x, padded (<[i := d]> blocks) !! j = Some x →
         ∃ n, nodes t' !! j = Some n ∧ hash n = computeHash x
              ∧ isLeaf n = true)
    ∧ keeps_shape t t'.
Proof.
  intros Hc%reachable_cache_ok Hi.
  assert (blocks ≠ []) as Hne by (intros ->; simpl in Hi; lia).
  destruct (build_spec blocks t0 Hne Hc) as (t & Hrun & Hb & _).
  destruct (built_root _ _ Hb) as (root & Hroot & Hs).
  destruct (built_leaves _ _ Hb) as (Hlen & Hold & _).
  assert (∀ j x, padded blocks !! j = Some x →
            ∃ n, nodes t !! j = Some n ∧ hash n = computeHash x
                 ∧ isLeaf n = true) as Hleaves.
  { intros j x Hx.
    destruct (Hold j (leafNode (computeHash x))) as (n & Hn & Hh & _ & Hl).
    - unfold leafLayer. by rewrite list_lookup_fmap, Hx.
    - eauto. }
  destruct (lookup_lt_is_Some_2 blocks i Hi) as [b Hbi].
  destruct (Hleaves i b) as (n & Hn & Hh & Hl).
  { unfold padded. by apply lookup_app_l_Some. }
  assert (0 ≤ Z.of_nat i < leafCount t)%Z as Hrange
    by (rewrite (built_leafCount _ _ Hb); lia).
  destruct (update_ok t root (Z.of_nat i) n d Hroot Hs (built_hash _ _ Hb)
              Hrange) as (Hret & _); [by rewrite Nat2Z.id|].
  destruct (update_leaves t (Z.of_nat i) d n Hrange)
    as (Hld & Hni & Hother); [by rewrite Nat2Z.id|done|].
  rewrite Nat2Z.id in Hld, Hni, Hother.
  pose proof (update_shape (Z.of_nat i) d t) as Hshape.
  destruct (update (Z.of_nat i) d t) as [t' c] eqn:Eup.
  cbn [fst snd] in *. subst c.
  exists t, t'. do 2 (split; [done|]). split; [|split].
  - rewrite Hld, (built_data _ _ Hb). by apply arraySet_padded.
  - intros j x Hx. destruct (decide (j = i)) as [->|Hne'].
    + exists (set_hash (computeHash d) n). split; [done|].
      unfold padded in Hx. rewrite lookup_app_l in Hx
        by (rewrite length_insert; lia).
      rewrite list_lookup_insert_eq in Hx by done.
      injection Hx as <-. done.
    + assert (padded blocks !! j = Some x) as Hx'.
      { unfold padded in *. rewrite length_insert in Hx.
        destruct (decide (j < length blocks)).
        - rewrite lookup_app_l in Hx by (rewrite length_insert; lia).
          rewrite list_lookup_insert_ne in Hx by done.
          by rewrite lookup_app_l by lia.
        - rewrite lookup_app_r in Hx by (rewrite length_insert; lia).
          rewrite length_insert in Hx.
          by rewrite lookup_app_r by lia. }
      destruct (Hleaves j x Hx') as (nj & Hnj & Hhj & Hlj).
      exists nj. split; [by apply Hother|done].
  - by apply same_shape_keeps.
Qed.
End leaves.

(** ** [batchUpdate] on a built tree *)

Section batch.
Context `{HP : HashPrimitive}.

Lemma collectAncestors_ok ns root :
  shape_ok ns [root] →
  ∀ k cur n set fuel,
    ns !! cur = Some n → length ns - cur ≤ k → k < fuel →
    Forall (internal ns) set →
    ∃ set', collectAncestors fuel ns cur set = Return set'
            ∧ Forall (internal ns) set'.
Proof.
  intros Hs. induction k as [|k IH]; intros cur n set fuel Hn Hk Hfuel Hset.
  { apply lookup_lt_Some in Hn. lia. }
  destruct fuel as [|fuel]; [lia|]. cbn [collectAncestors].
  rewrite Hn. cbn [deref mbind completion_bind].
  pose proof (parent_ok _ _ Hs _ _ Hn) as Hp.
  destruct (parent n) as [p|]; [|by eauto].
  destruct Hp as (Hlt & _ & pn & Hpn & Hleaf & _).
  apply (IH p pn); [done|lia|lia|].
  unfold setAdd. case_decide; [done|].
  apply Forall_app. split; [done|]. apply Forall_singleton.
  unfold internal. by rewrite Hpn, <-Hleaf.
Qed.

Lemma collectAffected_ok ns root : ∀ updates affected,
  shape_ok ns [root] →
  (∀ idx d, (idx, d) ∈ updates → Z.to_nat idx < length ns) →
  Forall (internal ns) affected →
  ∃ affected', collectAffected updates ns affected = Return affected'
               ∧ Forall (internal ns) affected'.
Proof.
  intros updates. induction updates as [|[idx d] updates IH];
    intros affected Hs Hv Ha; [by eauto|].
  cbn [collectAffected].
  destruct (lookup_lt_is_Some_2 ns (Z.to_nat idx)) as [n Hn].
  { apply (Hv idx d). by left. }
  destruct (collectAncestors_ok ns root Hs (length ns) (Z.to_nat idx) n
              affected (S (length ns)) Hn) as (set' & -> & Hset');
    [lia|lia|done|].
  cbn [mbind completion_bind]. apply IH; [done| |done].
  intros idx' d' Hin. apply (Hv idx' d'). by right.
Qed.

Lemma internal_set_hash (ns : list InternalNode) (id : nat) n h x :
  ns !! id = Some n →
  internal (<[id := set_hash h n]> ns) x ↔ internal ns x.
Proof.
  intros Hn. unfold internal. rewrite (lookup_set_hash _ _ _ _ _ Hn).
  destruct (ns !! x) as [m|]; [|done]. simpl. by case_decide.
Qed.

Lemma sweep_step roots fuel id queue seen (ns : list InternalNode) n :
  shape_ok ns roots → ns !! id = Some n → isLeaf n = false → id ∉ seen →
  sweep (S fuel) (id :: queue) seen ns
  = sweep fuel
      (match parent n with Some p => queue ++ [p] | None => queue end)
      (id :: seen)
      (<[id := set_hash (digest (nodeHashes ns (children n))) n]> ns).
Proof.
  intros Hs Hn Hleaf Hseen. cbn [sweep]. rewrite decide_False by done.
  unfold mbind at 1, M_bind at 1.
  rewrite (recomputeNodeHash_ok _ _ _ _ Hs Hn Hleaf).
  unfold mbind at 1, M_bind at 1.
  rewrite list_lookup_insert_eq by (by eapply lookup_lt_Some).
  cbn [deref parent set_hash]. by destruct (parent n).
Qed.

Lemma sweep_total roots fuel : ∀ queue seen (ns : list InternalNode),
  shape_ok ns roots → Forall (internal ns) queue →
  (sweep fuel queue seen ns).2 = Return ()
  ∨ (sweep fuel queue seen ns).2 = Diverge.
Proof.
  induction fuel as [|fuel IH]; intros queue seen ns Hs Hq; [by right|].
  destruct queue as [|id queue]; [by left|].
  apply Forall_cons in Hq as [Hid Hq].
  destruct (decide (id ∈ seen)) as [Hin|Hnin].
  { cbn [sweep]. rewrite decide_True by done. by apply IH. }
  unfold internal in Hid.
  destruct (ns !! id) as [n|] eqn:Hn; [|done]. injection Hid as Hleaf.
  rewrite (sweep_step roots _ _ _ _ _ n) by done.
  set (h := digest (nodeHashes ns (children n))).
  pose proof (shape_ok_set_hash _ _ _ _ h Hs Hn (digest_length _)) as Hs'.
  assert (Forall (internal (<[id := set_hash h n]> ns)) queue) as Hq'.
  { eapply Forall_impl; [exact Hq|]. intros x Hx.
    by apply internal_set_hash. }
  pose proof (parent_ok _ _ Hs _ _ Hn) as Hp.
  destruct (parent n) as [p|]; [|by apply IH].
  destruct Hp as (_ & _ & pn & Hpn & Hpl & _).
  apply IH; [done|]. apply Forall_app. split; [done|].
  apply Forall_singleton. apply internal_set_hash; [done|].
  unfold internal. by rewrite Hpn, <-Hpl.
Qed.

Lemma leafLayer_length blocks :
  length (leafLayer blocks) = length (padded blocks).
Proof. unfold leafLayer. by rewrite length_fmap. Qed.

Lemma padded_insert_length blocks (i : nat) d :
  length (padded (<[i := d]> blocks)) = length (padded blocks).
Proof. unfold padded. by rewrite !length_app, !length_replicate, length_insert. Qed.

Lemma leafLayer_insert blocks (i : nat) d :
  i < length blocks →
  leafLayer (<[i := d]> blocks)
  = <[i := leafNode (computeHash d)]> (leafLayer blocks).
Proof.
  intros Hi. unfold leafLayer, padded. rewrite length_insert.
  rewrite <-insert_app_l by done.
  by rewrite list_fmap_insert.
Qed.

Lemma applyUpdates_ok updates : ∀ bs t root,
  shape_ok (nodes t) [root] → frame (leafLayer bs) (nodes t) →
  leafData t = Some <$> padded bs →
  (∀ idx d, (idx, d) ∈ updates → (0 ≤ idx < Z.of_nat (length bs))%Z) →
  ∃ t', applyUpdates updates t = (t', Return ())
        ∧ shape_ok (nodes t') [root]
        ∧ frame (leafLayer (applied updates bs)) (nodes t')
        ∧ leafData t' = Some <$> padded (applied updates bs)
        ∧ length (applied updates bs) = length bs.
Proof.
  induction updates as [|[idx d] updates IH]; intros bs t root Hs Hf Hld Hv.
  { exists t. by split_and!. }
  assert (0 ≤ idx < Z.of_nat (length bs))%Z as Hidx by (apply (Hv idx d); by left).
  set (i := Z.to_nat idx). assert (i < length bs) as Hi by lia.
  destruct Hf as (Hlen & Hold & Hnew).
  assert (leafLayer bs !! i = Some (leafNode (computeHash (default [] (bs !! i)))))
    as Hl.
  { destruct (lookup_lt_is_Some_2 bs i Hi) as [b Hb]. rewrite Hb.
    by apply leafLayer_lookup_block. }
  destruct (Hold _ _ Hl) as (n & Hn & _ & Hch & Hleaf).
  cbn [applyUpdates]. unfold mbind at 1, M_bind at 1, modify at 1.
  unfold mbind at 1, M_bind at 1, onNodes at 1, setLeafHash.
  unfold mbind at 1, M_bind at 1. cbn [nodes set_leafData]. fold i.
  rewrite Hn. cbn [deref]. unfold modify at 1.
  set (t1 := set_nodes _ _).
  destruct (IH (<[i := d]> bs) t1 root) as (t' & Hrun & Hs' & Hf' & Hld' & Hlen').
  - unfold t1. cbn [nodes set_nodes set_leafData].
    by apply shape_ok_set_hash; [| |apply computeHash_length].
  - unfold t1. cbn [nodes set_nodes set_leafData].
    rewrite leafLayer_insert by done. split_and!.
    + rewrite !length_insert. done.
    + intros j l Hj. destruct (decide (j = i)) as [->|Hne].
      * rewrite list_lookup_insert_eq in Hj
          by (rewrite leafLayer_length; unfold padded;
              rewrite length_app; lia).
        injection Hj as <-.
        rewrite list_lookup_insert_eq by (by eapply lookup_lt_Some).
        eexists. split; [done|]. by split_and!.
      * rewrite list_lookup_insert_ne in Hj by done.
        rewrite list_lookup_insert_ne by done. by apply Hold.
    + intros j n' Hj Hn'. rewrite length_insert in Hj.
      rewrite list_lookup_insert_ne in Hn'; [by eapply Hnew|].
      rewrite leafLayer_length in Hj. unfold padded in Hj.
      rewrite length_app in Hj. lia.
  - unfold t1. cbn [leafData set_nodes set_leafData].
    rewrite Hld. by apply arraySet_padded.
  - intros idx' d' Hin. rewrite length_insert. apply (Hv idx' d'). by right.
  - exists t'. cbn [applied foldl]. fold i. fold (applied updates (<[i := d]> bs)).
    rewrite length_insert in Hlen'. by split_and!.
Qed.

(** X17: on a tree built from [blocks], [batchUpdate] with every index
    below [blocks.length] returns: it neither throws nor loops.
    Afterwards the leaf data are the blocks with the entries written
    in the mapping's order (padding kept), and every leaf holds the
    digest of its content. *)
Theorem batchUpdate_returns (t0 : TernaryMeshTree) (blocks : list bytes)
    (updates : list (Z * bytes)) :
  reachable t0 → blocks ≠ [] →
  (∀ idx d, (idx, d) ∈ updates → (0 ≤ idx < Z.of_nat (length blocks))%Z) →
  ∃ t t',
    build blocks t0 = (t, Return ())
    ∧ batchUpdate updates t = (t', Return ())
    ∧ leafData t' = Some <$> padded (applied updates blocks)
    ∧ ∀ i d, padded (applied updates blocks) !! i = Some d →
        ∃ n, nodes t' !! i = Some n ∧ hash n = computeHash d
             ∧ isLeaf n = true.
Proof.
  intros Hc%reachable_cache_ok Hne Hv.
  destruct (build_spec blocks t0 Hne Hc) as (t & Hrun & Hb & _).
  destruct (built_root _ _ Hb) as (root & Hroot & Hs).
  destruct (applyUpdates_ok updates blocks t root Hs (built_leaves _ _ Hb)
              (built_data _ _ Hb) Hv)
    as (t1 & Happly & Hs1 & Hf1 & Hld1 & Hlen1).
  assert (validateIndices updates (leafCount t) = Return ()) as Hval.
  { rewrite (built_leafCount _ _ Hb). clear -Hv.
    induction updates as [|[idx d] updates IH]; [done|].
    cbn [validateIndices]. rewrite decide_False
      by (specialize (Hv idx d ltac:(by left)); lia).
    apply IH. intros idx' d' Hin. apply (Hv idx' d'). by right. }
  destruct (collectAffected_ok (nodes t1) root updates [] Hs1)
    as (affected & Haff & Hint); [|done|].
  { intros idx d Hin. specialize (Hv idx d Hin).
    destruct Hf1 as (Hlen & _). rewrite leafLayer_length in Hlen.
    unfold padded in Hlen. rewrite length_app, Hlen1 in Hlen. lia. }
  set (fuel := S (length affected + length (nodes t1))).
  assert ((sweep fuel affected [] (nodes t1)).2 = Return ()) as Hsweep.
  { destruct (sweep_total [root] fuel affected [] (nodes t1) Hs1 Hint)
      as [|Hdiv]; [done|].
    by destruct (batchUpdate_sweep_ends affected (nodes t1)). }
  pose proof (sweep_leaves fuel affected [] (nodes t1)) as Hkept.
  destruct (sweep fuel affected [] (nodes t1)) as [ns' c] eqn:Esweep.
  simpl in Hsweep, Hkept. subst c.
  set (t2 := set_nodes (λ _, ns') t1).
  exists t, (countUpdates (length updates) t2).1.
  assert (batchUpdate updates t = countUpdates (length updates) t2) as ->.
  { unfold batchUpdate. unfold mbind at 1, M_bind at 1, gets at 1.
    unfold mbind at 1, M_bind at 1, lift at 1. rewrite Hval.
    unfold mbind at 1, M_bind at 1. rewrite Happly.
    unfold mbind at 1, M_bind at 1. rewrite Haff.
    unfold mbind at 1, M_bind at 1, gets at 1.
    unfold mbind at 1, M_bind at 1, onNodes at 1.
    fold fuel. by rewrite Esweep. }
  assert (leafData (countUpdates (length updates) t2).1 = leafData t1
          ∧ nodes (countUpdates (length updates) t2).1 = ns')
    as [-> ->].
  { unfold countUpdates. by destruct (enableMetrics _). }
  split_and!; [done| |done|].
  - rewrite <-(countUpdates_returns (length updates) t2).
    by destruct (countUpdates _ _).
  - intros i d Hd.
    assert (leafLayer (applied updates blocks) !! i
            = Some (leafNode (computeHash d))) as Hl
      by (unfold leafLayer; by rewrite list_lookup_fmap, Hd).
    destruct Hf1 as (_ & Hold & _).
    destruct (Hold _ _ Hl) as (n & Hn & Hh & _ & Hleaf).
    exists n. split_and!; [|done..]. by apply Hkept.
Qed.
End batch.

(** ** The size of a built tree and of its proofs *)

Section sizes.
Context `{HP : HashPrimitive}.

Lemma height_is_unique ns id k k' :
  height_is ns id k → height_is ns id k' → k = k'.
Proof.
  intros Hk Hk'. specialize (Hk (k `max` k') ltac:(lia)).
  specialize (Hk' (k `max` k') ltac:(lia)). congruence.
Qed.

Lemma level_ok_addLayer current ns k :
  shape_ok ns current → level_ok ns →
  (∀ id, id ∈ current → height_is ns id k) →
  level_ok (addLayer ns (chunkBy current 3)).
Proof.
  intros Hs Hlev Hk i n' Hi Hleaf.
  destruct (addLayer_spec (chunkBy current 3) ns (chunks_valid _ _ Hs))
    as (Hlen & Hf & Hnew).
  pose proof Hf as (_ & Hold & _).
  destruct (decide (i < length ns)) as [Hlt|Hge].
  - destruct (lookup_lt_is_Some_2 ns i Hlt) as [n Hn].
    destruct (Hold _ _ Hn) as (n2 & Hn2 & _ & Hch & Hl).
    assert (n2 = n') as -> by congruence.
    destruct (Hlev i n Hn ltac:(congruence)) as (k' & Hi' & Hcs).
    exists k'. split; [by eapply height_frame|]. rewrite Hch.
    eapply Forall_impl; [exact Hcs|]. intros c Hc.
    by eapply height_frame.
  - pose proof (lookup_lt_Some _ _ _ Hi) as Hlt. rewrite Hlen in Hlt.
    destruct (lookup_lt_is_Some_2 (chunkBy current 3) (i - length ns))
      as [chunk Hc]; [lia|].
    destruct (Hnew _ _ Hc) as (n2 & Hn2 & Hch & Hl).
    replace (length ns + (i - length ns)) with i in Hn2 by lia.
    assert (n2 = n') as -> by congruence.
    destruct (chunkBy_chunk current 3 _ _ ltac:(lia) Hc)
      as (Hcne & _ & Hsub).
    assert (Forall (λ c, height_is (addLayer ns (chunkBy current 3)) c k)
              (children n')) as Hcs.
    { rewrite Hch. apply Forall_forall. intros c Hc'.
      eapply height_frame; [done|]. apply Hk. by apply Hsub. }
    exists k. split; [|done].
    eapply height_parent; [done|done|by rewrite Hch|done].
Qed.

Lemma layers_levels fuel : ∀ k current ns,
  length current ≤ fuel → current ≠ [] →
  shape_ok ns current → hash_ok ns → level_ok ns →
  (∀ id, id ∈ current → height_is ns id k) →
  level_ok (layers fuel current ns).1
  ∧ length (layers fuel current ns).1 + 1 ≤ length ns + length current
  ∧ length ns + (if decide (1 < length current) then 1 else 0)
    ≤ length (layers fuel current ns).1.
Proof.
  induction fuel as [|fuel IH]; intros k current ns Hfuel Hne Hs Hh Hlev Hk.
  { destruct current; [done|]. simpl in Hfuel. lia. }
  cbn [layers]. case_decide as Hlen.
  - set (chunks := chunkBy current 3).
    destruct (addLayer_shape current ns Hs Hh) as [Hs1 Hh1].
    destruct (addLayer_spec chunks ns (chunks_valid _ _ Hs))
      as (Hlen1 & Hf1 & Hnew).
    assert (length chunks = (length current + 2) / 3) as Hcount.
    { unfold chunks. rewrite chunkBy_length by lia. f_equal. lia. }
    assert (1 ≤ length chunks ∧ 2 * length chunks ≤ length current)
      as [Hc1 Hc2].
    { rewrite Hcount.
      pose proof (Nat.div_mod_eq (length current + 2) 3).
      pose proof (Nat.mod_upper_bound (length current + 2) 3). lia. }
    destruct (IH (S k) (seq (length ns) (length chunks)) (addLayer ns chunks))
      as (Hlev' & Hsize & Hmono).
    + rewrite length_seq. lia.
    + destruct chunks; [simpl in Hc1; lia|done].
    + done.
    + done.
    + by eapply level_ok_addLayer.
    + intros id [Hge Hlt]%elem_of_seq.
      destruct (lookup_lt_is_Some_2 chunks (id - length ns))
        as [chunk Hc]; [lia|].
      destruct (Hnew _ _ Hc) as (n' & Hn' & Hch & Hl).
      replace (length ns + (id - length ns)) with id in Hn' by lia.
      destruct (chunkBy_chunk current 3 _ _ ltac:(lia) Hc)
        as (Hcne & _ & Hsub).
      eapply height_parent; [done|done|by rewrite Hch|].
      rewrite Hch. apply Forall_forall. intros c Hc'.
      eapply height_frame; [done|]. apply Hk. by apply Hsub.
    + rewrite length_seq, Hlen1 in Hsize. rewrite Hlen1 in Hmono.
      split_and!; [done|lia|lia].
  - cbn [fst]. split_and!; [done|destruct current; [done|simpl; lia]|lia].
Qed.

Lemma leafLayer_level blocks : level_ok (leafLayer blocks).
Proof.
  intros i n Hi Hl. unfold leafLayer in Hi.
  by apply list_lookup_fmap_Some in Hi as (d & -> & _).
Qed.

Lemma builtNodes_levels blocks :
  blocks ≠ [] →
  level_ok (builtNodes blocks).1
  ∧ length (padded blocks) < length (builtNodes blocks).1
  ∧ length (builtNodes blocks).1 < 2 * length (padded blocks).
Proof.
  intros Hne. pose proof (padded_length_pos blocks Hne) as Hm.
  set (m := length (padded blocks)) in *.
  destruct (layers_levels m 1 (seq 0 m) (leafLayer blocks))
    as (Hlev & Hup & Hlow).
  - by rewrite length_seq.
  - destruct m; [lia|done].
  - apply leafLayer_shape.
  - apply leafLayer_hash_ok.
  - apply leafLayer_level.
  - intros id [_ Hid]%elem_of_seq.
    destruct (lookup_lt_is_Some_2 (leafLayer blocks) id) as [n Hn].
    { rewrite leafLayer_length. fold m. lia. }
    eapply height_leaf; [done|]. unfold leafLayer in Hn.
    by apply list_lookup_fmap_Some in Hn as (d & -> & _).
  - rewrite length_seq, leafLayer_length in Hup, Hlow. fold m in Hup, Hlow.
    rewrite decide_True in Hlow by lia.
    unfold builtNodes. fold m. split_and!; [done|lia|lia].
Qed.

Lemma siblingsOf_length ns cs pos : ∀ i level,
  siblingsOf ns cs pos i = Return level →
  length level + (if decide (i ≤ pos < i + length cs) then 1 else 0)
  = length cs.
Proof.
  induction cs as [|c cs IH]; intros i level Hrun.
  { injection Hrun as <-. simpl. case_decide; lia. }
  cbn [siblingsOf] in Hrun. case_decide as Hi.
  - subst i. specialize (IH _ _ Hrun).
    rewrite decide_False in IH by lia.
    rewrite decide_True by (simpl; lia). simpl. lia.
  - destruct (ns !! c) as [cn|]; [|done].
    cbn [deref mbind completion_bind] in Hrun.
    destruct (siblingsOf ns cs pos (S i)) as [sibs| |] eqn:E; [|done..].
    cbn [mbind completion_bind] in Hrun. injection Hrun as <-.
    specialize (IH _ _ E). cbn [length].
    repeat case_decide; simpl in *; lia.
Qed.

Lemma proof_path_levels ns root H :
  shape_ok ns [root] → arity_ok ns → level_ok ns →
  height_is ns root H →
  ∀ k cur n hcur sibs path fuel,
    ns !! cur = Some n → height_is ns cur hcur →
    length ns - cur ≤ k → k < fuel →
    ∃ more d,
      proofLoop fuel ns (Z.of_nat cur) sibs path
      = Return (sibs ++ more, path + d)
      ∧ hcur + d = H ∧ length more ≤ 2 * d.
Proof.
  intros Hs Ha Hlev Hroot. induction k as [|k IH];
    intros cur n hcur sibs path fuel Hn Hcur Hk Hfuel.
  { apply lookup_lt_Some in Hn. lia. }
  destruct fuel as [|fuel]; [lia|].
  cbn [proofLoop]. rewrite nodeAt_of_nat, Hn.
  cbn [deref mbind completion_bind].
  pose proof (parent_ok _ _ Hs cur n Hn) as Hp.
  destruct (parent n) as [p|] eqn:Hpar.
  - destruct Hp as (Hlt & _ & pn & Hpn & Hleaf & Hin).
    rewrite Hpn. cbn [deref mbind completion_bind].
    destruct (findPos_elem _ _ 0 Hin) as (pos & Hfind & Hpos).
    rewrite Hfind. cbn [Nat.add].
    pose proof (shape_ok_children_valid _ _ _ _ Hs Hpn Hleaf) as Hv.
    destruct (verify_level _ _ _ _ _ Hv Hpos Hn) as (level & Hsib & _).
    rewrite Hsib. cbn [deref mbind completion_bind].
    pose proof (siblingsOf_length _ _ _ _ _ Hsib) as Hll.
    pose proof (lookup_lt_Some _ _ _ Hpos) as Hposlt.
    rewrite decide_True in Hll by lia.
    pose proof (Ha _ _ Hpn) as Har. rewrite Hleaf in Har.
    destruct (Hlev _ _ Hpn Hleaf) as (k' & Hph & Hcs).
    assert (height_is ns cur k') as Hcur'
      by (eapply Forall_forall in Hcs; [exact Hcs|done]).
    pose proof (height_is_unique _ _ _ _ Hcur Hcur') as <-.
    pose proof (lookup_lt_Some _ _ _ Hpn) as Hplt.
    destruct (IH p pn (S hcur) (sibs ++ level) (S path) fuel Hpn Hph)
      as (more & d & Hrun & Hsum & Hlen); [lia..|].
    exists (level ++ more), (S d). split_and!.
    + rewrite Hrun. do 2 f_equal; [by rewrite (assoc_L (++))|lia].
    + lia.
    + rewrite length_app. lia.
  - apply list_elem_of_singleton in Hp as ->.
    exists [], 0. split_and!; [by rewrite app_nil_r, Nat.add_0_r| |simpl; lia].
    pose proof (height_is_unique _ _ _ _ Hcur Hroot). lia.
Qed.

Lemma build_levels blocks t0 :
  reachable t0 → blocks ≠ [] →
  ∃ t root h,
    build blocks t0 = (t, Return ())
    ∧ rootID t = Some root
    ∧ leafCount t = Z.of_nat (length blocks)
    ∧ leafData t = Some <$> padded blocks
    ∧ shape_ok (nodes t) [root] ∧ arity_ok (nodes t) ∧ level_ok (nodes t)
    ∧ height_is (nodes t) root h ∧ h ≤ length (nodes t)
    ∧ length (padded blocks) < length (nodes t)
    ∧ length (nodes t) < 2 * length (padded blocks)
    ∧ frame (leafLayer blocks) (nodes t).
Proof.
  intros Hreach Hne.
  destruct (build_full blocks t0 Hreach Hne)
    as (t & root & Hrun & Hn & Hr & Hlc & Hld & _ & Hs & _ & Ha & Hht & Hle).
  destruct (builtNodes_levels blocks Hne) as (Hlev & Hlow & Hup).
  destruct (builtNodes_spec blocks Hne)
    as (root' & _ & _ & _ & _ & _ & _ & Hf).
  exists t, root, (1 + rounds (length (padded blocks)) (length (padded blocks))).
  rewrite Hn. rewrite Hn in Hs, Ha, Hht, Hle. by split_and!.
Qed.

(** X18: a tree built from a non-empty block sequence has more nodes
    than leaves and fewer than twice as many: with [m] leaves,
    padding included, the node array has more than [m] and fewer
    than [2 m] entries. *)
Theorem build_node_count (t0 : TernaryMeshTree) (blocks : list bytes) :
  reachable t0 → blocks ≠ [] →
  ∃ t, build blocks t0 = (t, Return ())
       ∧ length (leafData t) < length (nodes t)
       ∧ length (nodes t) < 2 * length (leafData t).
Proof.
  intros Hreach Hne.
  destruct (build_levels blocks t0 Hreach Hne)
    as (t & root & h & Hrun & _ & _ & Hld & _ & _ & _ & _ & _ & Hlow & Hup & _).
  exists t. rewrite Hld, length_fmap. done.
Qed.

(** X19: on a tree built from [blocks], the proof [generateProof] gives
    for an index below [blocks.length] is as long as the tree is
    high: its [pathLength] is [getHeight() - 1], and it has at most
    two sibling entries per step of the path. *)
Theorem proof_size (t0 : TernaryMeshTree) (blocks : list bytes) (i : nat) :
  reachable t0 → i < length blocks →
  ∃ t proof h,
    build blocks t0 = (t, Return ())
    ∧ generateProof t (Z.of_nat i) = Return proof
    ∧ getHeight t = Return h
    ∧ pathLength proof + 1 = h
    ∧ length (siblingHashes proof) ≤ 2 * pathLength proof.
Proof.
  intros Hreach Hi.
  assert (blocks ≠ []) as Hne by (intros ->; simpl in Hi; lia).
  destruct (build_levels blocks t0 Hreach Hne)
    as (t & root & h & Hrun & Hr & Hlc & _ & Hs & Ha & Hlev & Hht & Hle
        & _ & _ & Hf).
  destruct (lookup_lt_is_Some_2 blocks i Hi) as [b Hb].
  destruct Hf as (_ & Hold & _).
  destruct (Hold i _ (leafLayer_lookup_block _ _ _ Hb))
    as (n & Hn & _ & _ & Hleaf).
  destruct (proof_path_levels (nodes t) root h Hs Ha Hlev Hht
              (length (nodes t)) i n 1 [] 0 (S (length (nodes t))) Hn)
    as (more & d & Hgen & Hsum & Hlen); [by eapply height_leaf|lia..|].
  exists t, {| leafIndex := Z.of_nat i; siblingHashes := more;
               pathLength := d |}, h.
  split_and!; [done| | |simpl; lia|done].
  - unfold generateProof, generateProofInternal.
    rewrite decide_False by lia. by rewrite Hgen.
  - unfold getHeight. rewrite Hr. apply Hht. lia.
Qed.
End sizes.

(** ** [batchUpdate] on a tree of one level *)

Section batch_one_level.
Context `{HP : HashPrimitive}.

Lemma builtNodes_oneLevelOf blocks :
  0 < length blocks ≤ 3 →
  builtNodes blocks = (oneLevelOf blocks (oneLevelRoot blocks), [3]).
Proof. apply builtNodes_one_level. Qed.

Lemma setLeafHash_oneLevelOf bs r (i : nat) d :
  i < length bs → length bs ≤ 3 →
  setLeafHash i (computeHash d) (oneLevelOf bs r)
  = (oneLevelOf (<[i := d]> bs) r, Return ()).
Proof.
  intros Hi Hlen. unfold oneLevelOf.
  rewrite setLeafHash_oneLevel by lia.
  destruct bs as [|a [|b [|c [|]]]]; simpl in Hi, Hlen; try lia;
    destruct i as [|[|[|i]]]; simpl in Hi; try lia; reflexivity.
Qed.

Lemma applyUpdates_oneLevel updates : ∀ bs t r,
  nodes t = oneLevelOf bs r → leafData t = Some <$> padded bs →
  length bs ≤ 3 →
  (∀ idx d, (idx, d) ∈ updates → (0 ≤ idx < Z.of_nat (length bs))%Z) →
  ∃ t', applyUpdates updates t = (t', Return ())
        ∧ nodes t' = oneLevelOf (applied updates bs) r
        ∧ leafData t' = Some <$> padded (applied updates bs)
        ∧ rootID t' = rootID t ∧ leafCount t' = leafCount t
        ∧ cfg t' = cfg t
        ∧ length (applied updates bs) = length bs.
Proof.
  induction updates as [|[idx d] updates IH]; intros bs t r Hn Hld Hlen Hv.
  { exists t. by split_and!. }
  assert (0 ≤ idx < Z.of_nat (length bs))%Z as Hidx
    by (apply (Hv idx d); by left).
  set (i := Z.to_nat idx). assert (i < length bs) as Hi by lia.
  cbn [applyUpdates]. unfold mbind at 1, M_bind at 1, modify at 1.
  unfold mbind at 1, M_bind at 1, onNodes at 1.
  cbn [nodes set_leafData]. fold i.
  rewrite Hn, setLeafHash_oneLevelOf by done.
  set (t1 := set_nodes _ _).
  destruct (IH (<[i := d]> bs) t1 r)
    as (t' & Hrun & Hn' & Hld' & Hr' & Hlc' & Hcfg' & Hlen').
  - done.
  - unfold t1. cbn [leafData set_nodes set_leafData].
    rewrite Hld. by apply arraySet_padded.
  - by rewrite length_insert.
  - intros idx' d' Hin. rewrite length_insert. apply (Hv idx' d'). by right.
  - exists t'. cbn [applied foldl]. fold i.
    fold (applied updates (<[i := d]> bs)).
    rewrite length_insert in Hlen'. by split_and!.
Qed.

Lemma collectAncestors_oneLevel h0 h1 h2 r (i : nat) set :
  i < 3 →
  collectAncestors 5 (oneLevel h0 h1 h2 r) i set = Return (setAdd 3 set).
Proof. intros Hi. destruct i as [|[|[|i]]]; [done..|lia]. Qed.

Lemma collectAffected_oneLevel h0 h1 h2 r : ∀ updates affected,
  (∀ idx d, (idx, d) ∈ updates → Z.to_nat idx < 3) →
  affected = [] ∨ affected = [3] →
  collectAffected updates (oneLevel h0 h1 h2 r) affected
  = Return (match updates with [] => affected | _ => [3] end).
Proof.
  intros updates. induction updates as [|[idx d] updates IH];
    intros affected Hv Ha; [done|].
  cbn [collectAffected]. change (S (length (oneLevel h0 h1 h2 r))) with 5.
  rewrite collectAncestors_oneLevel by (apply (Hv idx d); by left).
  cbn [mbind completion_bind].
  assert (setAdd 3 affected = [3]) as -> by (by destruct Ha as [-> | ->]).
  rewrite IH; [by destruct updates| |by right].
  intros idx' d' Hin. apply (Hv idx' d'). by right.
Qed.

Lemma sweep_oneLevel h0 h1 h2 r fuel :
  length h0 = 32 → length h1 = 32 → length h2 = 32 → length r = 32 →
  sweep (S (S fuel)) [3] [] (oneLevel h0 h1 h2 r)
  = (oneLevel h0 h1 h2 (digest [h0; h1; h2]), Return ()).
Proof.
  intros H0 H1 H2 Hr. cbn [sweep].
  rewrite decide_False by (apply not_elem_of_nil).
  unfold mbind at 1, M_bind at 1. rewrite recompute_oneLevel by done.
  unfold mbind at 1, M_bind at 1. done.
Qed.

(** X20: on a tree built from at most three blocks every leaf hangs
    under the root, and [batchUpdate] is exact: with every index
    below [blocks.length] it returns, and the node array, leaf data,
    root id and leaf count are those of a fresh build over the blocks
    with the entries written in the mapping's order, the root hash
    included; [verify] answers for the new contents. *)
Theorem batchUpdate_one_level (t0 : TernaryMeshTree) (blocks : list bytes)
    (updates : list (Z * bytes)) :
  reachable t0 → 0 < length blocks ≤ 3 →
  (∀ idx d, (idx, d) ∈ updates → (0 ≤ idx < Z.of_nat (length blocks))%Z) →
  ∃ t t' fresh,
    build blocks t0 = (t, Return ())
    ∧ batchUpdate updates t = (t', Return ())
    ∧ build (applied updates blocks) t0 = (fresh, Return ())
    ∧ same_tree fresh t'
    ∧ getRootHash t' = getRootHash fresh
    ∧ verify_sound (applied updates blocks) t'.
Proof.
  intros Hreach Hlen Hv. pose proof (reachable_cache_ok _ Hreach) as Hc.
  assert (blocks ≠ []) as Hne by (intros ->; simpl in Hlen; lia).
  destruct (build_exact blocks t0 Hne Hc)
    as (t & Hrun & Hn & Hr & Hlc & Hld & Hcfg & _).
  rewrite builtNodes_oneLevelOf in Hn, Hr by done. cbn [fst snd head] in *.
  destruct (applyUpdates_oneLevel updates blocks t _ Hn Hld ltac:(lia) Hv)
    as (t1 & Happly & Hn1 & Hld1 & Hr1 & Hlc1 & Hcfg1 & Hlen1).
  set (bs' := applied updates blocks) in *.
  assert (bs' ≠ []) as Hne'.
  { intros Hnil. rewrite Hnil in Hlen1. simpl in Hlen1. lia. }
  destruct (build_exact bs' t0 Hne' Hc)
    as (fresh & Hrun' & Hn' & Hr' & Hlc' & Hld' & _).
  destruct (build_spec bs' t0 Hne' Hc) as (fresh2 & Hrun2 & Hb & _).
  assert (fresh2 = fresh) as -> by congruence.
  rewrite builtNodes_oneLevelOf in Hn', Hr' by lia.
  cbn [fst snd head] in *.
  assert (validateIndices updates (leafCount t) = Return ()) as Hval.
  { rewrite Hlc. clear -Hv.
    induction updates as [|[idx d] updates IH]; [done|].
    cbn [validateIndices]. rewrite decide_False
      by (specialize (Hv idx d ltac:(by left)); lia).
    apply IH. intros idx' d' Hin. apply (Hv idx' d'). by right. }
  assert (collectAffected updates (nodes t1) []
          = Return (match updates with [] => [] | _ => [3] end)) as Haff.
  { rewrite Hn1. apply collectAffected_oneLevel; [|by left].
    intros idx d Hin. specialize (Hv idx d Hin). lia. }
  assert (∃ ns', (∀ fuel, sweep (S (S fuel))
                   (match updates with [] => [] | _ => [3] end) []
                   (nodes t1) = (ns', Return ()))
                 ∧ ns' = oneLevelOf bs' (oneLevelRoot bs')) as (ns' & Hsw & Hns').
  { rewrite Hn1. destruct updates as [|u updates].
    - eexists. split; [done|]. done.
    - eexists. split; [intros fuel; apply sweep_oneLevel;
                       (apply computeHash_length || apply digest_length)|].
      done. }
  set (t2 := set_nodes (λ _, ns') t1).
  assert (batchUpdate updates t = countUpdates (length updates) t2) as Hbatch.
  { unfold batchUpdate. unfold mbind at 1, M_bind at 1, gets at 1.
    unfold mbind at 1, M_bind at 1, lift at 1. rewrite Hval.
    unfold mbind at 1, M_bind at 1. rewrite Happly.
    unfold mbind at 1, M_bind at 1. rewrite Haff.
    unfold mbind at 1, M_bind at 1, gets at 1.
    unfold mbind at 1, M_bind at 1, onNodes at 1.
    rewrite Hn1 at 1. change (length (oneLevelOf bs' (oneLevelRoot blocks)))
      with 4.
    replace (length (match updates with [] => [] | _ => [3] end) + 4)
      with (S (length (match updates with [] => [] | _ => [3] end) + 3))
      by lia.
    by rewrite Hsw. }
  assert (same_tree fresh (countUpdates (length updates) t2).1) as Hsame.
  { unfold countUpdates, same_tree.
    destruct (enableMetrics (cfg t2)); cbn [fst nodes leafData rootID
      leafCount set_metrics t2 set_nodes];
      rewrite Hns', Hn', Hld1, Hld', Hr1, Hr, Hr', Hlc1, Hlc, Hlc', Hlen1;
      done. }
  exists t, (countUpdates (length updates) t2).1, fresh.
  split_and!; [done| |done|done| |].
  - rewrite Hbatch, <-(countUpdates_returns (length updates) t2).
    by destruct (countUpdates _ _).
  - destruct Hsame as (Hns & _ & Hrs & _). unfold getRootHash.
    by rewrite Hns, Hrs.
  - apply built_verify_sound. by eapply built_same_tree.
Qed.
End batch_one_level.

(** ** Proofs that were tampered with *)

Section tampered.
Context `{HP : HashPrimitive}.




End tampered.

(** ** Padding *)

Section padding.
Context `{HP : HashPrimitive}.

Lemma padded_padded blocks : padded (padded blocks) = padded blocks.
Proof.
  unfold padded at 1. unfold padCount.
  rewrite padded_length_mod. simpl. by rewrite app_nil_r.
Qed.

Lemma builtNodes_padded blocks : builtNodes (padded blocks) = builtNodes blocks.
Proof. unfold builtNodes, leafLayer. by rewrite padded_padded. Qed.

(** X22: padding leaves cannot be told from empty blocks.  [build] over
    the blocks followed by as many empty blocks as it would pad gives
    the same node array, leaf data, root id and root hash as [build]
    over the blocks alone; only [leafCount] differs. *)
Theorem build_padding_invisible (t0 : TernaryMeshTree)
    (blocks : list bytes) :
  reachable t0 → blocks ≠ [] →
  let k := (3 - length blocks mod 3) mod 3 in
  ∃ t t',
    build blocks t0 = (t, Return ())
    ∧ build (blocks ++ replicate k []) t0 = (t', Return ())
    ∧ nodes t' = nodes t ∧ leafData t' = leafData t
    ∧ rootID t' = rootID t ∧ getRootHash t' = getRootHash t
    ∧ leafCount t = Z.of_nat (length blocks)
    ∧ leafCount t' = Z.of_nat (length blocks + k).
Proof.
  intros Hc%reachable_cache_ok Hne k.
  change (blocks ++ replicate k []) with (padded blocks).
  assert (padded blocks ≠ []) as Hne'.
  { unfold padded. by destruct blocks. }
  destruct (build_exact blocks t0 Hne Hc)
    as (t & Hrun & Hn & Hr & Hlc & Hld & _).
  destruct (build_exact (padded blocks) t0 Hne' Hc)
    as (t' & Hrun' & Hn' & Hr' & Hlc' & Hld' & _).
  rewrite builtNodes_padded in Hn', Hr'. rewrite padded_padded in Hld'.
  exists t, t'. unfold getRootHash.
  rewrite Hn, Hn', Hr, Hr', Hld, Hld', Hlc, Hlc'.
  split_and!; [done..|].
  unfold padded. by rewrite length_app, length_replicate.
Qed.
End padding.

(** ** Instances of the further theorems *)

Lemma combineHashes_slots_witness :
  Forall (λ h : Hash, length h ≤ 32)
    [computeHash (HP:=mixPrimitive) (block "a"); block "bc"]
  ∧ combineHashes (HP:=mixPrimitive)
      (Some <$> [computeHash (HP:=mixPrimitive) (block "a"); block "bc"])
    = Return (@blake3 mixPrimitive
                (concat (pad32 <$> [computeHash (HP:=mixPrimitive) (block "a");
                                    block "bc"]))).
Proof.
  assert (Forall (λ h : Hash, length h ≤ 32)
            [computeHash (HP:=mixPrimitive) (block "a"); block "bc"]) as Hsz.
  { apply Forall_cons_2; [vm_compute; lia|].
    apply Forall_cons_2; [vm_compute; lia|]. apply Forall_nil_2. }
  split; [exact Hsz|].
  exact (proj1 (combineHashes_slots (HP:=mixPrimitive) _ Hsz)).
Defined.

Lemma build_tree_ok_witness :
  reachable (HP:=mixPrimitive) (newTree defaultConfig)
  ∧ sampleBlocks ≠ []
  ∧ ∃ t root, build (HP:=mixPrimitive) sampleBlocks (newTree defaultConfig)
              = (t, Return ())
              ∧ tree_ok (HP:=mixPrimitive) t root.
Proof.
  assert (sampleBlocks ≠ []) as Hne by discriminate.
  split; [apply reach_new|]. split; [exact Hne|].
  exact (build_tree_ok (HP:=mixPrimitive) _ _ (reach_new defaultConfig) Hne).
Defined.

Lemma build_height_witness :
  reachable (HP:=mixPrimitive) (newTree defaultConfig)
  ∧ sampleBlocks ≠ []
  ∧ ∃ t h, build (HP:=mixPrimitive) sampleBlocks (newTree defaultConfig)
           = (t, Return ())
           ∧ getHeight t = Return h
           ∧ 2 ≤ h
           ∧ 3 ^ (h - 2) < length (leafData t) ≤ 3 ^ (h - 1).
Proof.
  assert (sampleBlocks ≠ []) as Hne by discriminate.
  split; [apply reach_new|]. split; [exact Hne|].
  exact (build_height (HP:=mixPrimitive) _ _ (reach_new defaultConfig) Hne).
Defined.

Lemma build_same_tree_witness :
  let c := {| enableCaching := false; maxCacheSize := 0;
              enableMetrics := false; parallelThreshold := 1 |} in
  reachable (HP:=mixPrimitive) (newTree defaultConfig)
  ∧ reachable (HP:=mixPrimitive) (newTree c)
  ∧ sampleBlocks ≠ []
  ∧ ∃ r1 r2,
      build (HP:=mixPrimitive) sampleBlocks (newTree defaultConfig)
      = (r1, Return ())
      ∧ build (HP:=mixPrimitive) sampleBlocks (newTree c) = (r2, Return ())
      ∧ same_tree r1 r2
      ∧ getRootHash r1 = getRootHash r2.
Proof.
  cbv zeta. assert (sampleBlocks ≠ []) as Hne by discriminate.
  split; [apply reach_new|]. split; [apply reach_new|]. split; [exact Hne|].
  exact (build_same_tree (HP:=mixPrimitive) _ _ _ (reach_new defaultConfig)
           (reach_new _) Hne).
Defined.

Lemma build_memory_estimate_witness :
  reachable (HP:=mixPrimitive) (newTree defaultConfig)
  ∧ sampleBlocks ≠ []
  ∧ enableMetrics (cfg (newTree defaultConfig)) = true
  ∧ ∃ t, build (HP:=mixPrimitive) sampleBlocks (newTree defaultConfig)
         = (t, Return ())
         ∧ memoryUsageBytes (getMetrics t)
           = 80 * length (nodes t) + sum_list (length <$> sampleBlocks)
         ∧ totalVerifications (getMetrics t)
           = totalVerifications (getMetrics (newTree defaultConfig))
         ∧ totalUpdates (getMetrics t)
           = totalUpdates (getMetrics (newTree defaultConfig)).
Proof.
  assert (sampleBlocks ≠ []) as Hne by discriminate.
  split; [apply reach_new|]. split; [exact Hne|]. split; [reflexivity|].
  exact (build_memory_estimate (HP:=mixPrimitive) _ _
           (reach_new defaultConfig) Hne eq_refl).
Defined.

Lemma generated_proof_accepted_witness :
  reachable (HP:=mixPrimitive) (newTree defaultConfig)
  ∧ sampleBlocks !! 2 = Some (block "c")
  ∧ ∃ t proof,
      build (HP:=mixPrimitive) sampleBlocks (newTree defaultConfig)
      = (t, Return ())
      ∧ generateProof t (Z.of_nat 2) = Return proof
      ∧ leafIndex proof = Z.of_nat 2
      ∧ verifyProof (HP:=mixPrimitive) t proof (block "c")
        = Return (true, None).
Proof.
  split; [apply reach_new|]. split; [reflexivity|].
  exact (generated_proof_accepted (HP:=mixPrimitive) _ sampleBlocks 2 _
           (reach_new defaultConfig) eq_refl).
Defined.

Lemma restored_tree_verifies_witness :
  reachable (HP:=mixPrimitive) (newTree defaultConfig)
  ∧ sampleBlocks ≠ []
  ∧ ∃ t text t',
      build (HP:=mixPrimitive) sampleBlocks (newTree defaultConfig)
      = (t, Return ())
      ∧ serialize (JC:=plainCodec) t = Return text
      ∧ deserialize (JC:=plainCodec) text defaultConfig = Return t'
      ∧ verify_sound (HP:=mixPrimitive) sampleBlocks t'.
Proof.
  assert (sampleBlocks ≠ []) as Hne by discriminate.
  split; [apply reach_new|]. split; [exact Hne|].
  exact (restored_tree_verifies (HP:=mixPrimitive) (JC:=plainCodec) _ _
           defaultConfig (reach_new defaultConfig) Hne).
Defined.

Lemma update_one_level_witness :
  reachable (HP:=mixPrimitive) (newTree defaultConfig)
  ∧ 1 < length [block "a"; block "b"]
  ∧ length [block "a"; block "b"] ≤ 3
  ∧ ∃ t t' fresh,
      build (HP:=mixPrimitive) [block "a"; block "b"] (newTree defaultConfig)
      = (t, Return ())
      ∧ update (HP:=mixPrimitive) (Z.of_nat 1) (block "x") t = (t', Return ())
      ∧ build (HP:=mixPrimitive) (<[1 := block "x"]> [block "a"; block "b"])
          (newTree defaultConfig) = (fresh, Return ())
      ∧ same_tree fresh t'
      ∧ getRootHash t' = getRootHash fresh
      ∧ verify_sound (HP:=mixPrimitive)
          (<[1 := block "x"]> [block "a"; block "b"]) t'.
Proof.
  assert (1 < length [block "a"; block "b"]) as H1 by (simpl; lia).
  assert (length [block "a"; block "b"] ≤ 3) as H2 by (simpl; lia).
  split; [apply reach_new|]. split; [exact H1|]. split; [exact H2|].
  exact (update_one_level (HP:=mixPrimitive) _ _ 1 (block "x")
           (reach_new defaultConfig) H1 H2).
Defined.

Lemma metrics_counters_witness :
  enableMetrics (cfg sampleTree) = true
  ∧ getMetrics (update (HP:=mixPrimitive) 2 (block "x") sampleTree).1
    = (if returns (update (HP:=mixPrimitive) 2 (block "x") sampleTree).2
       then countedUpdates 1 (getMetrics sampleTree)
       else getMetrics sampleTree).
Proof.
  assert (enableMetrics (cfg sampleTree) = true) as Hon
    by (vm_compute; reflexivity).
  split; [exact Hon|].
  exact (proj1 (metrics_counters (HP:=mixPrimitive) sampleTree Hon)
           2%Z (block "x")).
Defined.


Lemma update_returns_witness :
  reachable (HP:=mixPrimitive) (newTree defaultConfig)
  ∧ 2 < length sampleBlocks
  ∧ ∃ t t',
      build (HP:=mixPrimitive) sampleBlocks (newTree defaultConfig)
      = (t, Return ())
      ∧ update (HP:=mixPrimitive) (Z.of_nat 2) (block "x") t = (t', Return ())
      ∧ leafData t' = Some <$> padded (<[2 := block "x"]> sampleBlocks)
      ∧ (∀ j x, padded (<[2 := block "x"]> sampleBlocks) !! j = Some x →
           ∃ n, nodes t' !! j = Some n
                ∧ hash n = computeHash (HP:=mixPrimitive) x
                ∧ isLeaf n = true)
      ∧ keeps_shape t t'.
Proof.
  assert (2 < length sampleBlocks) as Hlt by (simpl; lia).
  split; [apply reach_new|]. split; [exact Hlt|].
  exact (update_returns (HP:=mixPrimitive) _ sampleBlocks 2 (block "x")
           (reach_new defaultConfig) Hlt).
Defined.

Lemma batchUpdate_returns_witness :
  let updates := [(0%Z, block "x"); (3%Z, block "y")] in
  reachable (HP:=mixPrimitive) (newTree defaultConfig)
  ∧ sampleBlocks ≠ []
  ∧ (∀ idx d, (idx, d) ∈ updates →
       (0 ≤ idx < Z.of_nat (length sampleBlocks))%Z)
  ∧ ∃ t t',
      build (HP:=mixPrimitive) sampleBlocks (newTree defaultConfig)
      = (t, Return ())
      ∧ batchUpdate (HP:=mixPrimitive) updates t = (t', Return ())
      ∧ leafData t' = Some <$> padded (applied updates sampleBlocks)
      ∧ ∀ i d, padded (applied updates sampleBlocks) !! i = Some d →
          ∃ n, nodes t' !! i = Some n
               ∧ hash n = computeHash (HP:=mixPrimitive) d
               ∧ isLeaf n = true.
Proof.
  cbv zeta. assert (sampleBlocks ≠ []) as Hne by discriminate.
  assert (∀ idx d, (idx, d) ∈ [(0%Z, block "x"); (3%Z, block "y")] →
            (0 ≤ idx < Z.of_nat (length sampleBlocks))%Z) as Hv.
  { intros idx d Hin.
    apply elem_of_cons in Hin as [[= -> ->]|Hin]; [simpl; lia|].
    apply elem_of_cons in Hin as [[= -> ->]|Hin]; [simpl; lia|].
    by apply elem_of_nil in Hin. }
  split; [apply reach_new|]. split; [exact Hne|]. split; [exact Hv|].
  exact (batchUpdate_returns (HP:=mixPrimitive) _ _ _
           (reach_new defaultConfig) Hne Hv).
Defined.

Lemma build_node_count_witness :
  reachable (HP:=mixPrimitive) (newTree defaultConfig)
  ∧ sampleBlocks ≠ []
  ∧ ∃ t, build (HP:=mixPrimitive) sampleBlocks (newTree defaultConfig)
         = (t, Return ())
         ∧ length (leafData t) < length (nodes t)
         ∧ length (nodes t) < 2 * length (leafData t).
Proof.
  assert (sampleBlocks ≠ []) as Hne by discriminate.
  split; [apply reach_new|]. split; [exact Hne|].
  exact (build_node_count (HP:=mixPrimitive) _ _ (reach_new defaultConfig) Hne).
Defined.

Lemma proof_size_witness :
  reachable (HP:=mixPrimitive) (newTree defaultConfig)
  ∧ 2 < length sampleBlocks
  ∧ ∃ t proof h,
      build (HP:=mixPrimitive) sampleBlocks (newTree defaultConfig)
      = (t, Return ())
      ∧ generateProof t (Z.of_nat 2) = Return proof
      ∧ getHeight t = Return h
      ∧ pathLength proof + 1 = h
      ∧ length (siblingHashes proof) ≤ 2 * pathLength proof.
Proof.
  assert (2 < length sampleBlocks) as Hlt by (simpl; lia).
  split; [apply reach_new|]. split; [exact Hlt|].
  exact (proof_size (HP:=mixPrimitive) _ sampleBlocks 2
           (reach_new defaultConfig) Hlt).
Defined.

Lemma batchUpdate_one_level_witness :
  let blocks := [block "a"; block "b"; block "c"] in
  let updates := [(2%Z, block "x"); (0%Z, block "y")] in
  reachable (HP:=mixPrimitive) (newTree defaultConfig)
  ∧ 0 < length blocks ≤ 3
  ∧ (∀ idx d, (idx, d) ∈ updates → (0 ≤ idx < Z.of_nat (length blocks))%Z)
  ∧ ∃ t t' fresh,
      build (HP:=mixPrimitive) blocks (newTree defaultConfig) = (t, Return ())
      ∧ batchUpdate (HP:=mixPrimitive) updates t = (t', Return ())
      ∧ build (HP:=mixPrimitive) (applied updates blocks)
          (newTree defaultConfig) = (fresh, Return ())
      ∧ same_tree fresh t'
      ∧ getRootHash t' = getRootHash fresh
      ∧ verify_sound (HP:=mixPrimitive) (applied updates blocks) t'.
Proof.
  cbv zeta.
  assert (0 < length [block "a"; block "b"; block "c"] ≤ 3) as Hlen
    by (simpl; lia).
  assert (∀ idx d, (idx, d) ∈ [(2%Z, block "x"); (0%Z, block "y")] →
            (0 ≤ idx < Z.of_nat (length [block "a"; block "b"; block "c"]))%Z)
    as Hv.
  { intros idx d Hin.
    apply elem_of_cons in Hin as [[= -> ->]|Hin]; [simpl; lia|].
    apply elem_of_cons in Hin as [[= -> ->]|Hin]; [simpl; lia|].
    by apply elem_of_nil in Hin. }
  split; [apply reach_new|]. split; [exact Hlen|]. split; [exact Hv|].
  exact (batchUpdate_one_level (HP:=mixPrimitive) _ _ _
           (reach_new defaultConfig) Hlen Hv).
Defined.


Lemma build_padding_invisible_witness :
  reachable (HP:=mixPrimitive) (newTree defaultConfig)
  ∧ sampleBlocks ≠ []
  ∧ ∃ t t',
      build (HP:=mixPrimitive) sampleBlocks (newTree defaultConfig)
      = (t, Return ())
      ∧ build (HP:=mixPrimitive)
          (sampleBlocks ++ replicate ((3 - length sampleBlocks mod 3) mod 3) [])
          (newTree defaultConfig) = (t', Return ())
      ∧ nodes t' = nodes t ∧ leafData t' = leafData t
      ∧ rootID t' = rootID t ∧ getRootHash t' = getRootHash t
      ∧ leafCount t = Z.of_nat (length sampleBlocks)
      ∧ leafCount t'
        = Z.of_nat (length sampleBlocks
                    + (3 - length sampleBlocks mod 3) mod 3).
Proof.
  assert (sampleBlocks ≠ []) as Hne by discriminate.
  split; [apply reach_new|]. split; [exact Hne|].
  exact (build_padding_invisible (HP:=mixPrimitive) _ _
           (reach_new defaultConfig) Hne).
Defined.
